(** * Braccini-Parella: the live-match synchronisation layer

    A shallow embedding of the broadcast relay ([server.ts]), of the sync
    transport client ([services/cloud.ts]), of the match handlers of the
    two application shells (the root [App.tsx] and [src/App.tsx]), of the
    basic fixture generator ([services/geminiService.ts]) and of the
    statistics of the TV overlay ([components/TVOverlay.tsx]), followed by
    the properties of the specification that were checked against them and
    by further properties of the code.

    Conventions.
    - A JavaScript number that the modelled code only counts with (scores,
      set numbers, shirt numbers, delays in milliseconds) is a [Z].
    - [undefined] is [None] of an [option]; [null] inside JSON data is
      [JNull].
    - A handler that reacts to an event is a function from the module state
      to the new module state and the list of effects it performed, in
      program order. *)

From Stdlib Require Import ZArith List Lia.
From stdpp Require Import base gmap strings list pretty.
Import ListNotations.
Open Scope string_scope.
Open Scope list_scope.
Open Scope Z_scope.
Set Warnings "-register-all".

(* ================================================================== *)
(** ** JSON values and the JavaScript operations applied to them      *)
(* ================================================================== *)

(** What [JSON.parse] returns.  The field list of an object is in
    [Object.keys] order and holds each key once.  A [JNum] is a number
    whose value is an integer: any integer of magnitude below 2^53, and
    above that the integers that are doubles.  Other numbers are not among
    the values of this type.  The characters of a [JStr] are the code units
    of the string. *)
Inductive json : Type :=
| JNull
| JBool (b : bool)
| JNum (n : Z)
| JStr (s : string)
| JArr (items : list json)
| JObj (fields : list (string * json)).

(** Lookup of the first binding of a key. *)
Fixpoint assoc {A} (k : string) (l : list (string * A)) : option A :=
  match l with
  | [] => None
  | (k', v) :: r => if decide (k' = k) then Some v else assoc k r
  end.

(** [v.k] for a key that no prototype defines ([type], [path], [data]):
    the own property of an object, [undefined] on any other non-null
    value.  Reading a property of [null] throws; callers test for it. *)
Definition field (k : string) (v : json) : option json :=
  match v with
  | JObj fs => assoc k fs
  | _ => None
  end.

(** JavaScript truthiness of a JSON value. *)
Definition truthy (v : json) : bool :=
  match v with
  | JNull => false
  | JBool b => b
  | JNum n => negb (n =? 0)
  | JStr s => negb (bool_decide (s = ""))
  | JArr _ | JObj _ => true
  end.

Definition truthy_opt (v : option json) : bool :=
  match v with
  | None => false
  | Some j => truthy j
  end.

Fixpoint join_comma (l : list string) : string :=
  match l with
  | [] => ""
  | [s] => s
  | s :: r => s +:+ "," +:+ join_comma r
  end.

(** *** Numbers as strings *)

(** Whether the decimal [c] reads back as the double [n], an integer of
    absolute value at least 2^53: [c] lies within half a unit in the last
    place of [n], the midpoints counting when the significand of [n] is
    even.  (Distances are taken four times over, to stay among integers
    below a power of two, where the gap is half as wide.) *)
Definition round_trips (n c : Z) : bool :=
  let ulp := 2 ^ (Z.log2 n - 52) in
  let m := n / ulp in
  let above := 2 * ulp in
  let below := if m =? 2 ^ 52 then ulp else 2 * ulp in
  let d := 4 * (c - n) in
  if 0 <=? d
  then (d <? above) || (Z.even m && (d =? above))
  else (- d <? below) || (Z.even m && (- d =? below)).

(** The fewest leading digits [s], [k] of them, that read back as [n],
    which has [D] digits: the nearer of the two candidates, the even one
    when they are as near. *)
Fixpoint shortest_digits (n D : Z) (fuel : nat) (k : Z) : Z * Z :=
  match fuel with
  | O => (n, D)
  | S fuel' =>
      let p := 10 ^ (D - k) in
      let s1 := n / p in
      let s2 := s1 + 1 in
      let ok1 := round_trips n (s1 * p) in
      let ok2 := round_trips n (s2 * p) in
      let d1 := n - s1 * p in
      let d2 := s2 * p - n in
      if ok1 && ok2
      then ((if d1 <? d2 then s1
             else if d2 <? d1 then s2
             else if Z.even s1 then s1 else s2), k)
      else if ok1 then (s1, k)
      else if ok2 then (s2, k)
      else shortest_digits n D fuel' (k + 1)
  end.

Definition zeros (n : Z) : string :=
  fold_right String.append "" (repeat "0" (Z.to_nat n)).

(** [String(n)] for a positive integer [n]: its digits below 2^53, where
    every integer is a number of its own; from there on the shortest digits
    that read back as the same double, filled up with zeros below 10^21 and
    in exponent form from 10^21. *)
Definition positive_to_string (n : Z) : string :=
  if n <? 2 ^ 53 then pretty n
  else
    let D := Z.of_nat (String.length (pretty n)) in
    let '(s, k) := shortest_digits n D (Z.to_nat D) 1 in
    let '(s, k, D) := if s =? 10 ^ k then (1, 1, D + 1) else (s, k, D) in
    if D <=? 21 then pretty s +:+ zeros (D - k)
    else
      match pretty s with
      | String a EmptyString => String a ("e+" +:+ pretty (D - 1))
      | String a r => String a ("." +:+ r +:+ "e+" +:+ pretty (D - 1))
      | EmptyString => ""
      end.

Definition number_to_string (n : Z) : string :=
  if n <? 0 then "-" +:+ positive_to_string (- n) else positive_to_string n.

(** [String(v)], the conversion applied to a computed property key, or
    [None] where it throws a [TypeError].  An array is joined with commas,
    [null] elements giving the empty string.  An object of JSON data gives
    ["[object Object]"] unless it has an own property [toString]: that
    property is data, not a function, so the conversion turns to [valueOf],
    which gives no primitive value either, and throws. *)
Fixpoint to_js_string (v : json) : option string :=
  match v with
  | JNull => Some "null"
  | JBool true => Some "true"
  | JBool false => Some "false"
  | JNum n => Some (number_to_string n)
  | JStr s => Some s
  | JArr l =>
      match
        (fix elements (l : list json) : option (list string) :=
           match l with
           | [] => Some []
           | x :: r =>
               match (match x with JNull => Some "" | _ => to_js_string x end),
                     elements r with
               | Some s, Some ss => Some (s :: ss)
               | _, _ => None
               end
           end) l
      with
      | Some ss => Some (join_comma ss)
      | None => None
      end
  | JObj fs =>
      match assoc "toString" fs with
      | Some _ => None
      | None => Some "[object Object]"
      end
  end.

(** The property key of [o[v]]: [v] converted to a string, [undefined]
    giving ["undefined"]. *)
Definition to_property_key (v : option json) : option string :=
  match v with
  | None => Some "undefined"
  | Some j => to_js_string j
  end.

(** *** Own properties of an ordinary object *)

(** The value of a decimal numeral. *)
Fixpoint digits_value (s : string) (acc : N) : option N :=
  match s with
  | EmptyString => Some acc
  | String a r =>
      let d := Ascii.N_of_ascii a in
      if ((48 <=? d) && (d <=? 57))%N
      then digits_value r (10 * acc + (d - 48))%N
      else None
  end.

(** [k] read as an array index: the decimal numeral, without leading
    zeros, of an integer below 2^32 - 1. *)
Definition array_index (k : string) : option N :=
  match k with
  | EmptyString => None
  | String a r =>
      if (Ascii.N_of_ascii a =? 48)%N
      then match r with EmptyString => Some 0%N | _ => None end
      else
        match digits_value k 0 with
        | Some n => if (n <? 4294967295)%N then Some n else None
        | None => None
        end
  end.

Fixpoint overwrite {A} (k : string) (v : A) (l : list (string * A)) : list (string * A) :=
  match l with
  | [] => []
  | (k', v') :: r =>
      if decide (k' = k) then (k', v) :: r else (k', v') :: overwrite k v r
  end.

Fixpoint insert_index {A} (n : N) (k : string) (v : A) (l : list (string * A))
  : list (string * A) :=
  match l with
  | [] => [(k, v)]
  | (k', v') :: r =>
      match array_index k' with
      | Some n' => if (n' <? n)%N then (k', v') :: insert_index n k v r else (k, v) :: l
      | None => (k, v) :: l
      end
  end.

(** [o[k] = v] on the own data properties [l] of an ordinary object, kept
    in [Object.keys] order: a property that exists keeps its place; a new
    one goes among the array indices, which come first in ascending order,
    or else after every other key. *)
Definition put {A} (k : string) (v : A) (l : list (string * A)) : list (string * A) :=
  match assoc k l with
  | Some _ => overwrite k v l
  | None =>
      match array_index k with
      | Some n => insert_index n k v l
      | None => l ++ [(k, v)]
      end
  end.

(** The names [Object.prototype] defines.  An object literal that has no
    own property of such a name still answers a read of it, with a function
    (with the prototype itself, for [__proto__]). *)
Definition prototype_member (k : string) : bool :=
  bool_decide (k ∈ [ "constructor"; "__defineGetter__"; "__defineSetter__";
                     "hasOwnProperty"; "__lookupGetter__"; "__lookupSetter__";
                     "isPrototypeOf"; "propertyIsEnumerable"; "toString";
                     "valueOf"; "__proto__"; "toLocaleString" ]).

Fixpoint chars (s : string) : list string :=
  match s with
  | EmptyString => []
  | String a r => String a EmptyString :: chars r
  end.

(** [Object.keys(v)] paired with [v[key]] for each key.  [None] when
    [Object.keys] throws (on [null] and [undefined]). *)
Definition entries (v : option json) : option (list (string * json)) :=
  match v with
  | None | Some JNull => None
  | Some (JObj fs) => Some (map (fun k => (k, default JNull (assoc k fs))) (map fst fs))
  | Some (JArr l) => Some (imap (fun i x => (pretty i, x)) l)
  | Some (JStr s) => Some (imap (fun i c => (pretty i, JStr c)) (chars s))
  | Some (JBool _) | Some (JNum _) => Some []
  end.

(** An object literal with optional members: [JSON.stringify] leaves out
    a member whose value is [undefined]. *)
Definition members (l : list (string * option json)) : list (string * json) :=
  omap (fun kv => match snd kv with Some v => Some (fst kv, v) | None => None end) l.

(** *** JavaScript values before serialisation *)

(** What a caller may hand to [pushData(path, data: any)]: JSON data, and
    the values [JSON.stringify] drops ([undefined], functions) or refuses
    (a [BigInt] makes it throw a [TypeError]). *)
Inductive jsval : Type :=
| VUndefined
| VNull
| VBool (b : bool)
| VNum (n : Z)
| VStr (s : string)
| VFunction
| VBigInt (n : Z)
| VArray (items : list jsval)
| VObject (fields : list (string * jsval)).

Inductive serialized : Type :=
| SThrows
| SUndefined
| SJson (j : json).

(** The tree that [JSON.parse(JSON.stringify(v))] rebuilds, or how
    [JSON.stringify(v)] fails to give a text. *)
Fixpoint stringify (v : jsval) : serialized :=
  match v with
  | VUndefined | VFunction => SUndefined
  | VBigInt _ => SThrows
  | VNull => SJson JNull
  | VBool b => SJson (JBool b)
  | VNum n => SJson (JNum n)
  | VStr s => SJson (JStr s)
  | VArray l =>
      (fix elems (l : list jsval) : serialized :=
         match l with
         | [] => SJson (JArr [])
         | x :: r =>
             match stringify x, elems r with
             | SThrows, _ | _, SThrows => SThrows
             | SUndefined, SJson (JArr js) => SJson (JArr (JNull :: js))
             | SJson j, SJson (JArr js) => SJson (JArr (j :: js))
             | _, _ => SThrows
             end
         end) l
  | VObject fs =>
      (fix props (fs : list (string * jsval)) : serialized :=
         match fs with
         | [] => SJson (JObj [])
         | (k, x) :: r =>
             match stringify x, props r with
             | SThrows, _ | _, SThrows => SThrows
             | SUndefined, SJson (JObj js) => SJson (JObj js)
             | SJson j, SJson (JObj js) => SJson (JObj ((k, j) :: js))
             | _, _ => SThrows
             end
         end) fs
  end.

(** Every JSON tree is a JavaScript value. *)
Fixpoint of_json (j : json) : jsval :=
  match j with
  | JNull => VNull
  | JBool b => VBool b
  | JNum n => VNum n
  | JStr s => VStr s
  | JArr l => VArray (map of_json l)
  | JObj fs => VObject (map (fun kv => (fst kv, of_json (snd kv))) fs)
  end.

(* ================================================================== *)
(** ** The wire                                                       *)
(* ================================================================== *)

(** A message is a text.  A text that is valid JSON is kept by the tree
    [JSON.parse] returns for it, any other text as it is. *)
Inductive wire : Type :=
| Text (j : json)
| Garbage (raw : string).

(** [JSON.parse]: [None] when it throws a [SyntaxError]. *)
Definition JSON_parse (m : wire) : option json :=
  match m with
  | Text j => Some j
  | Garbage _ => None
  end.

(** [JSON.stringify] of a value that is already JSON data. *)
Definition JSON_stringify (j : json) : wire := Text j.

Inductive ReadyState : Type := CONNECTING | OPEN | CLOSING | CLOSED.

#[global] Instance ReadyState_eq_dec : EqDecision ReadyState.
Proof. solve_decision. Defined.

(* ================================================================== *)
(** ** The broadcast relay ([server.ts])                              *)
(* ================================================================== *)

Module Relay.

(** One element of [wss.clients]: the socket object (known by its
    identity) and its [readyState]. *)
Record client : Type := Client { conn : nat; readyState : ReadyState }.

(** The [state] object: its own properties, in [Object.keys] order, each
    with the last value written there ([None] for [undefined]), and its
    prototype, [None] while that is [Object.prototype] and otherwise the
    value that was installed in its place ([null], an object or an array
    of JSON data). *)
Record store : Type := Store {
  own : list (string * option json);
  proto : option json
}.

Record server : Type := Server { state : store; clients : list client }.

Inductive action : Type :=
| Send (to : nat) (m : wire)
| LogError (msg : string).

Definition initial_state : store :=
  {| own := [ ("users", Some (JArr []));
              ("teams", Some (JArr []));
              ("tournaments", Some (JArr []));
              ("liveMatch", Some JNull) ];
     proto := None |}.

(** Whether [state["__proto__"] = v] runs the setter of
    [Object.prototype]: [state] has no own property of that name, and
    neither has an object met on the prototype chain before
    [Object.prototype] (a parsed object may: [JSON.parse] creates
    ["__proto__"] as an ordinary property); a [null] prototype ends the
    chain before the setter. *)
Definition proto_setter_reached (st : store) : bool :=
  match assoc "__proto__" (own st) with
  | Some _ => false
  | None =>
      match proto st with
      | None => true
      | Some JNull => false
      | Some (JObj fs) =>
          match assoc "__proto__" fs with
          | Some _ => false
          | None => true
          end
      | Some _ => true
      end
  end.

(** [state[path] = data].  For every key but ["__proto__"], and for that
    one when the setter is out of reach, the own property is written.  The
    setter makes an object, an array or [null] the prototype of [state] and
    does nothing with any other value; it creates no own property. *)
Definition assign (path : string) (data : option json) (st : store) : store :=
  if bool_decide (path = "__proto__") && proto_setter_reached st then
    match data with
    | Some (JNull as d) | Some (JObj _ as d) | Some (JArr _ as d) =>
        {| own := own st; proto := Some d |}
    | _ => st
    end
  else {| own := put path data (own st); proto := proto st |}.

(** The own property [path] of [state]: [None] when there is none. *)
Definition read (st : store) (path : string) : option (option json) :=
  assoc path (own st).

(** [{ type: 'INIT', data: state }] as serialised: the own properties of
    [state] that hold a value. *)
Definition init_frame (st : store) : json :=
  JObj [ ("type", JStr "INIT"); ("data", JObj (members (own st))) ].

(** [{ type: 'UPDATE', path, data }] as serialised. *)
Definition update_frame (path data : option json) : json :=
  JObj (members [ ("type", Some (JStr "UPDATE")); ("path", path); ("data", data) ]).

(** [wss.on('connection', ws => ...)]: the new socket joins
    [wss.clients] and is sent the snapshot. *)
Definition on_connection (srv : server) (ws : nat) : server * list action :=
  ( {| state := state srv; clients := clients srv ++ [Client ws OPEN] |},
    [ Send ws (JSON_stringify (init_frame (state srv))) ] ).

(** The body of [wss.clients.forEach] in the UPDATE branch. *)
Definition forward (ws : nat) (frame : json) (c : client) : list action :=
  if bool_decide (conn c <> ws) && bool_decide (readyState c = OPEN)
  then [ Send (conn c) (JSON_stringify frame) ]
  else [].

Definition broadcast (ws : nat) (frame : json) (cs : list client) : list action :=
  concat (map (forward ws frame) cs).

(** [ws.on('message', message => ...)] for the socket [ws].  A [path]
    whose conversion to a property key throws ends in the [catch] like any
    other exception, before anything is stored or sent. *)
Definition on_message (srv : server) (ws : nat) (message : wire) : server * list action :=
  match JSON_parse message with
  | None => (srv, [ LogError "Error processing message" ])
  | Some JNull => (srv, [ LogError "Error processing message" ])
  | Some parsed =>
      match field "type" parsed with
      | Some (JStr "UPDATE") =>
          let path := field "path" parsed in
          let data := field "data" parsed in
          match to_property_key path with
          | None => (srv, [ LogError "Error processing message" ])
          | Some key =>
              ( {| state := assign key data (state srv);
                   clients := clients srv |},
                broadcast ws (update_frame path data) (clients srv) )
          end
      | Some (JStr "SYNC_REQUEST") =>
          (srv, [ Send ws (JSON_stringify (init_frame (state srv))) ])
      | _ => (srv, [])
      end
  end.

End Relay.

(* ================================================================== *)
(** ** The sync transport client ([services/cloud.ts])                *)
(* ================================================================== *)

Module Cloud.

(** A subscriber is a closure; the code only compares closures by
    identity ([cb !== onData]), so a callback is known by its identity. *)
Definition callback : Type := nat.

(** What a timer runs when it fires. *)
Inductive task : Type :=
| Reconnect
| RetryUpdate (path : string) (data : jsval).

Inductive action : Type :=
| SocketSend (m : wire)
| LogInfo (msg : string)
| LogError (msg : string)
| SetTimeout (t : task) (ms : Z)
| Invoke (cb : callback) (data : option json)
| DbSet (path : string) (data : json)
| UncaughtError.

(** Outcome of the promise an [async] function returns. *)
Inductive completion : Type := Fulfilled | Rejected.

(** What the function returned by [syncData] does when called. *)
Inductive unsubscribe : Type :=
| DbUnsubscribe (handle : nat)
| RemoveListener (path : string) (onData : callback).

(** The module variables: [db] (set or [null]), [socket] (the
    [readyState] of the current socket object, or [null]), [listeners],
    and the value subscriptions the datastore holds for this client, each
    under the handle [onValue] returned for it. *)
Record client : Type := Client {
  db : bool;
  socket : option ReadyState;
  listeners : gmap string (list callback);
  subscriptions : list (nat * (string * callback));
  handles : nat
}.

Definition initial : client :=
  {| db := false; socket := None; listeners := ∅; subscriptions := []; handles := 0%nat |}.

Definition with_socket (s : option ReadyState) (c : client) : client :=
  {| db := db c; socket := s; listeners := listeners c;
     subscriptions := subscriptions c; handles := handles c |}.

Definition with_listeners (l : gmap string (list callback)) (c : client) : client :=
  {| db := db c; socket := socket c; listeners := l;
     subscriptions := subscriptions c; handles := handles c |}.

(** [initCloud]: a configuration with a [databaseURL] selects the
    datastore backend. *)
Definition initCloud (has_databaseURL : bool) (c : client) : client * bool :=
  if has_databaseURL
  then ({| db := true; socket := socket c; listeners := listeners c;
           subscriptions := subscriptions c; handles := handles c |}, true)
  else (c, false).

(** [connectSocket]: [socket = new WebSocket(...)]. *)
Definition connectSocket (c : client) : client := with_socket (Some CONNECTING) c.

Definition initSocket (c : client) : client :=
  match socket c with
  | None => connectSocket c
  | Some _ => c
  end.

Definition sync_request : json := JObj [ ("type", JStr "SYNC_REQUEST") ].

(** The socket opened: [socket.onopen]. *)
Definition onopen (c : client) : client * list action :=
  let c := with_socket (Some OPEN) c in
  (c, [ LogInfo "Connected to WebSocket server";
        SocketSend (JSON_stringify sync_request) ]).

(** [if (listeners[key]) listeners[key].forEach(cb => cb(value))].
    [listeners] is an object literal: for a key that names a member of
    [Object.prototype] the read gives that member, which has no [forEach],
    and the call throws ([None]). *)
Definition notify (c : client) (key : string) (value : option json)
  : option (list action) :=
  if prototype_member key then None
  else match listeners c !! key with
       | Some cbs => Some (map (fun cb => Invoke cb value) cbs)
       | None => Some []
       end.

(** The loop over [Object.keys(message.data)] of the INIT branch: a key
    at which [notify] throws ends the loop in the [catch]. *)
Fixpoint notify_all (c : client) (kvs : list (string * json)) : list action :=
  match kvs with
  | [] => []
  | kv :: rest =>
      match notify c (fst kv) (Some (snd kv)) with
      | Some acts => acts ++ notify_all c rest
      | None => [ LogError "Error parsing WebSocket message" ]
      end
  end.

(** [socket.onmessage]. *)
Definition onmessage (c : client) (data : wire) : client * list action :=
  match JSON_parse data with
  | None => (c, [ LogError "Error parsing WebSocket message" ])
  | Some JNull => (c, [ LogError "Error parsing WebSocket message" ])
  | Some message =>
      match field "type" message with
      | Some (JStr "INIT") =>
          match entries (field "data" message) with
          | None => (c, [ LogError "Error parsing WebSocket message" ])
          | Some kvs => (c, notify_all c kvs)
          end
      | Some (JStr "UPDATE") =>
          match to_property_key (field "path" message) with
          | None => (c, [ LogError "Error parsing WebSocket message" ])
          | Some key =>
              match notify c key (field "data" message) with
              | Some acts => (c, acts)
              | None => (c, [ LogError "Error parsing WebSocket message" ])
              end
          end
      | _ => (c, [])
      end
  end.

(** The socket closed: [socket.onclose]. *)
Definition onclose (c : client) : client * list action :=
  let c := with_socket (Some CLOSED) c in
  (c, [ LogInfo "Disconnected from WebSocket server"; SetTimeout Reconnect 3000 ]).

(** [syncData(path, onData)]: the state it leaves and the function it
    returns.  For a path that names a member of [Object.prototype],
    [listeners[path]] is that member: no list is created, the [push] throws
    and [syncData] returns nothing ([None]). *)
Definition syncData (path : string) (onData : callback) (c : client)
  : client * option unsubscribe :=
  if prototype_member path then (c, None)
  else
    let c := with_listeners
               (<[path := default [] (listeners c !! path) ++ [onData]]> (listeners c)) c in
    if db c then
      ( {| db := db c; socket := socket c; listeners := listeners c;
           subscriptions := subscriptions c ++ [(handles c, (path, onData))];
           handles := S (handles c) |},
        Some (DbUnsubscribe (handles c)) )
    else
      ( initSocket c, Some (RemoveListener path onData) ).

(** Calling the function [syncData] returned.  On the datastore backend
    that is the datastore's own function for the value subscription: it
    ends that subscription; [listeners] is a variable of this module, out of
    its reach.  On the relay backend it is the closure that filters
    [listeners[path]]. *)
Definition run_unsubscribe (u : unsubscribe) (c : client) : client :=
  match u with
  | DbUnsubscribe h =>
      {| db := db c; socket := socket c; listeners := listeners c;
         subscriptions := filter (fun s => fst s <> h) (subscriptions c);
         handles := handles c |}
  | RemoveListener path onData =>
      match listeners c !! path with
      | Some cbs =>
          with_listeners (<[path := filter (fun cb => cb <> onData) cbs]> (listeners c)) c
      | None => c
      end
  end.

(** The datastore reports the value of [path]: every value subscription
    held on that path runs its [onData(snapshot.val())]. *)
Definition db_value (c : client) (path : string) (val : json) : list action :=
  map (fun s => Invoke (snd (snd s)) (Some val))
      (filter (fun s => fst (snd s) = path) (subscriptions c)).

(** [{ type: 'UPDATE', path, data }] before serialisation. *)
Definition update_message (path : string) (data : jsval) : jsval :=
  VObject [ ("type", VStr "UPDATE"); ("path", VStr path); ("data", data) ].

(** [pushData(path, data)].  [write_ok] tells whether the datastore accepts
    the write that [await set(dataRef, cleanData)] requests. *)
Definition pushData (write_ok : bool) (path : string) (data : jsval) (c : client)
  : completion * list action :=
  if db c then
    match stringify data with
    | SJson cleanData =>
        if write_ok then (Fulfilled, [ DbSet path cleanData ])
        else (Fulfilled, [ DbSet path cleanData; LogError "Sync Error:" ])
    | SUndefined | SThrows => (Fulfilled, [ LogError "Sync Error:" ])
    end
  else
    match socket c with
    | Some OPEN =>
        match stringify (update_message path data) with
        | SJson frame => (Fulfilled, [ SocketSend (Text frame) ])
        | SUndefined | SThrows => (Rejected, [])
        end
    | Some _ => (Fulfilled, [ SetTimeout (RetryUpdate path data) 1000 ])
    | None => (Fulfilled, [])
    end.

(** A timer fires. *)
Definition run_task (t : task) (c : client) : client * list action :=
  match t with
  | Reconnect => (connectSocket c, [])
  | RetryUpdate path data =>
      match socket c with
      | Some OPEN =>
          match stringify (update_message path data) with
          | SJson frame => (c, [ SocketSend (Text frame) ])
          | SUndefined | SThrows => (c, [ UncaughtError ])
          end
      | _ => (c, [])
      end
  end.

End Cloud.

(* ================================================================== *)
(** ** The match data ([types.ts])                                    *)
(* ================================================================== *)

(** The records keep the fields the modelled handlers read or write.
    [Player] also has [role], [isCaptain], [stats] and [profile], [Team]
    has [color], [logoUrl] and [coachName], [MatchFixture] has [date],
    [group], [status], [winnerId] and [resultString], and [Tournament] has
    its descriptive fields; the handlers below carry them along untouched. *)

Module Player.
Record t : Type := mk { id : string; name : string; number : Z }.
End Player.

Module Team.
Record t : Type := mk { id : string; name : string; players : list Player.t }.
End Team.

Module MatchFixture.
Record t : Type := mk { id : string; teamAId : string; teamBId : string }.
End MatchFixture.

Module Tournament.
Record t : Type := mk { id : string; teams : list Team.t; fixtures : list MatchFixture.t }.
End Tournament.

Inductive PointType : Type :=
| attack | block | ace | opponent_error | yellow_card | red_card.

Module PointLog.
Record t : Type := mk {
  teamId : string;
  playerId : option string;
  type : PointType;
  scoreSnapshot : string
}.
End PointLog.

Module MatchSet.
(** [history] is optional at run time: the handlers read it as
    [history || []]. *)
Record t : Type := mk {
  scoreA : Z;
  scoreB : Z;
  history : option (list PointLog.t);
  durationMinutes : Z
}.
End MatchSet.

Module MatchConfig.
Record t : Type := mk { maxSets : Z; pointsPerSet : Z; tieBreakPoints : Z }.
End MatchConfig.

Inductive MatchStatus : Type :=
| warmup | playing | paused | finished_set | finished.

Module RequestItem.
Inductive kind : Type := timeout | substitution.
Inductive progress : Type := pending | approved | rejected.
Record t : Type := mk { id : string; teamId : string; type : kind; status : progress }.
End RequestItem.

Inductive UserRole : Type := ADMIN | COACH_A | COACH_B | PLAYER | VIEWER | REFEREE.

Module User.
Record t : Type := mk {
  id : string;
  username : string;
  password : option string;
  role : UserRole;
  createdBy : option string;
  linkedPlayerId : option string;
  linkedTeamId : option string
}.
End User.

(** The form of a new tournament ([newTourneyData]). *)
Module NewTourneyData.
Record t : Type := mk {
  name : string;
  startDate : string;
  endDate : string;
  logoUrl : string;
  matchDays : list string
}.
End NewTourneyData.

(** *** JavaScript arrays that are written by index *)

(** A position of a JavaScript array: an element, an [undefined] (or
    [null]) element, or a hole left by a write past the end. *)
Inductive slot (A : Type) : Type :=
| Hole
| Undefined
| Item (a : A).
Arguments Hole {A}.
Arguments Undefined {A}.
Arguments Item {A} a.

(** [[...l]]: the copy has [undefined] where [l] has a hole. *)
Definition spread {A} (l : list (slot A)) : list (slot A) :=
  map (fun s => match s with Hole => Undefined | _ => s end) l.

(** [l[i]], [None] for [undefined]. *)
Definition at_index {A} (l : list (slot A)) (i : Z) : option A :=
  if i <? 0 then None
  else match l !! Z.to_nat i with
       | Some (Item a) => Some a
       | _ => None
       end.

(** [l[i] = a]: replaces in range, extends the array past its end
    (leaving holes below [i]).  A negative [i] names a property that is not
    an element: the elements stay as they are, and the property is lost at
    the next copy or serialisation of the array. *)
Definition store_index {A} (l : list (slot A)) (i : Z) (a : A) : list (slot A) :=
  if i <? 0 then l
  else if (Z.to_nat i <? length l)%nat then <[Z.to_nat i := Item a]> l
  else l ++ repeat Hole (Z.to_nat i - length l)%nat ++ [Item a].

(** [l.filter(s => p(s)).length] where [p] reads a property of [s]: holes
    are skipped, an [undefined] element makes the callback throw. *)
Fixpoint count_where {A} (p : A -> bool) (l : list (slot A)) : option Z :=
  match l with
  | [] => Some 0
  | Hole :: r => count_where p r
  | Undefined :: _ => None
  | Item a :: r =>
      match count_where p r with
      | Some n => Some (if p a then n + 1 else n)
      | None => None
      end
  end.

Module LiveMatchState.
Record t : Type := mk {
  matchId : string;
  config : MatchConfig.t;
  status : MatchStatus;
  currentSet : Z;
  sets : list (slot MatchSet.t);
  rotationA : list Player.t;
  rotationB : list Player.t;
  benchA : list Player.t;
  benchB : list Player.t;
  servingTeamId : string;
  scoreA : Z;
  scoreB : Z;
  timeoutsA : Z;
  timeoutsB : Z;
  substitutionsA : Z;
  substitutionsB : Z;
  requests : list RequestItem.t
}.

(** The members an object spread [{ ...prev, member: value }] replaces. *)
Definition with_config v m :=
  mk (matchId m) v (status m) (currentSet m) (sets m) (rotationA m) (rotationB m)
     (benchA m) (benchB m) (servingTeamId m) (scoreA m) (scoreB m) (timeoutsA m)
     (timeoutsB m) (substitutionsA m) (substitutionsB m) (requests m).
Definition with_status v m :=
  mk (matchId m) (config m) v (currentSet m) (sets m) (rotationA m) (rotationB m)
     (benchA m) (benchB m) (servingTeamId m) (scoreA m) (scoreB m) (timeoutsA m)
     (timeoutsB m) (substitutionsA m) (substitutionsB m) (requests m).
Definition with_currentSet v m :=
  mk (matchId m) (config m) (status m) v (sets m) (rotationA m) (rotationB m)
     (benchA m) (benchB m) (servingTeamId m) (scoreA m) (scoreB m) (timeoutsA m)
     (timeoutsB m) (substitutionsA m) (substitutionsB m) (requests m).
Definition with_sets v m :=
  mk (matchId m) (config m) (status m) (currentSet m) v (rotationA m) (rotationB m)
     (benchA m) (benchB m) (servingTeamId m) (scoreA m) (scoreB m) (timeoutsA m)
     (timeoutsB m) (substitutionsA m) (substitutionsB m) (requests m).
Definition with_rotationA v m :=
  mk (matchId m) (config m) (status m) (currentSet m) (sets m) v (rotationB m)
     (benchA m) (benchB m) (servingTeamId m) (scoreA m) (scoreB m) (timeoutsA m)
     (timeoutsB m) (substitutionsA m) (substitutionsB m) (requests m).
Definition with_rotationB v m :=
  mk (matchId m) (config m) (status m) (currentSet m) (sets m) (rotationA m) v
     (benchA m) (benchB m) (servingTeamId m) (scoreA m) (scoreB m) (timeoutsA m)
     (timeoutsB m) (substitutionsA m) (substitutionsB m) (requests m).
Definition with_benchA v m :=
  mk (matchId m) (config m) (status m) (currentSet m) (sets m) (rotationA m) (rotationB m)
     v (benchB m) (servingTeamId m) (scoreA m) (scoreB m) (timeoutsA m)
     (timeoutsB m) (substitutionsA m) (substitutionsB m) (requests m).
Definition with_benchB v m :=
  mk (matchId m) (config m) (status m) (currentSet m) (sets m) (rotationA m) (rotationB m)
     (benchA m) v (servingTeamId m) (scoreA m) (scoreB m) (timeoutsA m)
     (timeoutsB m) (substitutionsA m) (substitutionsB m) (requests m).
Definition with_servingTeamId v m :=
  mk (matchId m) (config m) (status m) (currentSet m) (sets m) (rotationA m) (rotationB m)
     (benchA m) (benchB m) v (scoreA m) (scoreB m) (timeoutsA m)
     (timeoutsB m) (substitutionsA m) (substitutionsB m) (requests m).
Definition with_scoreA v m :=
  mk (matchId m) (config m) (status m) (currentSet m) (sets m) (rotationA m) (rotationB m)
     (benchA m) (benchB m) (servingTeamId m) v (scoreB m) (timeoutsA m)
     (timeoutsB m) (substitutionsA m) (substitutionsB m) (requests m).
Definition with_scoreB v m :=
  mk (matchId m) (config m) (status m) (currentSet m) (sets m) (rotationA m) (rotationB m)
     (benchA m) (benchB m) (servingTeamId m) (scoreA m) v (timeoutsA m)
     (timeoutsB m) (substitutionsA m) (substitutionsB m) (requests m).
Definition with_timeoutsA v m :=
  mk (matchId m) (config m) (status m) (currentSet m) (sets m) (rotationA m) (rotationB m)
     (benchA m) (benchB m) (servingTeamId m) (scoreA m) (scoreB m) v
     (timeoutsB m) (substitutionsA m) (substitutionsB m) (requests m).
Definition with_timeoutsB v m :=
  mk (matchId m) (config m) (status m) (currentSet m) (sets m) (rotationA m) (rotationB m)
     (benchA m) (benchB m) (servingTeamId m) (scoreA m) (scoreB m) (timeoutsA m)
     v (substitutionsA m) (substitutionsB m) (requests m).
Definition with_substitutionsA v m :=
  mk (matchId m) (config m) (status m) (currentSet m) (sets m) (rotationA m) (rotationB m)
     (benchA m) (benchB m) (servingTeamId m) (scoreA m) (scoreB m) (timeoutsA m)
     (timeoutsB m) v (substitutionsB m) (requests m).
Definition with_substitutionsB v m :=
  mk (matchId m) (config m) (status m) (currentSet m) (sets m) (rotationA m) (rotationB m)
     (benchA m) (benchB m) (servingTeamId m) (scoreA m) (scoreB m) (timeoutsA m)
     (timeoutsB m) (substitutionsA m) v (requests m).
End LiveMatchState.

(** How a handler ends: it returns before any state update, it throws,
    or it hands React the next [liveMatch]. *)
Inductive outcome : Type :=
| Returns
| Throws
| Updates (next : LiveMatchState.t).

Definition emptySet : MatchSet.t := MatchSet.mk 0 0 (Some []) 0.

(** [Math.ceil(maxSets / 2)]. *)
Definition requiredWins (c : MatchConfig.t) : Z := (MatchConfig.maxSets c + 1) / 2.

Definition winsA (l : list (slot MatchSet.t)) : option Z :=
  count_where (fun s => MatchSet.scoreB s <? MatchSet.scoreA s) l.

Definition winsB (l : list (slot MatchSet.t)) : option Z :=
  count_where (fun s => MatchSet.scoreA s <? MatchSet.scoreB s) l.

(** The template literal [`${a}-${b}`]. *)
Definition scoreSnapshot (a b : Z) : string := pretty a +:+ "-" +:+ pretty b.

(* ================================================================== *)
(** ** The application shell at the repository root ([App.tsx])       *)
(* ================================================================== *)

Module App.
Import LiveMatchState.

(** *** The state slices fed by the transport *)

Definition DEFAULT_ADMIN : json :=
  JObj [ ("id", JStr "admin"); ("username", JStr "admin");
         ("password", JStr "1234"); ("role", JStr "ADMIN") ].

(** The [useState] slices that mirror the four paths. *)
Record slices : Type := Slices {
  users : list json;
  registeredTeams : list json;
  tournaments : list json;
  liveMatch : option json
}.

Definition initial_slices : slices :=
  {| users := [DEFAULT_ADMIN]; registeredTeams := []; tournaments := []; liveMatch := None |}.

Definition normalizeArray (val : option json) : list json :=
  match val with
  | None => []
  | Some v =>
      if negb (truthy v) then []
      else match v with
           | JArr l => List.filter truthy l
           | JObj fs => map snd fs
           | _ => []
           end
  end.

(** The four closures the listener effect hands to [syncData], in the
    order it creates them. *)
Definition users_cb : Cloud.callback := 0%nat.
Definition teams_cb : Cloud.callback := 1%nat.
Definition tournaments_cb : Cloud.callback := 2%nat.
Definition liveMatch_cb : Cloud.callback := 3%nat.

(** A [pushData(path, data)] call made from inside a callback. *)
Inductive publish : Type := Publish (path : string) (data : json).

Definition on_users (val : option json) (s : slices) : slices * list publish :=
  let loadedUsers := normalizeArray val in
  if (0 <? Z.of_nat (length loadedUsers))
  then ( {| users := loadedUsers; registeredTeams := registeredTeams s;
            tournaments := tournaments s; liveMatch := liveMatch s |}, [] )
  else ( {| users := [DEFAULT_ADMIN]; registeredTeams := registeredTeams s;
            tournaments := tournaments s; liveMatch := liveMatch s |},
         [ Publish "users" (JArr [DEFAULT_ADMIN]) ] ).

Definition on_teams (val : option json) (s : slices) : slices :=
  {| users := users s; registeredTeams := normalizeArray val;
     tournaments := tournaments s; liveMatch := liveMatch s |}.

Definition on_tournaments (val : option json) (s : slices) : slices :=
  {| users := users s; registeredTeams := registeredTeams s;
     tournaments := normalizeArray val; liveMatch := liveMatch s |}.

Definition on_liveMatch (val : option json) (s : slices) : slices :=
  {| users := users s; registeredTeams := registeredTeams s;
     tournaments := tournaments s; liveMatch := val |}.

(** The listener effect: [if (!isCloudConnected) return;], then the four
    subscriptions.  [isCloudConnected] is set once [initCloud] has
    succeeded. *)
Definition subscribe_all (isCloudConnected : bool) (c : Cloud.client)
  : Cloud.client * list (option Cloud.unsubscribe) :=
  if isCloudConnected then
    let '(c, unsubUsers) := Cloud.syncData "users" users_cb c in
    let '(c, unsubTeams) := Cloud.syncData "teams" teams_cb c in
    let '(c, unsubTourneys) := Cloud.syncData "tournaments" tournaments_cb c in
    let '(c, unsubLive) := Cloud.syncData "liveMatch" liveMatch_cb c in
    (c, [unsubUsers; unsubTeams; unsubTourneys; unsubLive])
  else (c, []).

(** Running one effect of the transport against the slices: only a
    callback invocation reaches the application. *)
Definition run_action (a : Cloud.action) (s : slices) : slices * list publish :=
  match a with
  | Cloud.Invoke cb val =>
      if decide (cb = users_cb) then on_users val s
      else if decide (cb = teams_cb) then (on_teams val s, [])
      else if decide (cb = tournaments_cb) then (on_tournaments val s, [])
      else if decide (cb = liveMatch_cb) then (on_liveMatch val s, [])
      else (s, [])
  | _ => (s, [])
  end.

Fixpoint run_actions (l : list Cloud.action) (s : slices) : slices * list publish :=
  match l with
  | [] => (s, [])
  | a :: r =>
      let '(s1, p1) := run_action a s in
      let '(s2, p2) := run_actions r s1 in
      (s2, p1 ++ p2)
  end.

(** A message arrives on the relay socket of a client, and the callbacks
    it runs are those of the application. *)
Definition receive (c : Cloud.client) (s : slices) (m : wire) : slices :=
  fst (run_actions (snd (Cloud.onmessage c m)) s).

(** *** The match handlers *)

(** The handlers below pass [updateLiveMatch] an updater; the state it is
    given is the [liveMatch] the handler closed over. *)

Definition find_fixture (fixtures : list MatchFixture.t) (matchId : string)
  : option MatchFixture.t :=
  List.find (fun f => bool_decide (MatchFixture.id f = matchId)) fixtures.

Definition find_team (teams : list Team.t) (teamId : string) : option Team.t :=
  List.find (fun t => bool_decide (Team.id t = teamId)) teams.

Definition in_rotation (rotation : list Player.t) (p : Player.t) : bool :=
  existsb (fun r => bool_decide (Player.id r = Player.id p)) rotation.

(** [players.findIndex(p => p.number === num)]; [num] is what [parseInt]
    gave, [None] for [NaN] (which equals no number). *)
Fixpoint findIndex_number (num : Z) (players : list Player.t) : option nat :=
  match players with
  | [] => None
  | p :: r =>
      if Player.number p =? num then Some 0%nat
      else match findIndex_number num r with
           | Some i => Some (S i)
           | None => None
           end
  end.

Definition confirmStartMatch (activeTournament : option Tournament.t)
  (showMatchConfigModal : option string) (matchConfig : MatchConfig.t) : outcome :=
  match activeTournament, showMatchConfigModal with
  | Some tournament, Some fixtureId =>
      if bool_decide (fixtureId = "") || bool_decide (fixtureId = "LIVE_EDIT") then Returns
      else
        match find_fixture (Tournament.fixtures tournament) fixtureId with
        | None => Returns
        | Some fixture =>
            match find_team (Tournament.teams tournament) (MatchFixture.teamAId fixture),
                  find_team (Tournament.teams tournament) (MatchFixture.teamBId fixture) with
            | Some teamA, Some teamB =>
                let initialSet := emptySet in
                let rotationA := take 6 (Team.players teamA) in
                let rotationB := take 6 (Team.players teamB) in
                Updates
                  {| matchId := fixtureId;
                     config := matchConfig;
                     status := warmup;
                     currentSet := 1;
                     sets := [Item initialSet];
                     rotationA := rotationA;
                     rotationB := rotationB;
                     benchA := List.filter (fun p => negb (in_rotation rotationA p))
                                 (Team.players teamA);
                     benchB := List.filter (fun p => negb (in_rotation rotationB p))
                                 (Team.players teamB);
                     servingTeamId := Team.id teamA;
                     scoreA := 0; scoreB := 0;
                     timeoutsA := 0; timeoutsB := 0;
                     substitutionsA := 0; substitutionsB := 0;
                     requests := [] |}
            | _, _ => Throws
            end
        end
  | _, _ => Returns
  end.

(** [handleSaveConfig]: with the rules editor open it replaces [config],
    otherwise it starts the match. *)
Definition handleSaveConfig (isEditingRules : bool) (activeTournament : option Tournament.t)
  (showMatchConfigModal : option string) (matchConfig : MatchConfig.t)
  (liveMatch : option t) : outcome :=
  if isEditingRules then
    match liveMatch with
    | Some prev => Updates (with_config matchConfig prev)
    | None => Returns
    end
  else confirmStartMatch activeTournament showMatchConfigModal matchConfig.

Definition handleStartGame (liveMatch : option t) : outcome :=
  match liveMatch with
  | Some prev => Updates (with_status playing prev)
  | None => Returns
  end.

Definition handleSetServe (liveMatch : option t) (teamId : string) : outcome :=
  match liveMatch with
  | Some prev => Updates (with_servingTeamId teamId prev)
  | None => Returns
  end.

Inductive SetAction : Type := START | FINISH | REOPEN.

(** [while (updatedSets.length <= setIndex) updatedSets.push({...})]. *)
Definition pad_sets (l : list (slot MatchSet.t)) (setIndex : Z) : list (slot MatchSet.t) :=
  l ++ repeat (Item emptySet) (Z.to_nat (setIndex + 1 - Z.of_nat (length l))).

(** The serving side of a set: team A on odd sets, team B on even ones. *)
Definition server_of_set (fixture : MatchFixture.t) (setNum : Z) : string :=
  if Z.odd setNum then MatchFixture.teamAId fixture else MatchFixture.teamBId fixture.

Definition handleSetOperation (activeTournament : option Tournament.t)
  (liveMatch : option t) (action : SetAction) (setIndex : Z) : outcome :=
  match activeTournament, liveMatch with
  | Some tournament, Some prev =>
      let updatedSets := pad_sets (spread (sets prev)) setIndex in
      let fixture := find_fixture (Tournament.fixtures tournament) (matchId prev) in
      match action with
      | START =>
          match at_index updatedSets setIndex with
          | None => Throws
          | Some s =>
              let updatedServingTeam :=
                match fixture with
                | Some f => server_of_set f (setIndex + 1)
                | None => servingTeamId prev
                end in
              Updates
                (with_substitutionsB 0 (with_substitutionsA 0
                (with_timeoutsB 0 (with_timeoutsA 0
                (with_servingTeamId updatedServingTeam
                (with_sets updatedSets
                (with_scoreB (MatchSet.scoreB s) (with_scoreA (MatchSet.scoreA s)
                (with_currentSet (setIndex + 1)
                (with_status playing prev))))))))))
          end
      | FINISH =>
          match winsA updatedSets, winsB updatedSets with
          | Some wA, Some wB =>
              if (requiredWins (config prev) <=? wA) || (requiredWins (config prev) <=? wB)
              then Updates (with_sets updatedSets (with_status finished prev))
              else if currentSet prev =? setIndex + 1 then
                let nextSetNum := currentSet prev + 1 in
                let updatedSets :=
                  if Z.of_nat (length updatedSets) <? nextSetNum
                  then updatedSets ++ [Item emptySet] else updatedSets in
                let nextServingTeam :=
                  match fixture with
                  | Some f => server_of_set f nextSetNum
                  | None => servingTeamId prev
                  end in
                Updates
                  (with_substitutionsB 0 (with_substitutionsA 0
                  (with_timeoutsB 0 (with_timeoutsA 0
                  (with_servingTeamId nextServingTeam
                  (with_sets updatedSets
                  (with_scoreB 0 (with_scoreA 0
                  (with_currentSet nextSetNum
                  (with_status playing prev))))))))))
              else Updates (with_sets updatedSets prev)
          | _, _ => Throws
          end
      | REOPEN =>
          match at_index updatedSets setIndex with
          | None => Throws
          | Some s =>
              Updates
                (with_sets updatedSets
                (with_scoreB (MatchSet.scoreB s) (with_scoreA (MatchSet.scoreA s)
                (with_currentSet (setIndex + 1)
                (with_status paused prev)))))
          end
      end
  | _, _ => Returns
  end.

Definition handleStartNextSet (activeTournament : option Tournament.t)
  (liveMatch : option t) : outcome :=
  match liveMatch with
  | None => Returns
  | Some m => handleSetOperation activeTournament liveMatch FINISH (currentSet m - 1)
  end.

Definition rotateTeam (players : list Player.t) : list Player.t :=
  match players with
  | [] => []
  | first :: newRotation => newRotation ++ [first]
  end.

(** The point goes to side A (resp. B): score it, and on a side-out
    rotate that side and hand it the serve. *)
Definition point_for_A (teamAId : string) (prev : t) : t :=
  let m := with_scoreA (scoreA prev + 1) prev in
  if bool_decide (servingTeamId prev <> teamAId)
  then with_servingTeamId teamAId (with_rotationA (rotateTeam (rotationA prev)) m)
  else m.

Definition point_for_B (teamBId : string) (prev : t) : t :=
  let m := with_scoreB (scoreB prev + 1) prev in
  if bool_decide (servingTeamId prev <> teamBId)
  then with_servingTeamId teamBId (with_rotationB (rotateTeam (rotationB prev)) m)
  else m.

Definition pointsToWin (m : t) : Z :=
  if currentSet m =? MatchConfig.maxSets (config m)
  then MatchConfig.tieBreakPoints (config m)
  else MatchConfig.pointsPerSet (config m).

Definition setFinished (m : t) (newScoreA newScoreB : Z) : bool :=
  ((pointsToWin m <=? newScoreA) || (pointsToWin m <=? newScoreB))
  && (2 <=? Z.abs (newScoreA - newScoreB)).

Definition handlePoint (activeTournament : option Tournament.t) (liveMatch : option t)
  (teamId : string) (type : PointType) (playerId : option string) : outcome :=
  match liveMatch, activeTournament with
  | Some prev, Some tournament =>
      match find_fixture (Tournament.fixtures tournament) (matchId prev) with
      | None => Throws
      | Some fixture =>
          let teamAId := MatchFixture.teamAId fixture in
          let isTeamAScoring := bool_decide (teamId = teamAId) in
          match status prev with
          | finished => Updates prev
          | _ =>
              let newStatus :=
                match status prev with
                | warmup | paused => playing
                | s => s
                end in
              let scored :=
                match type with
                | yellow_card => prev
                | red_card =>
                    if bool_decide (teamId = teamAId)
                    then point_for_B (MatchFixture.teamBId fixture) prev
                    else point_for_A teamAId prev
                | _ =>
                    if isTeamAScoring
                    then point_for_A teamAId prev
                    else point_for_B (MatchFixture.teamBId fixture) prev
                end in
              let pointAwarded :=
                match type with yellow_card => false | _ => true end in
              let newScoreA := scoreA scored in
              let newScoreB := scoreB scored in
              let finishedSets := spread (sets prev) in
              let setIndex := currentSet prev - 1 in
              let currentSetData := default emptySet (at_index finishedSets setIndex) in
              let currentHistory := default [] (MatchSet.history currentSetData) in
              let finishedSets :=
                store_index finishedSets setIndex
                  {| MatchSet.scoreA := newScoreA;
                     MatchSet.scoreB := newScoreB;
                     MatchSet.history :=
                       Some (currentHistory ++
                             [ PointLog.mk teamId playerId type
                                 (scoreSnapshot newScoreA newScoreB) ]);
                     MatchSet.durationMinutes := MatchSet.durationMinutes currentSetData |} in
              if setFinished prev newScoreA newScoreB && pointAwarded then
                match winsA finishedSets, winsB finishedSets with
                | Some wA, Some wB =>
                    if (wA =? requiredWins (config prev)) || (wB =? requiredWins (config prev))
                    then Updates (with_sets finishedSets (with_status finished scored))
                    else Updates (with_sets finishedSets (with_status finished_set scored))
                | _, _ => Throws
                end
              else Updates (with_sets finishedSets (with_status newStatus scored))
          end
      end
  | _, _ => Returns
  end.

Definition handleSubtractPoint (activeTournament : option Tournament.t) (isAdmin : bool)
  (liveMatch : option t) (teamId : string) : outcome :=
  match liveMatch, activeTournament, isAdmin with
  | Some prev, Some tournament, true =>
      match find_fixture (Tournament.fixtures tournament) (matchId prev) with
      | None => Throws
      | Some fixture =>
          let isTeamA := bool_decide (teamId = MatchFixture.teamAId fixture) in
          let decremented : option (Z * Z) :=
            if isTeamA && (0 <? scoreA prev) then Some (scoreA prev - 1, scoreB prev)
            else if negb isTeamA && (0 <? scoreB prev) then Some (scoreA prev, scoreB prev - 1)
            else None in
          match decremented with
          | None => Updates prev
          | Some (newScoreA, newScoreB) =>
              let finishedSets := spread (sets prev) in
              let setIndex := currentSet prev - 1 in
              let currentSetData := default emptySet (at_index finishedSets setIndex) in
              let currentHistory := removelast (default [] (MatchSet.history currentSetData)) in
              let finishedSets :=
                store_index finishedSets setIndex
                  {| MatchSet.scoreA := newScoreA;
                     MatchSet.scoreB := newScoreB;
                     MatchSet.history := Some currentHistory;
                     MatchSet.durationMinutes := MatchSet.durationMinutes currentSetData |} in
              Updates
                (with_sets finishedSets
                (with_scoreB newScoreB (with_scoreA newScoreA
                (with_status playing prev))))
          end
      end
  | _, _, _ => Returns
  end.

(** [handleRequestTimeout]; [now] is [Date.now().toString()]. *)
Definition handleRequestTimeout (activeTournament : option Tournament.t) (isAdmin : bool)
  (now : string) (liveMatch : option t) (teamId : string) : outcome :=
  match liveMatch with
  | None => Returns
  | Some prev =>
      if isAdmin then
        let isTeamA :=
          match activeTournament with
          | Some tournament =>
              match find_fixture (Tournament.fixtures tournament) (matchId prev) with
              | Some fixture => bool_decide (teamId = MatchFixture.teamAId fixture)
              | None => false
              end
          | None => false
          end in
        Updates
          (with_timeoutsB (if negb isTeamA then timeoutsB prev + 1 else timeoutsB prev)
          (with_timeoutsA (if isTeamA then timeoutsA prev + 1 else timeoutsA prev) prev))
      else
        let newReq :=
          RequestItem.mk now teamId RequestItem.timeout RequestItem.pending in
        Updates
          (mk (matchId prev) (config prev) (status prev) (currentSet prev) (sets prev)
              (rotationA prev) (rotationB prev) (benchA prev) (benchB prev)
              (servingTeamId prev) (scoreA prev) (scoreB prev) (timeoutsA prev)
              (timeoutsB prev) (substitutionsA prev) (substitutionsB prev)
              (requests prev ++ [newReq]))
  end.

(** [handleConfirmSub]; [outNum] and [inNum] are what [parseInt] made of
    the two inputs ([None] for [NaN]). *)
Definition handleConfirmSub (activeTournament : option Tournament.t) (liveMatch : option t)
  (showSubModal : option string) (outNum inNum : option Z) : outcome :=
  match liveMatch, showSubModal, activeTournament with
  | Some prev, Some teamId, Some tournament =>
      let isTeamA :=
        match find_fixture (Tournament.fixtures tournament) (matchId prev) with
        | Some fixture => bool_decide (teamId = MatchFixture.teamAId fixture)
        | None => false
        end in
      match outNum, inNum with
      | Some outNum, Some inNum =>
          let currentRotation := if isTeamA then rotationA prev else rotationB prev in
          let currentBench := if isTeamA then benchA prev else benchB prev in
          match findIndex_number outNum currentRotation,
                findIndex_number inNum currentBench with
          | Some playerOutIndex, Some playerInIndex =>
              match currentRotation !! playerOutIndex, currentBench !! playerInIndex with
              | Some playerOut, Some playerIn =>
                  let newRotation := <[playerOutIndex := playerIn]> currentRotation in
                  let newBench := <[playerInIndex := playerOut]> currentBench in
                  if isTeamA then
                    Updates (with_substitutionsA (substitutionsA prev + 1)
                            (with_benchA newBench (with_rotationA newRotation prev)))
                  else
                    Updates (with_substitutionsB (substitutionsB prev + 1)
                            (with_benchB newBench (with_rotationB newRotation prev)))
              | _, _ => Updates prev
              end
          | _, _ => Updates prev
          end
      | _, _ => Returns
      end
  | _, _, _ => Returns
  end.

(** The loop over [rotationInput]: each entry that [parseInt] reads as the
    number of a team player adds that player. *)
Fixpoint collect_rotation (players : list Player.t) (rotationInput : list (option Z))
  : list Player.t :=
  match rotationInput with
  | [] => []
  | num :: r =>
      match num with
      | Some n =>
          match List.find (fun pl => Player.number pl =? n) players with
          | Some p => p :: collect_rotation players r
          | None => collect_rotation players r
          end
      | None => collect_rotation players r
      end
  end.

Definition handleUpdateRotation (activeTournament : option Tournament.t)
  (liveMatch : option t) (showRotationModal : option string)
  (rotationInput : list (option Z)) : outcome :=
  match liveMatch, showRotationModal, activeTournament with
  | Some prev, Some teamId, Some tournament =>
      let isTeamA :=
        match find_fixture (Tournament.fixtures tournament) (matchId prev) with
        | Some fixture => bool_decide (teamId = MatchFixture.teamAId fixture)
        | None => false
        end in
      match find_team (Tournament.teams tournament) teamId with
      | None => Returns
      | Some team =>
          let newRotation := collect_rotation (Team.players team) rotationInput in
          if negb (Z.of_nat (length newRotation) =? 6) then Returns
          else
            let newBench :=
              List.filter (fun p => negb (in_rotation newRotation p)) (Team.players team) in
            if isTeamA
            then Updates (with_benchA newBench (with_rotationA newRotation prev))
            else Updates (with_benchB newBench (with_rotationB newRotation prev))
      end
  | _, _, _ => Returns
  end.

(** *** Users and the tournament form *)

(** [updateUsers]: the new list is the [users] state and, when the cloud
    is connected, it is pushed under ["users"]. *)
Definition updateUsers (isCloudConnected : bool) (newUsers : list User.t)
  : list User.t * list (string * list User.t) :=
  (newUsers, if isCloudConnected then [("users", newUsers)] else []).

Definition handleAddUser (isCloudConnected : bool) (users : list User.t) (user : User.t)
  : list User.t * list (string * list User.t) :=
  updateUsers isCloudConnected (users ++ [user]).

Definition handleDeleteUser (isCloudConnected : bool) (users : list User.t)
  (userId : string) : list User.t * list (string * list User.t) :=
  updateUsers isCloudConnected
    (List.filter (fun u => negb (bool_decide (User.id u = userId))) users).

Definition handleUpdateUser (isCloudConnected : bool) (users : list User.t)
  (updatedUser : User.t) : list User.t * list (string * list User.t) :=
  updateUsers isCloudConnected
    (map (fun u => if bool_decide (User.id u = User.id updatedUser) then updatedUser else u)
         users).

(** [toggleDaySelection]: the updater handed to [setNewTourneyData]. *)
Definition toggleDaySelection (day : string) (prev : NewTourneyData.t) : NewTourneyData.t :=
  let exists_ := bool_decide (day ∈ NewTourneyData.matchDays prev) in
  {| NewTourneyData.name := NewTourneyData.name prev;
     NewTourneyData.startDate := NewTourneyData.startDate prev;
     NewTourneyData.endDate := NewTourneyData.endDate prev;
     NewTourneyData.logoUrl := NewTourneyData.logoUrl prev;
     NewTourneyData.matchDays :=
       if exists_
       then List.filter (fun d => negb (bool_decide (d = day))) (NewTourneyData.matchDays prev)
       else NewTourneyData.matchDays prev ++ [day] |}.

End App.

(* ================================================================== *)
(** ** The application shell under [src/] ([src/App.tsx])             *)
(* ================================================================== *)

Module SrcApp.
Import LiveMatchState.

Definition INITIAL_USERS : json :=
  JArr [ JObj [ ("id", JStr "admin"); ("username", JStr "admin");
                ("password", JStr "123"); ("role", JStr "ADMIN") ];
         JObj [ ("id", JStr "tv"); ("username", JStr "tv");
                ("password", JStr "123"); ("role", JStr "VIEWER") ] ].

(** The [users] callback: [if (data) setUsers(data); else
    setUsers(INITIAL_USERS)].  This shell is built against
    [src/services/cloud.ts], which talks to the datastore only. *)
Definition on_users (data : option json) : json :=
  match data with
  | Some d => if truthy d then d else INITIAL_USERS
  | None => INITIAL_USERS
  end.

Definition find_team (teams : list Team.t) (teamId : string) : option Team.t :=
  List.find (fun t => bool_decide (Team.id t = teamId)) teams.

(** [getRotation]. *)
Definition getRotation (team : Team.t) : list Player.t :=
  let rotation := take 6 (Team.players team) in
  rotation.

Definition startMatch (teams : list Team.t) (fixture : MatchFixture.t) : outcome :=
  match find_team teams (MatchFixture.teamAId fixture),
        find_team teams (MatchFixture.teamBId fixture) with
  | Some teamA, Some teamB =>
      Updates
        {| matchId := MatchFixture.id fixture;
           config := MatchConfig.mk 5 25 15;
           status := warmup;
           currentSet := 1;
           sets := [Item emptySet];
           rotationA := getRotation teamA;
           rotationB := getRotation teamB;
           benchA := drop 6 (Team.players teamA);
           benchB := drop 6 (Team.players teamB);
           servingTeamId := Team.id teamA;
           scoreA := 0; scoreB := 0;
           timeoutsA := 0; timeoutsB := 0;
           substitutionsA := 0; substitutionsB := 0;
           requests := [] |}
  | _, _ => Returns
  end.

(** [teams.find(t => t.players.some(p => rotation.some(r => r.id === p.id)))?.id]. *)
Definition team_of_rotation (teams : list Team.t) (rotation : list Player.t)
  : option string :=
  Team.id <$>
    List.find (fun t => existsb (fun p => existsb (fun r =>
                 bool_decide (Player.id r = Player.id p)) rotation) (Team.players t)) teams.

(** [teams.find(t => t.players.some(p => p.id === playerId))?.id]. *)
Definition team_of_player (teams : list Team.t) (playerId : string) : option string :=
  Team.id <$>
    List.find (fun t => existsb (fun p => bool_decide (Player.id p = playerId))
                 (Team.players t)) teams.

(** Truthiness of a [string | null | undefined]. *)
Definition nonempty (s : option string) : bool :=
  match s with
  | Some s => negb (bool_decide (s = ""))
  | None => false
  end.

(** [const p = rotation.pop(); if (p) rotation.unshift(p)]. *)
Definition rotate_back (rotation : list Player.t) : list Player.t :=
  match last rotation with
  | Some p => p :: removelast rotation
  | None => rotation
  end.

Definition handlePoint (teams : list Team.t) (liveMatch : option t)
  (teamId : string) (type : PointType) (playerId : option string) : outcome :=
  match liveMatch with
  | None => Returns
  | Some liveMatch =>
      match status liveMatch with
      | finished | finished_set => Returns
      | _ =>
          let isTeamA :=
            bool_decide (Some teamId = team_of_rotation teams (rotationA liveMatch)) in
          let isRedCard := match type with red_card => true | _ => false end in
          let isYellowCard := match type with yellow_card => true | _ => false end in
          let pointForTeamId : option string :=
            if isYellowCard then None
            else if isRedCard then
              if isTeamA
              then Player.id <$> head (rotationB liveMatch)
              else Player.id <$> head (rotationA liveMatch)
            else Some teamId in
          let isSideA := isTeamA in
          let '(nextScoreA, nextScoreB) :=
            if nonempty pointForTeamId then
              if isSideA && bool_decide (pointForTeamId = Some teamId)
              then (scoreA liveMatch + 1, scoreB liveMatch)
              else if negb isSideA && bool_decide (pointForTeamId = Some teamId)
              then (scoreA liveMatch, scoreB liveMatch + 1)
              else if isRedCard then
                if isSideA then (scoreA liveMatch, scoreB liveMatch + 1)
                else (scoreA liveMatch + 1, scoreB liveMatch)
              else (scoreA liveMatch, scoreB liveMatch)
            else (scoreA liveMatch, scoreB liveMatch) in
          let pointWinnerIsA :=
            (bool_decide (pointForTeamId = Some teamId) && isSideA)
            || (isRedCard && negb isSideA) in
          let pointWinnerTeamId : option string :=
            if pointWinnerIsA
            then match head (rotationA liveMatch) with
                 | Some r => team_of_player teams (Player.id r)
                 | None => None
                 end
            else match head (rotationB liveMatch) with
                 | Some r => team_of_player teams (Player.id r)
                 | None => None
                 end in
          let newHistoryItem :=
            PointLog.mk teamId playerId type (scoreSnapshot nextScoreA nextScoreB) in
          let sideOut :=
            nonempty pointForTeamId
            && bool_decide (Some (servingTeamId liveMatch) <> pointWinnerTeamId) in
          let nextServingTeam :=
            if sideOut
            then (if nonempty pointWinnerTeamId
                  then default (servingTeamId liveMatch) pointWinnerTeamId
                  else servingTeamId liveMatch)
            else servingTeamId liveMatch in
          let nextRotationA :=
            if sideOut && pointWinnerIsA
            then rotate_back (rotationA liveMatch) else rotationA liveMatch in
          let nextRotationB :=
            if sideOut && negb pointWinnerIsA
            then rotate_back (rotationB liveMatch) else rotationB liveMatch in
          let limit :=
            if currentSet liveMatch =? MatchConfig.maxSets (config liveMatch)
            then MatchConfig.tieBreakPoints (config liveMatch)
            else MatchConfig.pointsPerSet (config liveMatch) in
          let lead := Z.abs (nextScoreA - nextScoreB) in
          let setWon := ((limit <=? nextScoreA) || (limit <=? nextScoreB)) && (2 <=? lead) in
          let newSets := spread (sets liveMatch) in
          match at_index newSets (currentSet liveMatch - 1) with
          | None => Throws
          | Some current =>
              let newSets :=
                store_index newSets (currentSet liveMatch - 1)
                  {| MatchSet.scoreA := nextScoreA;
                     MatchSet.scoreB := nextScoreB;
                     MatchSet.history :=
                       Some (default [] (MatchSet.history current) ++ [newHistoryItem]);
                     MatchSet.durationMinutes := MatchSet.durationMinutes current |} in
              Updates
                (with_status (if setWon then finished_set else playing)
                (with_rotationB nextRotationB (with_rotationA nextRotationA
                (with_servingTeamId nextServingTeam
                (with_sets newSets
                (with_scoreB nextScoreB (with_scoreA nextScoreA liveMatch)))))))
          end
      end
  end.

Definition handleNextSet (liveMatch : option t) : outcome :=
  match liveMatch with
  | None => Returns
  | Some liveMatch =>
      match winsA (sets liveMatch), winsB (sets liveMatch) with
      | Some wA, Some wB =>
          let requiredWins := requiredWins (config liveMatch) in
          if (wA =? requiredWins) || (wB =? requiredWins)
          then Updates (with_status finished liveMatch)
          else
            let nextSet := currentSet liveMatch + 1 in
            Updates
              (with_status playing
              (with_sets (spread (sets liveMatch) ++ [Item emptySet])
              (with_substitutionsB 0 (with_substitutionsA 0
              (with_timeoutsB 0 (with_timeoutsA 0
              (with_scoreB 0 (with_scoreA 0
              (with_currentSet nextSet liveMatch)))))))))
      | _, _ => Throws
      end
  end.

Definition handleTimeout (liveMatch : option t) : outcome :=
  match liveMatch with
  | None => Returns
  | Some liveMatch => Updates liveMatch
  end.

End SrcApp.

(* ================================================================== *)
(** ** The basic fixture ([services/geminiService.ts])                *)
(* ================================================================== *)

Module GeminiService.

(** A generated fixture; [date] is [None] where the code would store
    [undefined]. *)
Record fixture : Type := Fixture {
  date : option string;
  teamAId : string;
  teamBId : string;
  group : string
}.

(** The pairs [(groupTeams[i], groupTeams[j])] with [i < j], in the order
    in which the two nested loops of [generateGroupFixtures] visit them. *)
Fixpoint pairings (groupTeams : list Team.t) : list (Team.t * Team.t) :=
  match groupTeams with
  | [] => []
  | ti :: later => map (fun tj => (ti, tj)) later ++ pairings later
  end.

(** [generateGroupFixtures]: one fixture per pair; [dateIndex] counts the
    fixtures of the group and picks [dates[dateIndex % dates.length]]. *)
Definition generateGroupFixtures (dates : list string) (groupTeams : list Team.t)
  (groupName : string) : list fixture :=
  imap (fun dateIndex pair =>
          {| date := dates !! (dateIndex mod length dates)%nat;
             teamAId := Team.id (fst pair);
             teamBId := Team.id (snd pair);
             group := groupName |})
       (pairings groupTeams).

(** [generateBasicFixture] from the point where its [while] loop over the
    calendar has run: [loop_dates] is what the loop pushed onto [dates] (the
    days from [startDate] to [endDate] that fall on an allowed weekday).
    The result is [groups], in the order its keys were set, and [fixtures]. *)
Definition generateBasicFixture (loop_dates : list string) (teams : list Team.t)
  (startDate : string) : list (string * list string) * list fixture :=
  let dates :=
    if (length loop_dates =? 0)%nat then loop_dates ++ [startDate] else loop_dates in
  if (8 <? length teams)%nat then
    let half := ((length teams + 1) / 2)%nat in
    let groupA := take half teams in
    let groupB := drop half teams in
    ([ ("Grupo A", map Team.id groupA); ("Grupo B", map Team.id groupB) ],
     generateGroupFixtures dates groupA "Grupo A"
     ++ generateGroupFixtures dates groupB "Grupo B")
  else
    ([ ("Grupo Único", map Team.id teams) ],
     generateGroupFixtures dates teams "Grupo Único").

End GeminiService.

(* ================================================================== *)
(** ** The statistics of the TV overlay ([components/TVOverlay.tsx])  *)
(* ================================================================== *)

Module TVOverlay.

(** [h.type === type]. *)
Definition same_type (a b : PointType) : bool :=
  match a, b with
  | attack, attack | block, block | ace, ace
  | opponent_error, opponent_error
  | yellow_card, yellow_card | red_card, red_card => true
  | _, _ => false
  end.

(** [setsToCount]: the one set [match.statsSetIndex] names, when that is
    defined and names a set, and every set otherwise.  [statsSetIndex] is
    [None] for [undefined]. *)
Definition setsToCount (sets : list (slot MatchSet.t)) (statsSetIndex : option Z)
  : list (slot MatchSet.t) :=
  match statsSetIndex with
  | Some i =>
      match at_index sets i with
      | Some s => [Item s]
      | None => sets
      end
  | None => sets
  end.

(** [setsToCount.forEach(set => { total += (set.history || [])
    .filter(p).length })]: [forEach] skips holes, and reading [history] off
    an [undefined] element throws ([None]). *)
Fixpoint forEach_total (p : PointLog.t -> bool) (l : list (slot MatchSet.t)) (total : Z)
  : option Z :=
  match l with
  | [] => Some total
  | Hole :: r => forEach_total p r total
  | Undefined :: _ => None
  | Item s :: r =>
      forEach_total p r
        (total + Z.of_nat (length (List.filter p (default [] (MatchSet.history s)))))
  end.

Definition calculateTeamTotal (sets : list (slot MatchSet.t)) (statsSetIndex : option Z)
  (teamId : string) (type : PointType) : option Z :=
  forEach_total
    (fun h => bool_decide (PointLog.teamId h = teamId) && same_type (PointLog.type h) type)
    (setsToCount sets statsSetIndex) 0.

Definition calculateTeamErrors (sets : list (slot MatchSet.t)) (statsSetIndex : option Z)
  (teamId : string) : option Z :=
  forEach_total
    (fun h => negb (bool_decide (PointLog.teamId h = teamId))
              && same_type (PointLog.type h) opponent_error)
    (setsToCount sets statsSetIndex) 0.

End TVOverlay.

(* ================================================================== *)
(** ** Schedules and predicates used by the properties                *)
(* ================================================================== *)

(** An outage of the relay seen from one client: [n] times in a row the
    socket closes and the reconnect timer fires. *)
Fixpoint outage (n : nat) (c : Cloud.client) : Cloud.client * list Cloud.action :=
  match n with
  | O => (c, [])
  | S n =>
      let '(c1, a1) := Cloud.onclose c in
      let '(c2, a2) := Cloud.run_task Cloud.Reconnect c1 in
      let '(c3, a3) := outage n c2 in
      (c3, a1 ++ a2 ++ a3)
  end.

Definition is_timer (a : Cloud.action) : bool :=
  match a with
  | Cloud.SetTimeout _ _ => true
  | _ => false
  end.

(** The value the relay snapshot carries for a path. *)
Definition remote_value (st : Relay.store) (path : string) : option json :=
  assoc path (members (Relay.own st)).

(** The relay has nothing, or nothing but an empty list, under a path. *)
Definition absent_or_empty (v : option json) : Prop :=
  v = None \/ v = Some JNull \/ v = Some (JArr []).

(** A client of the transport module that has no datastore configured
    and has subscribed one callback to each of four paths: the first
    [syncData] opened the relay socket.  (The root application subscribes
    only once a datastore is configured; this is the module as any page may
    use it.) *)
Definition relay_client : Cloud.client :=
  fst (Cloud.syncData "liveMatch" 3%nat
         (fst (Cloud.syncData "tournaments" 2%nat
                 (fst (Cloud.syncData "teams" 1%nat
                         (fst (Cloud.syncData "users" 0%nat Cloud.initial))))))).

(** The callbacks registered under a path ([[]] when the key is missing). *)
Definition listeners_at (c : Cloud.client) (path : string) : list Cloud.callback :=
  default [] (Cloud.listeners c !! path).

(** The connections an UPDATE received from [ws] is forwarded to. *)
Definition other_open (ws : nat) (c : Relay.client) : bool :=
  bool_decide (Relay.conn c <> ws) && bool_decide (Relay.readyState c = OPEN).

(** What the relay does with an [UPDATE] frame [parsed], whose path is the
    string [path], received from the connection [ws]: [frame] goes once to
    each other open connection and to nobody else; and the value is stored
    as the own property [path] of the state, except where the write runs
    the setter of [__proto__], which stores nothing and makes the value,
    when it is [null], an object or an array, the prototype of the
    state. *)
Definition relay_update_step (srv : Relay.server) (ws : nat) (parsed : json)
  (path : string) (frame : json) : Prop :=
  let srv' := fst (Relay.on_message srv ws (Text parsed)) in
  let sent := snd (Relay.on_message srv ws (Text parsed)) in
  sent = map (fun c => Relay.Send (Relay.conn c) (Text frame))
             (List.filter (other_open ws) (Relay.clients srv))
  /\ (forall c, In c (Relay.clients srv) -> Relay.conn c <> ws ->
        Relay.readyState c = OPEN -> In (Relay.Send (Relay.conn c) (Text frame)) sent)
  /\ (forall m, ~ In (Relay.Send ws m) sent)
  /\ (forall a, In a sent ->
        exists c, In c (Relay.clients srv) /\ Relay.readyState c = OPEN
                  /\ a = Relay.Send (Relay.conn c) (Text frame))
  /\ Relay.clients srv' = Relay.clients srv
  /\ (forall other, other <> path ->
        Relay.read (Relay.state srv') other = Relay.read (Relay.state srv) other)
  /\ (if bool_decide (path = "__proto__") && Relay.proto_setter_reached (Relay.state srv)
      then Relay.own (Relay.state srv') = Relay.own (Relay.state srv)
           /\ Relay.read (Relay.state srv') path = None
           /\ Relay.proto (Relay.state srv')
              = match field "data" parsed with
                | Some JNull => Some JNull
                | Some (JObj fs) => Some (JObj fs)
                | Some (JArr l) => Some (JArr l)
                | _ => Relay.proto (Relay.state srv)
                end
      else Relay.read (Relay.state srv') path = Some (field "data" parsed)
           /\ Relay.proto (Relay.state srv') = Relay.proto (Relay.state srv)).

(** The INIT frame for the state [st] goes to [ws] and to nobody else:
    type INIT, and as data an object that has, with its value, every own
    property of the state that holds one, and nothing besides. *)
Definition sends_snapshot (st : Relay.store) (ws : nat) (sent : list Relay.action) : Prop :=
  exists kvs,
    sent = [ Relay.Send ws (Text (JObj [ ("type", JStr "INIT"); ("data", JObj kvs) ])) ]
    /\ (forall path v, In (path, v) kvs <-> In (path, Some v) (Relay.own st))
    /\ (forall path, assoc path kvs = remote_value st path).

(** What the relay does with a [SYNC_REQUEST] frame received from [ws]. *)
Definition relay_sync_step (srv : Relay.server) (ws : nat) (parsed : json) : Prop :=
  fst (Relay.on_message srv ws (Text parsed)) = srv
  /\ sends_snapshot (Relay.state srv) ws (snd (Relay.on_message srv ws (Text parsed))).

(** A message that is not JSON leaves the relay and the client as they
    were: one logged error, nothing sent, no callback run. *)
Definition relay_ignores (srv : Relay.server) (ws : nat) (m : wire) : Prop :=
  Relay.on_message srv ws m = (srv, [ Relay.LogError "Error processing message" ]).

Definition client_ignores (c : Cloud.client) (m : wire) : Prop :=
  Cloud.onmessage c m = (c, [ Cloud.LogError "Error parsing WebSocket message" ]).

(** The listener lists the listener effect of the root application
    leaves on a client that had none: its four callbacks, each under its
    path. *)
Definition four_subscriptions (c : Cloud.client) : Prop :=
  Cloud.listeners c
  = <["liveMatch" := [App.liveMatch_cb]]>
      (<["tournaments" := [App.tournaments_cb]]>
         (<["teams" := [App.teams_cb]]>
            (<["users" := [App.users_cb]]> ∅))).

(** What the callback subscribed under [k] by the root application does
    to the slices when it is given [x]; no callback for any other key. *)
Definition apply_key (k : string) (x : option json) (s : App.slices) : App.slices :=
  if decide (k = "users") then fst (App.on_users x s)
  else if decide (k = "teams") then App.on_teams x s
  else if decide (k = "tournaments") then App.on_tournaments x s
  else if decide (k = "liveMatch") then App.on_liveMatch x s
  else s.

(** The slices after the callbacks of a list of keys ran, each key with
    the value [g] gives it. *)
Fixpoint after_keys (g : string -> json) (ks : list string) (s : App.slices)
  : App.slices :=
  match ks with
  | [] => s
  | k :: r => after_keys g r (apply_key k (Some (g k)) s)
  end.

(** Calling what [syncData] returned, when it returned a function. *)
Definition unsubscribed (r : Cloud.client * option Cloud.unsubscribe) : Cloud.client :=
  match snd r with
  | Some u => Cloud.run_unsubscribe u (fst r)
  | None => fst r
  end.

(** Every subscription the datastore holds was given a handle below the
    next one to be handed out. *)
Definition handles_fresh (c : Cloud.client) : Prop :=
  Forall (fun s => (fst s < Cloud.handles c)%nat) (Cloud.subscriptions c).

(** What [pushData] does with a frame that serialises to [frame], on the
    relay backend. *)
Definition relay_publish (write_ok : bool) (c : Cloud.client) (path : string)
  (data : jsval) (frame : json) : Prop :=
  (In (Cloud.SocketSend (Text frame)) (snd (Cloud.pushData write_ok path data c))
   <-> Cloud.socket c = Some OPEN)
  /\ (Cloud.socket c = Some OPEN ->
      Cloud.pushData write_ok path data c = (Cloud.Fulfilled, [ Cloud.SocketSend (Text frame) ]))
  /\ (forall s, Cloud.socket c = Some s -> s <> OPEN ->
      Cloud.pushData write_ok path data c
      = (Cloud.Fulfilled, [ Cloud.SetTimeout (Cloud.RetryUpdate path data) 1000 ]))
  /\ (Cloud.socket c = None -> Cloud.pushData write_ok path data c = (Cloud.Fulfilled, []))
  /\ (forall c', fst (Cloud.run_task (Cloud.RetryUpdate path data) c') = c'
                 /\ snd (Cloud.run_task (Cloud.RetryUpdate path data) c')
                    = if bool_decide (Cloud.socket c' = Some OPEN)
                      then [ Cloud.SocketSend (Text frame) ] else []).

(* ------------------------------------------------------------------ *)
(** *** Live-match states and the steps between them                   *)
(* ------------------------------------------------------------------ *)

Definition is_item {A} (s : slot A) : Prop :=
  match s with
  | Item _ => True
  | _ => False
  end.

(** The entry [sets[currentSet - 1]] exists and shows the scores of the
    match state. *)
Definition scoreboard_matches (m : LiveMatchState.t) : Prop :=
  exists s, at_index (LiveMatchState.sets m) (LiveMatchState.currentSet m - 1) = Some s
            /\ MatchSet.scoreA s = LiveMatchState.scoreA m
            /\ MatchSet.scoreB s = LiveMatchState.scoreB m.

(** The current set is the last entry of [sets], which has no gap. *)
Definition current_is_last (m : LiveMatchState.t) : Prop :=
  1 <= LiveMatchState.currentSet m
  /\ Z.of_nat (length (LiveMatchState.sets m)) = LiveMatchState.currentSet m
  /\ Forall is_item (LiveMatchState.sets m).

Definition scoreboard_inv (m : LiveMatchState.t) : Prop :=
  current_is_last m /\ scoreboard_matches m.

(** From [m] to [m'] the list of sets either keeps its length, its
    current index and every entry but the current one, or gains one entry
    at its end, which is the new current index. *)
Definition grows_by_append (m m' : LiveMatchState.t) : Prop :=
  (length (LiveMatchState.sets m') = length (LiveMatchState.sets m)
   /\ LiveMatchState.currentSet m' = LiveMatchState.currentSet m
   /\ forall i, i <> LiveMatchState.currentSet m - 1 ->
        at_index (LiveMatchState.sets m') i = at_index (LiveMatchState.sets m) i)
  \/ (exists s, LiveMatchState.sets m' = LiveMatchState.sets m ++ [Item s]
                /\ LiveMatchState.currentSet m' - 1
                   = Z.of_nat (length (LiveMatchState.sets m))).

(** A match starts: [startMatch] of [src/App.tsx], [confirmStartMatch]
    of the root [App.tsx]. *)
Inductive started : LiveMatchState.t -> Prop :=
| started_src teams fixture m :
    SrcApp.startMatch teams fixture = Updates m -> started m
| started_root tournament modal matchConfig m :
    App.confirmStartMatch tournament modal matchConfig = Updates m -> started m.

(** One handler call that hands React a next state: a point awarded, a
    point subtracted, the next set started, and the handlers that leave
    the scoreboard alone.  [next_set_late] is [handleStartNextSet] run from
    a render that still saw an earlier set as the current one. *)
Inductive mutation (m : LiveMatchState.t) : LiveMatchState.t -> Prop :=
| point_root tournament teamId type playerId m' :
    App.handlePoint tournament (Some m) teamId type playerId = Updates m' ->
    mutation m m'
| point_src teams teamId type playerId m' :
    SrcApp.handlePoint teams (Some m) teamId type playerId = Updates m' ->
    mutation m m'
| subtract_root tournament isAdmin teamId m' :
    App.handleSubtractPoint tournament isAdmin (Some m) teamId = Updates m' ->
    mutation m m'
| next_set_root tournament m' :
    App.handleStartNextSet tournament (Some m) = Updates m' ->
    mutation m m'
| next_set_late tournament setIndex m' :
    setIndex < LiveMatchState.currentSet m ->
    App.handleSetOperation tournament (Some m) App.FINISH setIndex = Updates m' ->
    mutation m m'
| next_set_src m' :
    SrcApp.handleNextSet (Some m) = Updates m' ->
    mutation m m'
| start_game m' :
    App.handleStartGame (Some m) = Updates m' -> mutation m m'
| set_serve teamId m' :
    App.handleSetServe (Some m) teamId = Updates m' -> mutation m m'
| confirm_sub tournament modal outNum inNum m' :
    App.handleConfirmSub tournament (Some m) modal outNum inNum = Updates m' ->
    mutation m m'
| update_rotation tournament modal rotationInput m' :
    App.handleUpdateRotation tournament (Some m) modal rotationInput = Updates m' ->
    mutation m m'
| timeout_src m' :
    SrcApp.handleTimeout (Some m) = Updates m' -> mutation m m'
| request_timeout tournament isAdmin now teamId m' :
    App.handleRequestTimeout tournament isAdmin now (Some m) teamId = Updates m' ->
    mutation m m'
| edit_rules tournament modal matchConfig m' :
    App.handleSaveConfig true tournament modal matchConfig (Some m) = Updates m' ->
    mutation m m'.

(** The live-match states the handlers produce. *)
Inductive produced : LiveMatchState.t -> Prop :=
| produced_start m : started m -> produced m
| produced_step m m' : produced m -> mutation m m' -> produced m'.

(** The shapes of a step, as far as the scoreboard goes. *)
Definition same_board (m m' : LiveMatchState.t) : Prop :=
  LiveMatchState.sets m' = LiveMatchState.sets m
  /\ LiveMatchState.currentSet m' = LiveMatchState.currentSet m
  /\ LiveMatchState.scoreA m' = LiveMatchState.scoreA m
  /\ LiveMatchState.scoreB m' = LiveMatchState.scoreB m.

Definition copies_board (m m' : LiveMatchState.t) : Prop :=
  LiveMatchState.sets m' = spread (LiveMatchState.sets m)
  /\ LiveMatchState.currentSet m' = LiveMatchState.currentSet m
  /\ LiveMatchState.scoreA m' = LiveMatchState.scoreA m
  /\ LiveMatchState.scoreB m' = LiveMatchState.scoreB m.

Definition rewrites_current (m m' : LiveMatchState.t) : Prop :=
  exists s,
    LiveMatchState.sets m'
    = store_index (spread (LiveMatchState.sets m)) (LiveMatchState.currentSet m - 1) s
    /\ LiveMatchState.currentSet m' = LiveMatchState.currentSet m
    /\ LiveMatchState.scoreA m' = MatchSet.scoreA s
    /\ LiveMatchState.scoreB m' = MatchSet.scoreB s.

Definition opens_next (m m' : LiveMatchState.t) : Prop :=
  LiveMatchState.sets m' = spread (LiveMatchState.sets m) ++ [Item emptySet]
  /\ LiveMatchState.currentSet m' = LiveMatchState.currentSet m + 1
  /\ LiveMatchState.scoreA m' = 0
  /\ LiveMatchState.scoreB m' = 0.

(** What [handleSubtractPoint(teamId)] makes of the live match [prev] when
    the match is the fixture [fixture]; [o] is how the handler ended. *)
Definition subtract_point_step (fixture : MatchFixture.t) (prev : LiveMatchState.t)
  (teamId : string) (o : outcome) : Prop :=
  let isTeamA := bool_decide (teamId = MatchFixture.teamAId fixture) in
  let selected :=
    if isTeamA then LiveMatchState.scoreA prev else LiveMatchState.scoreB prev in
  let setIndex := LiveMatchState.currentSet prev - 1 in
  let stored := default emptySet (at_index (LiveMatchState.sets prev) setIndex) in
  (selected <= 0 -> o = Updates prev)
  /\ (0 < selected ->
      exists next,
        o = Updates next
        /\ LiveMatchState.scoreA next
           = (if isTeamA then LiveMatchState.scoreA prev - 1 else LiveMatchState.scoreA prev)
        /\ LiveMatchState.scoreB next
           = (if isTeamA then LiveMatchState.scoreB prev else LiveMatchState.scoreB prev - 1)
        /\ 0 <= (if isTeamA then LiveMatchState.scoreA next else LiveMatchState.scoreB next)
        /\ LiveMatchState.currentSet next = LiveMatchState.currentSet prev
        /\ LiveMatchState.sets next
           = store_index (spread (LiveMatchState.sets prev)) setIndex
               {| MatchSet.scoreA := LiveMatchState.scoreA next;
                  MatchSet.scoreB := LiveMatchState.scoreB next;
                  MatchSet.history :=
                    Some (removelast (default [] (MatchSet.history stored)));
                  MatchSet.durationMinutes := MatchSet.durationMinutes stored |}
        /\ (1 <= LiveMatchState.currentSet prev ->
            at_index (LiveMatchState.sets next) setIndex
            = Some {| MatchSet.scoreA := LiveMatchState.scoreA next;
                      MatchSet.scoreB := LiveMatchState.scoreB next;
                      MatchSet.history :=
                        Some (removelast (default [] (MatchSet.history stored)));
                      MatchSet.durationMinutes := MatchSet.durationMinutes stored |}
            /\ forall i, i <> setIndex ->
                 at_index (LiveMatchState.sets next) i
                 = at_index (LiveMatchState.sets prev) i))
  /\ (0 <= LiveMatchState.scoreA prev -> 0 <= LiveMatchState.scoreB prev ->
      forall next, o = Updates next ->
        0 <= LiveMatchState.scoreA next /\ 0 <= LiveMatchState.scoreB next).

(* ------------------------------------------------------------------ *)
(** *** Predicates on a point of the root shell                        *)
(* ------------------------------------------------------------------ *)

(** The side the root [handlePoint] gives the point to: none for a yellow
    card, the other side than the carded one for a red card, the side
    named by [teamId] otherwise, where every [teamId] but team A's counts
    as side B. *)
Inductive side : Type := SideA | SideB.

Definition point_side (fixture : MatchFixture.t) (teamId : string) (type : PointType)
  : option side :=
  let isTeamA := bool_decide (teamId = MatchFixture.teamAId fixture) in
  match type with
  | yellow_card => None
  | red_card => Some (if isTeamA then SideB else SideA)
  | _ => Some (if isTeamA then SideA else SideB)
  end.

(** How a point for [s] (or no point) changes scores, serve and
    rotations, as the root [handlePoint] does it. *)
Definition point_effect (fixture : MatchFixture.t) (s : option side)
  (m m' : LiveMatchState.t) : Prop :=
  LiveMatchState.benchA m' = LiveMatchState.benchA m
  /\ LiveMatchState.benchB m' = LiveMatchState.benchB m
  /\ match s with
     | None =>
         LiveMatchState.scoreA m' = LiveMatchState.scoreA m
         /\ LiveMatchState.scoreB m' = LiveMatchState.scoreB m
         /\ LiveMatchState.servingTeamId m' = LiveMatchState.servingTeamId m
         /\ LiveMatchState.rotationA m' = LiveMatchState.rotationA m
         /\ LiveMatchState.rotationB m' = LiveMatchState.rotationB m
     | Some SideA =>
         LiveMatchState.scoreA m' = LiveMatchState.scoreA m + 1
         /\ LiveMatchState.scoreB m' = LiveMatchState.scoreB m
         /\ LiveMatchState.rotationB m' = LiveMatchState.rotationB m
         /\ (if bool_decide (LiveMatchState.servingTeamId m = MatchFixture.teamAId fixture)
             then LiveMatchState.servingTeamId m' = LiveMatchState.servingTeamId m
                  /\ LiveMatchState.rotationA m' = LiveMatchState.rotationA m
             else LiveMatchState.servingTeamId m' = MatchFixture.teamAId fixture
                  /\ LiveMatchState.rotationA m'
                     = App.rotateTeam (LiveMatchState.rotationA m))
     | Some SideB =>
         LiveMatchState.scoreA m' = LiveMatchState.scoreA m
         /\ LiveMatchState.scoreB m' = LiveMatchState.scoreB m + 1
         /\ LiveMatchState.rotationA m' = LiveMatchState.rotationA m
         /\ (if bool_decide (LiveMatchState.servingTeamId m = MatchFixture.teamBId fixture)
             then LiveMatchState.servingTeamId m' = LiveMatchState.servingTeamId m
                  /\ LiveMatchState.rotationB m' = LiveMatchState.rotationB m
             else LiveMatchState.servingTeamId m' = MatchFixture.teamBId fixture
                  /\ LiveMatchState.rotationB m'
                     = App.rotateTeam (LiveMatchState.rotationB m))
     end.

(** A set is decided: a side has the points to win and leads by two. *)
Definition set_decided (m : LiveMatchState.t) (a b : Z) : Prop :=
  (App.pointsToWin m <= a \/ App.pointsToWin m <= b) /\ 2 <= Z.abs (a - b).

(* ------------------------------------------------------------------ *)
(** *** The point log as a ledger of the score                         *)
(* ------------------------------------------------------------------ *)

Definition team_of_side (fixture : MatchFixture.t) (sd : side) : string :=
  match sd with
  | SideA => MatchFixture.teamAId fixture
  | SideB => MatchFixture.teamBId fixture
  end.

Definition other_side (sd : side) : side :=
  match sd with SideA => SideB | SideB => SideA end.

(** The log entry [e] stands for a point of side [sd]. *)
Definition credits (fixture : MatchFixture.t) (sd : side) (e : PointLog.t) : bool :=
  match point_side fixture (PointLog.teamId e) (PointLog.type e), sd with
  | Some SideA, SideA | Some SideB, SideB => true
  | _, _ => false
  end.

Definition tally (p : PointLog.t -> bool) (h : list PointLog.t) : Z :=
  Z.of_nat (length (List.filter p h)).

Definition set_score (sd : side) (s : MatchSet.t) : Z :=
  match sd with
  | SideA => MatchSet.scoreA s
  | SideB => MatchSet.scoreB s
  end.

(** The log of a set accounts for its score: it names the two teams of
    the fixture only, and each side has as many points as entries that
    stand for a point of that side. *)
Definition set_accounted (fixture : MatchFixture.t) (s : MatchSet.t) : Prop :=
  exists h,
    MatchSet.history s = Some h
    /\ Forall (fun e => PointLog.teamId e = MatchFixture.teamAId fixture
                        \/ PointLog.teamId e = MatchFixture.teamBId fixture) h
    /\ MatchSet.scoreA s = tally (credits fixture SideA) h
    /\ MatchSet.scoreB s = tally (credits fixture SideB) h.

Definition ledger_inv (fixture : MatchFixture.t) (m : LiveMatchState.t) : Prop :=
  scoreboard_inv m
  /\ Forall (fun sl => exists s, sl = Item s /\ set_accounted fixture s)
            (LiveMatchState.sets m).

(** The points of side [sd] over a list of sets. *)
Fixpoint board_points (sd : side) (l : list (slot MatchSet.t)) : Z :=
  match l with
  | [] => 0
  | Item s :: r => set_score sd s + board_points sd r
  | _ :: r => board_points sd r
  end.

(** A match of the root shell in which points are scored with
    [handlePoint] for one of the two teams and never taken back: it starts
    with [confirmStartMatch], and goes on with points, new sets and the
    handlers that leave the scoreboard alone. *)
Inductive scored_play (tournament : Tournament.t) (fixture : MatchFixture.t)
  : LiveMatchState.t -> Prop :=
| play_start modal matchConfig m :
    App.confirmStartMatch (Some tournament) modal matchConfig = Updates m ->
    scored_play tournament fixture m
| play_point m teamId type playerId m' :
    scored_play tournament fixture m ->
    App.find_fixture (Tournament.fixtures tournament) (LiveMatchState.matchId m)
    = Some fixture ->
    teamId = MatchFixture.teamAId fixture \/ teamId = MatchFixture.teamBId fixture ->
    App.handlePoint (Some tournament) (Some m) teamId type playerId = Updates m' ->
    scored_play tournament fixture m'
| play_next_set m m' :
    scored_play tournament fixture m ->
    App.handleStartNextSet (Some tournament) (Some m) = Updates m' ->
    scored_play tournament fixture m'
| play_other m m' :
    scored_play tournament fixture m ->
    (App.handleStartGame (Some m) = Updates m'
     \/ (exists teamId, App.handleSetServe (Some m) teamId = Updates m')
     \/ (exists modal outNum inNum,
           App.handleConfirmSub (Some tournament) (Some m) modal outNum inNum = Updates m')
     \/ (exists modal rotationInput,
           App.handleUpdateRotation (Some tournament) (Some m) modal rotationInput
           = Updates m')
     \/ (exists isAdmin now teamId,
           App.handleRequestTimeout (Some tournament) isAdmin now (Some m) teamId
           = Updates m')
     \/ (exists modal matchConfig,
           App.handleSaveConfig true (Some tournament) modal matchConfig (Some m)
           = Updates m')) ->
    scored_play tournament fixture m'.
(* ================================================================== *)
(** ** Concrete inputs                                                *)
(* ================================================================== *)

Definition three_clients : Relay.server :=
  {| Relay.state := Relay.initial_state;
     Relay.clients := [ Relay.Client 1 OPEN; Relay.Client 2 OPEN; Relay.Client 3 CLOSING ] |}.

Definition score_frame : json :=
  JObj [ ("type", JStr "UPDATE"); ("path", JStr "liveMatch");
         ("data", JObj [ ("matchId", JStr "m1"); ("scoreA", JNum 1); ("scoreB", JNum 0) ]) ].

(** An UPDATE frame whose path names the prototype accessor. *)
Definition proto_frame : json :=
  JObj [ ("type", JStr "UPDATE"); ("path", JStr "__proto__"); ("data", JNum 5) ].

(** An UPDATE frame that makes [null] the prototype of the relay's state. *)
Definition cut_frame : json :=
  JObj [ ("type", JStr "UPDATE"); ("path", JStr "__proto__"); ("data", JNull) ].

(** An UPDATE frame without [data]. *)
Definition clear_users_frame : json :=
  JObj [ ("type", JStr "UPDATE"); ("path", JStr "users") ].

(** The data of a snapshot taken during a match. *)
Definition match_snapshot : list (string * json) :=
  [ ("users", JArr []); ("teams", JArr []); ("tournaments", JArr []);
    ("liveMatch", JObj [ ("matchId", JStr "m1"); ("scoreA", JNum 1); ("scoreB", JNum 0) ]) ].

(** The relay client once its socket has opened. *)
Definition connected_client : Cloud.client := fst (Cloud.onopen relay_client).

Definition datastore_client : Cloud.client := fst (Cloud.initCloud true Cloud.initial).

Definition connecting_client : Cloud.client := relay_client.

(** The client of the root application once [initCloud] has succeeded and
    the listener effect has run. *)
Definition application_client : Cloud.client :=
  fst (App.subscribe_all true datastore_client).

(** A match document that carries a [BigInt]. *)
Definition bigint_match : jsval :=
  VObject [ ("matchId", VStr "m1"); ("scoreA", VBigInt 1); ("scoreB", VNum 0) ].

Definition plain_match : jsval :=
  VObject [ ("matchId", VStr "m1"); ("scoreA", VNum 1); ("scoreB", VNum 0);
            ("onChange", VFunction) ].

Definition player (team : string) (n : Z) : Player.t :=
  Player.mk (team +:+ pretty n) ("Jugador " +:+ pretty n) n.

Definition team_a : Team.t :=
  Team.mk "team-a" "Azul" (map (player "a") [1; 2; 3; 4; 5; 6; 7; 8]).

Definition team_b : Team.t :=
  Team.mk "team-b" "Rojo" (map (player "b") [1; 2; 3; 4; 5; 6; 7]).

(** A team that has five players so far. *)
Definition team_short : Team.t :=
  Team.mk "team-s" "Cinco" (map (player "s") [1; 2; 3; 4; 5]).

Definition fixture_ab : MatchFixture.t := MatchFixture.mk "m1" "team-a" "team-b".

Definition fixture_sb : MatchFixture.t := MatchFixture.mk "m2" "team-s" "team-b".

Definition tournament_ab : Tournament.t :=
  Tournament.mk "t1" [team_a; team_b] [fixture_ab].

(** The match [startMatch] builds for [fixture_ab]. *)
Definition opening_match : LiveMatchState.t :=
  {| LiveMatchState.matchId := "m1";
     LiveMatchState.config := MatchConfig.mk 5 25 15;
     LiveMatchState.status := warmup;
     LiveMatchState.currentSet := 1;
     LiveMatchState.sets := [Item emptySet];
     LiveMatchState.rotationA := map (player "a") [1; 2; 3; 4; 5; 6];
     LiveMatchState.rotationB := map (player "b") [1; 2; 3; 4; 5; 6];
     LiveMatchState.benchA := map (player "a") [7; 8];
     LiveMatchState.benchB := map (player "b") [7];
     LiveMatchState.servingTeamId := "team-a";
     LiveMatchState.scoreA := 0;
     LiveMatchState.scoreB := 0;
     LiveMatchState.timeoutsA := 0;
     LiveMatchState.timeoutsB := 0;
     LiveMatchState.substitutionsA := 0;
     LiveMatchState.substitutionsB := 0;
     LiveMatchState.requests := [] |}.

(** The live match after a handler ran: the next state it handed over,
    or the one it found. *)
Definition settle (o : outcome) (m : LiveMatchState.t) : LiveMatchState.t :=
  match o with
  | Updates m' => m'
  | _ => m
  end.

(** [opening_match] after an attack point of team A. *)
Definition first_point : LiveMatchState.t :=
  settle (SrcApp.handlePoint [team_a; team_b] (Some opening_match) "team-a" attack (Some "a4"))
         opening_match.

(** A later frame for the same path. *)
(** The match after number 7 came in for number 2 of team A. *)
Definition after_sub : LiveMatchState.t :=
  settle (App.handleConfirmSub (Some tournament_ab) (Some first_point) (Some "team-a")
            (Some 2) (Some 7))
         first_point.

Definition score_frame_2 : json :=
  JObj [ ("type", JStr "UPDATE"); ("path", JStr "liveMatch");
         ("data", JObj [ ("matchId", JStr "m1"); ("scoreA", JNum 2); ("scoreB", JNum 0) ]) ].

(** Team A at set point: 24-20 in the first set. *)
Definition set_point : LiveMatchState.t :=
  LiveMatchState.with_sets [Item (MatchSet.mk 24 20 (Some []) 0)]
    (LiveMatchState.with_scoreB 20 (LiveMatchState.with_scoreA 24
       (LiveMatchState.with_status playing opening_match))).

(** [set_point] after the block that gives team A the set, 25-20. *)
Definition set_won : LiveMatchState.t :=
  settle (App.handlePoint (Some tournament_ab) (Some set_point) "team-a" block (Some "a2"))
         set_point.

(** The administrator account and a referee it creates. *)
Definition first_admin : User.t :=
  User.mk "admin" "admin" (Some "1234") ADMIN None None None.

Definition referee_user : User.t :=
  User.mk "u-1" "arbitro" None REFEREE (Some "admin") None None.

(** A match of the root shell after its first rally, an ace of team A,
    and after its second, a red card shown to team A. *)
Definition one_rally : LiveMatchState.t :=
  settle (App.handlePoint (Some tournament_ab) (Some opening_match) "team-a" ace (Some "a1"))
         opening_match.

Definition two_rallies : LiveMatchState.t :=
  settle (App.handlePoint (Some tournament_ab) (Some one_rally) "team-a" red_card (Some "a3"))
         one_rally.

(* ================================================================== *)
(** ** Properties of the relay and of the transport client            *)
(* ================================================================== *)

(** *** Own properties *)

Section OwnProperties.

Context {A : Type}.
Implicit Types (l : list (string * A)) (k : string) (v : A).

Lemma assoc_app l1 l2 k :
  assoc k (l1 ++ l2)
  = match assoc k l1 with
    | Some v => Some v
    | None => assoc k l2
    end.
Proof.
  induction l1 as [|[k' v'] l1 IH]; simpl; [reflexivity|].
  destruct (decide (k' = k)); [reflexivity | exact IH].
Qed.

Lemma assoc_overwrite_eq k v l :
  is_Some (assoc k l) -> assoc k (overwrite k v l) = Some v.
Proof.
  induction l as [|[k' v'] l IH]; simpl; intros Hs.
  - destruct Hs as [x Hx]. discriminate Hx.
  - destruct (decide (k' = k)) as [->|Hne]; simpl.
    + destruct (decide (k = k)); congruence.
    + destruct (decide (k' = k)); [congruence | apply IH, Hs].
Qed.

Lemma assoc_overwrite_ne k k' v l :
  k' <> k -> assoc k' (overwrite k v l) = assoc k' l.
Proof.
  intros Hne. induction l as [|[k0 v0] l IH]; simpl; [reflexivity|].
  destruct (decide (k0 = k)) as [->|Hk]; simpl.
  - destruct (decide (k = k')); congruence.
  - destruct (decide (k0 = k')); [reflexivity | exact IH].
Qed.

Lemma assoc_insert_index_eq n k v l :
  assoc k l = None -> assoc k (insert_index n k v l) = Some v.
Proof.
  induction l as [|[k' v'] l IH]; simpl; intros Hn.
  - destruct (decide (k = k)); congruence.
  - destruct (decide (k' = k)) as [->|Hne]; [discriminate Hn|].
    destruct (array_index k') as [n'|]; [destruct (n' <? n)%N|]; simpl.
    + destruct (decide (k' = k)); [congruence | apply IH, Hn].
    + destruct (decide (k = k)); congruence.
    + destruct (decide (k = k)); congruence.
Qed.

Lemma assoc_insert_index_ne n k k' v l :
  k' <> k -> assoc k' (insert_index n k v l) = assoc k' l.
Proof.
  intros Hne. induction l as [|[k0 v0] l IH]; simpl.
  - destruct (decide (k = k')); congruence.
  - destruct (array_index k0) as [n'|]; [destruct (n' <? n)%N|]; simpl.
    + destruct (decide (k0 = k')); [reflexivity | exact IH].
    + destruct (decide (k = k')); congruence.
    + destruct (decide (k = k')); congruence.
Qed.

(** A write is read back, and shows under no other key. *)
Lemma assoc_put_eq k v l : assoc k (put k v l) = Some v.
Proof.
  unfold put. destruct (assoc k l) as [x|] eqn:Hk.
  - apply assoc_overwrite_eq. rewrite Hk. eauto.
  - destruct (array_index k).
    + apply assoc_insert_index_eq, Hk.
    + rewrite assoc_app, Hk. simpl. destruct (decide (k = k)); congruence.
Qed.

Lemma assoc_put_ne k k' v l : k' <> k -> assoc k' (put k v l) = assoc k' l.
Proof.
  intros Hne. unfold put. destruct (assoc k l) as [x|] eqn:Hk.
  - apply assoc_overwrite_ne, Hne.
  - destruct (array_index k).
    + apply assoc_insert_index_ne, Hne.
    + rewrite assoc_app. destruct (assoc k' l); [reflexivity|].
      simpl. destruct (decide (k = k')); congruence.
Qed.

Lemma overwrite_overwrite k v1 v2 l :
  overwrite k v2 (overwrite k v1 l) = overwrite k v2 l.
Proof.
  induction l as [|[k' v'] l IH]; simpl; [reflexivity|].
  destruct (decide (k' = k)) as [->|Hne]; simpl.
  - destruct (decide (k = k)); congruence.
  - destruct (decide (k' = k)); [congruence | rewrite IH; reflexivity].
Qed.

Lemma overwrite_insert_index n k v1 v2 l :
  assoc k l = None ->
  overwrite k v2 (insert_index n k v1 l) = insert_index n k v2 l.
Proof.
  induction l as [|[k' v'] l IH]; simpl; intros Hn.
  - destruct (decide (k = k)); congruence.
  - destruct (decide (k' = k)) as [->|Hne]; [discriminate Hn|].
    destruct (array_index k') as [n'|]; [destruct (n' <? n)%N|]; simpl.
    + destruct (decide (k' = k)); [congruence | rewrite (IH Hn); reflexivity].
    + destruct (decide (k = k)); congruence.
    + destruct (decide (k = k)); congruence.
Qed.

Lemma overwrite_new k v1 v2 l :
  assoc k l = None -> overwrite k v2 (l ++ [(k, v1)]) = l ++ [(k, v2)].
Proof.
  induction l as [|[k' v'] l IH]; simpl; intros Hn.
  - destruct (decide (k = k)); congruence.
  - destruct (decide (k' = k)) as [->|Hne]; [discriminate Hn|].
    rewrite (IH Hn). reflexivity.
Qed.

(** Of two writes under one key the second is the one that shows, where
    the first one put the key. *)
Lemma put_put k v1 v2 l : put k v2 (put k v1 l) = put k v2 l.
Proof.
  unfold put at 1. rewrite assoc_put_eq. unfold put.
  destruct (assoc k l) as [x|] eqn:Hk; [apply overwrite_overwrite|].
  destruct (array_index k);
    [apply overwrite_insert_index | apply overwrite_new]; exact Hk.
Qed.

End OwnProperties.

(** *** What a snapshot shows *)

Lemma members_In l k v : In (k, v) (members l) <-> In (k, Some v) l.
Proof.
  unfold members. rewrite <- !list_elem_of_In, list_elem_of_omap. split.
  - intros ([k' [w|]] & Hin & Heq); simpl in Heq; [|discriminate Heq].
    injection Heq as -> ->. exact Hin.
  - intros Hin. exists (k, Some v). split; [exact Hin | reflexivity].
Qed.

Lemma assoc_members_cons k' w r k :
  assoc k (members ((k', w) :: r))
  = match w with
    | Some x => if decide (k' = k) then Some x else assoc k (members r)
    | None => assoc k (members r)
    end.
Proof. destruct w; reflexivity. Qed.

Lemma assoc_members_None l k : assoc k l = None -> assoc k (members l) = None.
Proof.
  induction l as [|[k' w] l IH]; [reflexivity|].
  rewrite assoc_members_cons. simpl.
  destruct (decide (k' = k)); [discriminate|].
  intros Hn. destruct w; apply IH, Hn.
Qed.

Lemma members_app l1 l2 : members (l1 ++ l2) = members l1 ++ members l2.
Proof. unfold members. apply omap_app. Qed.

(** A write changes what the snapshot shows under its own key only. *)
Lemma snapshot_put_ne k k' d l :
  k' <> k -> assoc k' (members (put k d l)) = assoc k' (members l).
Proof.
  intros Hne. unfold put. destruct (assoc k l) as [x|] eqn:Hk; clear Hk.
  - induction l as [|[k0 w0] l IH]; [reflexivity|]. simpl overwrite.
    destruct (decide (k0 = k)) as [->|Hk0].
    + rewrite !assoc_members_cons.
      destruct d, w0; destruct (decide (k = k')); congruence.
    + rewrite !assoc_members_cons, IH. reflexivity.
  - destruct (array_index k) as [n|].
    + induction l as [|[k0 w0] l IH]; simpl insert_index.
      * rewrite assoc_members_cons. destruct d; [|reflexivity].
        destruct (decide (k = k')); congruence.
      * destruct (array_index k0) as [n'|]; [destruct (n' <? n)%N|].
        -- rewrite !assoc_members_cons, IH. reflexivity.
        -- rewrite (assoc_members_cons k d). destruct d; [|reflexivity].
           destruct (decide (k = k')); congruence.
        -- rewrite (assoc_members_cons k d). destruct d; [|reflexivity].
           destruct (decide (k = k')); congruence.
    + rewrite members_app, assoc_app.
      destruct (assoc k' (members l)); [reflexivity|].
      rewrite assoc_members_cons. destruct d; [|reflexivity].
      destruct (decide (k = k')); [congruence | reflexivity].
Qed.

(** A value that is written shows in the snapshot. *)
Lemma snapshot_put_eq k v l : assoc k (members (put k (Some v) l)) = Some v.
Proof.
  unfold put. destruct (assoc k l) as [x|] eqn:Hk.
  - assert (is_Some (assoc k l)) as Hs by (rewrite Hk; eauto). clear x Hk.
    induction l as [|[k0 w0] l IH].
    + destruct Hs as [y Hy]. discriminate Hy.
    + simpl in Hs. simpl overwrite. destruct (decide (k0 = k)) as [->|Hk0].
      * rewrite assoc_members_cons. destruct (decide (k = k)); congruence.
      * rewrite assoc_members_cons, (IH Hs).
        destruct w0; [|reflexivity]. destruct (decide (k0 = k)); congruence.
  - destruct (array_index k) as [n|].
    + induction l as [|[k0 w0] l IH]; simpl insert_index.
      * rewrite assoc_members_cons. destruct (decide (k = k)); congruence.
      * simpl in Hk. destruct (decide (k0 = k)) as [->|Hk0]; [discriminate Hk|].
        destruct (array_index k0) as [n'|]; [destruct (n' <? n)%N|].
        -- rewrite assoc_members_cons, (IH Hk).
           destruct w0; [|reflexivity]. destruct (decide (k0 = k)); congruence.
        -- rewrite assoc_members_cons. destruct (decide (k = k)); congruence.
        -- rewrite assoc_members_cons. destruct (decide (k = k)); congruence.
    + rewrite members_app, assoc_app, (assoc_members_None l k Hk).
      rewrite assoc_members_cons. destruct (decide (k = k)); congruence.
Qed.

(** *** The relay's state *)

Lemma assign_setter path data st :
  bool_decide (path = "__proto__") && Relay.proto_setter_reached st = true ->
  Relay.own (Relay.assign path data st) = Relay.own st
  /\ Relay.proto (Relay.assign path data st)
     = match data with
       | Some JNull => Some JNull
       | Some (JObj fs) => Some (JObj fs)
       | Some (JArr l) => Some (JArr l)
       | _ => Relay.proto st
       end
  /\ Relay.read st path = None.
Proof.
  intros H. unfold Relay.assign. rewrite H. split; [|split].
  - destruct data as [[]|]; reflexivity.
  - destruct data as [[]|]; reflexivity.
  - apply andb_prop in H. destruct H as [Hp Hr].
    apply bool_decide_eq_true in Hp. subst path.
    unfold Relay.proto_setter_reached in Hr. unfold Relay.read.
    destruct (assoc "__proto__" (Relay.own st)); [discriminate Hr | reflexivity].
Qed.

Lemma assign_ordinary path data st :
  bool_decide (path = "__proto__") && Relay.proto_setter_reached st = false ->
  Relay.assign path data st
  = {| Relay.own := put path data (Relay.own st); Relay.proto := Relay.proto st |}.
Proof. intros H. unfold Relay.assign. rewrite H. reflexivity. Qed.

Lemma not_proto_ordinary path st :
  path <> "__proto__" ->
  bool_decide (path = "__proto__") && Relay.proto_setter_reached st = false.
Proof. intros Hne. rewrite bool_decide_eq_false_2 by exact Hne. reflexivity. Qed.

Lemma read_assign_ne path other data st :
  other <> path ->
  Relay.read (Relay.assign path data st) other = Relay.read st other.
Proof.
  intros Hne.
  destruct (bool_decide (path = "__proto__") && Relay.proto_setter_reached st) eqn:Hc.
  - unfold Relay.read. destruct (assign_setter path data st Hc) as (-> & _ & _). reflexivity.
  - rewrite (assign_ordinary path data st Hc). unfold Relay.read. simpl.
    apply assoc_put_ne, Hne.
Qed.

Lemma read_assign_eq path data st :
  bool_decide (path = "__proto__") && Relay.proto_setter_reached st = false ->
  Relay.read (Relay.assign path data st) path = Some data.
Proof.
  intros Hc. rewrite (assign_ordinary path data st Hc). unfold Relay.read. simpl.
  apply assoc_put_eq.
Qed.

(** An update changes what later snapshots show under its own path
    only. *)
Lemma remote_value_assign_ne path other data st :
  other <> path ->
  remote_value (Relay.assign path data st) other = remote_value st other.
Proof.
  intros Hne. unfold remote_value.
  destruct (bool_decide (path = "__proto__") && Relay.proto_setter_reached st) eqn:Hc.
  - destruct (assign_setter path data st Hc) as (-> & _ & _). reflexivity.
  - rewrite (assign_ordinary path data st Hc). simpl. apply snapshot_put_ne, Hne.
Qed.

Lemma remote_value_assign path v st :
  path <> "__proto__" ->
  remote_value (Relay.assign path (Some v) st) path = Some v.
Proof.
  intros Hne. unfold remote_value.
  rewrite (assign_ordinary path (Some v) st (not_proto_ordinary path st Hne)). simpl.
  apply snapshot_put_eq.
Qed.

Lemma broadcast_filter ws frame cs :
  Relay.broadcast ws frame cs
  = map (fun c => Relay.Send (Relay.conn c) (Text frame))
        (List.filter (other_open ws) cs).
Proof.
  unfold Relay.broadcast, other_open.
  induction cs as [|c cs IH]; simpl; [reflexivity|].
  unfold Relay.forward at 1.
  destruct (bool_decide (Relay.conn c <> ws) && bool_decide (Relay.readyState c = OPEN));
    simpl; rewrite IH; reflexivity.
Qed.

(** The serialised UPDATE frame for a path that is a string: [data] is
    left out when there is none. *)
Lemma update_frame_string path data :
  Relay.update_frame (Some (JStr path)) data
  = JObj ([ ("type", JStr "UPDATE"); ("path", JStr path) ]
          ++ match data with
             | Some v => [ ("data", v) ]
             | None => []
             end).
Proof. destruct data; reflexivity. Qed.

(** The shape of the relay's reaction to a frame whose [type] is [UPDATE]
    and whose path converts to the property key [key]. *)
Lemma on_message_update srv ws parsed key :
  field "type" parsed = Some (JStr "UPDATE") ->
  to_property_key (field "path" parsed) = Some key ->
  Relay.on_message srv ws (Text parsed)
  = ( {| Relay.state := Relay.assign key (field "data" parsed) (Relay.state srv);
         Relay.clients := Relay.clients srv |},
      Relay.broadcast ws (Relay.update_frame (field "path" parsed) (field "data" parsed))
        (Relay.clients srv) ).
Proof.
  intros Hty Hkey. unfold Relay.on_message. simpl JSON_parse.
  destruct parsed; try discriminate Hty.
  rewrite Hty, Hkey. reflexivity.
Qed.

(** A path whose conversion to a property key throws: the frame is
    dropped with an error logged, like a malformed one. *)
Lemma on_message_update_throws srv ws parsed :
  field "type" parsed = Some (JStr "UPDATE") ->
  to_property_key (field "path" parsed) = None ->
  relay_ignores srv ws (Text parsed).
Proof.
  intros Hty Hkey. unfold relay_ignores, Relay.on_message. simpl JSON_parse.
  destruct parsed; try discriminate Hty.
  rewrite Hty, Hkey. reflexivity.
Qed.

Lemma type_dispatch {B} (ty : string) (u s o : B) :
  ty <> "UPDATE" -> ty <> "SYNC_REQUEST" ->
  match ty with
  | "UPDATE" => u
  | "SYNC_REQUEST" => s
  | _ => o
  end = o.
Proof.
  intros Hu Hs.
  repeat (match goal with
          | |- context [match ?x with EmptyString => _ | String _ _ => _ end] =>
              destruct x; try reflexivity
          | |- context [match ?a with Ascii.Ascii _ _ _ _ _ _ _ _ => _ end] =>
              destruct a
          | |- context [if ?b then _ else _] => destruct b; try reflexivity
          end); congruence.
Qed.

(** A frame of any other type, or of none, is passed over in silence. *)
Lemma on_message_other srv ws parsed :
  parsed <> JNull ->
  field "type" parsed <> Some (JStr "UPDATE") ->
  field "type" parsed <> Some (JStr "SYNC_REQUEST") ->
  Relay.on_message srv ws (Text parsed) = (srv, []).
Proof.
  intros Hnull Hu Hs. unfold Relay.on_message. simpl JSON_parse.
  destruct parsed as [| b | n | s | items | fields]; try congruence; try reflexivity.
  destruct (field "type" (JObj fields)) as [[| b | n | ty | items | fs]|];
    try reflexivity.
  apply type_dispatch; congruence.
Qed.

(** C1 (relay UPDATE step).  For every frame of type UPDATE whose path is a
    string, received from a connection [ws], the relay sends the frame
    [{type: UPDATE, path, data}] (without [data] when the frame had none)
    once to each connection of [wss.clients] that is another socket than
    [ws] and is open, in the order of [wss.clients], and sends nothing
    else: every other open connection gets it, [ws] itself never does, and
    a connection in another state is passed over, the relay keeping nothing
    for it.  The connections and every other path of the state stay as they
    were.  The value is stored under the path, where it is the last value
    written, for every path but one: for the path [__proto__], as long as
    the setter of [Object.prototype] is in reach, nothing is stored; the
    state has the own properties it had and none of that name. *)
Theorem relay_update_forwarding srv ws parsed path :
  field "type" parsed = Some (JStr "UPDATE") ->
  field "path" parsed = Some (JStr path) ->
  relay_update_step srv ws parsed path
    (JObj ([ ("type", JStr "UPDATE"); ("path", JStr path) ]
           ++ match field "data" parsed with
              | Some v => [ ("data", v) ]
              | None => []
              end)).
Proof.
  intros Hty Hpath. unfold relay_update_step.
  rewrite (on_message_update srv ws parsed path Hty) by (rewrite Hpath; reflexivity).
  cbn [fst snd Relay.state Relay.clients].
  rewrite Hpath, update_frame_string, broadcast_filter.
  split; [reflexivity|].
  split.
  { intros c Hin Hws Hopen.
    apply in_map_iff. exists c. split; [reflexivity|].
    apply filter_In. split; [exact Hin|].
    apply andb_true_intro. split; apply bool_decide_eq_true; assumption. }
  split.
  { intros m Hin.
    apply in_map_iff in Hin. destruct Hin as (c & Heq & Hc).
    apply filter_In in Hc. destruct Hc as [_ Hc].
    apply andb_prop in Hc. destruct Hc as [Hc _].
    apply bool_decide_eq_true in Hc.
    injection Heq as Hconn _. contradiction. }
  split.
  { intros a Hin.
    apply in_map_iff in Hin. destruct Hin as (c & Heq & Hc).
    apply filter_In in Hc. destruct Hc as [Hc Hopen].
    apply andb_prop in Hopen. destruct Hopen as [_ Hopen].
    apply bool_decide_eq_true in Hopen.
    exists c. auto. }
  split; [reflexivity|].
  split; [intros other Hne; apply read_assign_ne; exact Hne|].
  destruct (bool_decide (path = "__proto__")
            && Relay.proto_setter_reached (Relay.state srv)) eqn:Hc.
  - destruct (assign_setter path (field "data" parsed) (Relay.state srv) Hc)
      as (Hown & Hproto & Hread).
    split; [exact Hown|]. split; [|exact Hproto].
    unfold Relay.read in *. rewrite Hown. exact Hread.
  - split; [apply read_assign_eq; exact Hc|].
    rewrite (assign_ordinary _ _ _ Hc). reflexivity.
Qed.

Lemma relay_update_forwarding_witness :
  relay_update_step three_clients 1 proto_frame "__proto__"
    (JObj [ ("type", JStr "UPDATE"); ("path", JStr "__proto__"); ("data", JNum 5) ]).
Proof.
  apply (relay_update_forwarding three_clients 1 proto_frame "__proto__"); reflexivity.
Defined.

(** The frame [{type: UPDATE, path: __proto__, data: 5}] is forwarded, and
    the connection that joins next is not told: its snapshot is the one
    from before the frame. *)
Lemma proto_update_not_in_snapshot :
  snd (Relay.on_message three_clients 1 (Text proto_frame))
  = [ Relay.Send 2 (Text proto_frame) ]
  /\ snd (Relay.on_connection (fst (Relay.on_message three_clients 1 (Text proto_frame))) 4)
     = snd (Relay.on_connection three_clients 4).
Proof. split; reflexivity. Qed.

(** C9 (malformed-frame tolerance).  A message that [JSON.parse] rejects is
    ignored by the relay and by the client alike: the error is caught and
    logged, which is all that happens.  The relay's state mapping and its
    connections (each with its [readyState], the sender's included) are what
    they were and nothing is sent; the client's socket and listeners are what
    they were and no callback runs. *)
Theorem malformed_frame_ignored srv ws c m :
  JSON_parse m = None ->
  relay_ignores srv ws m /\ client_ignores c m.
Proof.
  intros Hparse. unfold relay_ignores, client_ignores, Relay.on_message, Cloud.onmessage.
  rewrite Hparse. split; reflexivity.
Qed.

Lemma malformed_frame_ignored_witness :
  relay_ignores three_clients 1 (Garbage "{type:")
  /\ client_ignores connected_client (Garbage "{type:").
Proof.
  apply (malformed_frame_ignored three_clients 1 connected_client (Garbage "{type:")).
  reflexivity.
Defined.

(** The literal [null] parses, but reading its [type] throws inside the
    same [try]: it is ignored in the same way. *)
Lemma null_frame_ignored srv ws c :
  relay_ignores srv ws (Text JNull) /\ client_ignores c (Text JNull).
Proof. split; reflexivity. Qed.

(** The snapshot frame of a state is what [sends_snapshot] asks for. *)
Lemma snapshot_sent st ws :
  sends_snapshot st ws [ Relay.Send ws (JSON_stringify (Relay.init_frame st)) ].
Proof.
  exists (members (Relay.own st)).
  split; [reflexivity|]. split; [|reflexivity].
  intros path v. apply members_In.
Qed.

Lemma on_message_sync srv ws parsed :
  field "type" parsed = Some (JStr "SYNC_REQUEST") ->
  relay_sync_step srv ws parsed.
Proof.
  intros Hty. unfold relay_sync_step, Relay.on_message. simpl JSON_parse.
  destruct parsed; try discriminate Hty.
  rewrite Hty. split; [reflexivity | apply snapshot_sent].
Qed.

Lemma outage_timers n c :
  List.filter is_timer (snd (outage n c))
  = repeat (Cloud.SetTimeout Cloud.Reconnect 3000) n.
Proof.
  revert c. induction n as [|n IH]; intros c; [reflexivity|].
  simpl outage.
  destruct (outage n (Cloud.connectSocket (Cloud.with_socket (Some CLOSED) c)))
    as [c3 a3] eqn:Hrest.
  specialize (IH (Cloud.connectSocket (Cloud.with_socket (Some CLOSED) c))).
  rewrite Hrest in IH. simpl in IH. simpl. rewrite IH. reflexivity.
Qed.

Lemma outage_socket n c :
  Cloud.socket (fst (outage (S n) c)) = Some CONNECTING.
Proof.
  revert c. induction n as [|n IH]; intros c; [reflexivity|].
  change (outage (S (S n)) c) with
    (let '(c1, a1) := Cloud.onclose c in
     let '(c2, a2) := Cloud.run_task Cloud.Reconnect c1 in
     let '(c3, a3) := outage (S n) c2 in (c3, a1 ++ a2 ++ a3)).
  cbn [Cloud.onclose Cloud.run_task].
  specialize (IH (Cloud.connectSocket (Cloud.with_socket (Some CLOSED) c))).
  destruct (outage (S n) (Cloud.connectSocket (Cloud.with_socket (Some CLOSED) c))).
  exact IH.
Qed.

(** C7 (reconnect and resync).  When the relay socket closes, the client
    arms one timer, of 3000 ms, that runs [connectSocket]; when it fires a
    new socket starts connecting.  However long the relay stays away the
    same happens again: [n] closes in a row arm [n] timers, all of 3000 ms,
    and the client is connecting again after each.  When a socket opens the
    client sends [SYNC_REQUEST] at once.  The relay answers a frame of type
    SYNC_REQUEST from [ws] with one frame, sent to [ws] and to nobody else,
    and keeps its state: the frame has the type INIT and for data the
    whole state, every path that holds a value with that value and nothing
    besides. *)
Theorem reconnect_and_resync srv ws parsed :
  field "type" parsed = Some (JStr "SYNC_REQUEST") ->
  (forall c, snd (Cloud.onclose c)
             = [ Cloud.LogInfo "Disconnected from WebSocket server";
                 Cloud.SetTimeout Cloud.Reconnect 3000 ])
  /\ (forall c, Cloud.socket (fst (Cloud.run_task Cloud.Reconnect c)) = Some CONNECTING
                /\ snd (Cloud.run_task Cloud.Reconnect c) = [])
  /\ (forall n c, List.filter is_timer (snd (outage n c))
                  = repeat (Cloud.SetTimeout Cloud.Reconnect 3000) n)
  /\ (forall n c, Cloud.socket (fst (outage (S n) c)) = Some CONNECTING)
  /\ (forall c, Cloud.socket (fst (Cloud.onopen c)) = Some OPEN
                /\ snd (Cloud.onopen c)
                   = [ Cloud.LogInfo "Connected to WebSocket server";
                       Cloud.SocketSend (Text (JObj [ ("type", JStr "SYNC_REQUEST") ])) ])
  /\ relay_sync_step srv ws (JObj [ ("type", JStr "SYNC_REQUEST") ])
  /\ relay_sync_step srv ws parsed.
Proof.
  intros Hty.
  split; [reflexivity|].
  split; [intros c; split; reflexivity|].
  split; [apply outage_timers|].
  split; [apply outage_socket|].
  split; [intros c; split; reflexivity|].
  split; apply on_message_sync; [reflexivity | exact Hty].
Qed.

Lemma reconnect_and_resync_witness :
  relay_sync_step three_clients 2 (JObj [ ("type", JStr "SYNC_REQUEST"); ("seq", JNum 7) ]).
Proof.
  apply (reconnect_and_resync three_clients 2
           (JObj [ ("type", JStr "SYNC_REQUEST"); ("seq", JNum 7) ])).
  reflexivity.
Defined.

(* ------------------------------------------------------------------ *)
(** *** Bootstrap of a new connection                                  *)
(* ------------------------------------------------------------------ *)

Lemma normalizeArray_nonempty val s :
  App.users (fst (App.on_users val s)) <> [].
Proof.
  unfold App.on_users.
  destruct (App.normalizeArray val) as [|u us] eqn:Hn; simpl; congruence.
Qed.

Lemma run_action_users a s :
  App.users s <> [] -> App.users (fst (App.run_action a s)) <> [].
Proof.
  intros Hs. destruct a; simpl; try exact Hs.
  repeat case_decide; simpl; try exact Hs.
  apply normalizeArray_nonempty.
Qed.

Lemma run_actions_users l s :
  App.users s <> [] -> App.users (fst (App.run_actions l s)) <> [].
Proof.
  revert s. induction l as [|a l IH]; intros s Hs; simpl; [exact Hs|].
  pose proof (run_action_users a s Hs) as Ha.
  destruct (App.run_action a s) as [s1 p1]. simpl in Ha.
  specialize (IH s1 Ha).
  destruct (App.run_actions l s1) as [s2 p2]. exact IH.
Qed.

(** The relay answers a new connection with the snapshot of its state,
    sent to that connection, which joins [wss.clients]. *)
Lemma on_connection_snapshot srv ws :
  fst (Relay.on_connection srv ws)
  = {| Relay.state := Relay.state srv;
       Relay.clients := Relay.clients srv ++ [ Relay.Client ws OPEN ] |}
  /\ sends_snapshot (Relay.state srv) ws (snd (Relay.on_connection srv ws)).
Proof. split; [reflexivity | apply snapshot_sent]. Qed.



(** The same callback does fall back on its default list when the frame
    carries nothing for [users], or a value that counts as false
    ([null]). *)
Lemma src_users_callback_falls_back data :
  truthy_opt data = false -> SrcApp.on_users data = SrcApp.INITIAL_USERS.
Proof.
  destruct data as [v|]; simpl; [|reflexivity].
  intros ->. reflexivity.
Qed.

Lemma src_on_users_fallback :
  SrcApp.on_users None = SrcApp.INITIAL_USERS
  /\ SrcApp.on_users (Some JNull) = SrcApp.INITIAL_USERS
  /\ SrcApp.on_users (Some (JArr [])) = JArr [].
Proof. repeat split; reflexivity. Qed.

(** The [users] callback of the root [App.tsx] is the one that never
    leaves the slice empty: whatever the value and the slices, the slice is
    not empty afterwards; on a missing value, on [null] and on the empty
    list it is the default admin list, which is published in turn. *)
Lemma root_users_callback_falls_back val s :
  App.users (fst (App.on_users val s)) <> []
  /\ (absent_or_empty val ->
      App.users (fst (App.on_users val s)) = [App.DEFAULT_ADMIN]
      /\ snd (App.on_users val s) = [ App.Publish "users" (JArr [App.DEFAULT_ADMIN]) ]).
Proof.
  split; [apply normalizeArray_nonempty|].
  intros [-> | [-> | ->]]; split; reflexivity.
Qed.

(* ------------------------------------------------------------------ *)
(** *** Subscriptions                                                  *)
(* ------------------------------------------------------------------ *)

Lemma notify_listeners_at c p v :
  Cloud.notify c p v
  = if prototype_member p then None
    else Some (map (fun cb => Cloud.Invoke cb v) (listeners_at c p)).
Proof.
  unfold Cloud.notify, listeners_at.
  destruct (prototype_member p); [reflexivity|].
  destruct (Cloud.listeners c !! p); reflexivity.
Qed.

(** The client's reaction to a frame whose [type] is [UPDATE] and whose
    path converts to the property key [key]. *)
Lemma onmessage_update c parsed key :
  field "type" parsed = Some (JStr "UPDATE") ->
  to_property_key (field "path" parsed) = Some key ->
  Cloud.onmessage c (Text parsed)
  = (c, match Cloud.notify c key (field "data" parsed) with
        | Some acts => acts
        | None => [ Cloud.LogError "Error parsing WebSocket message" ]
        end).
Proof.
  intros Hty Hkey. unfold Cloud.onmessage. simpl JSON_parse.
  destruct parsed; try discriminate Hty.
  rewrite Hty, Hkey. destruct (Cloud.notify _ _ _); reflexivity.
Qed.

(** The client's reaction to an INIT frame. *)
Lemma onmessage_init c kvs :
  Cloud.onmessage c (Text (JObj [ ("type", JStr "INIT"); ("data", JObj kvs) ]))
  = (c, Cloud.notify_all c (map (fun k => (k, default JNull (assoc k kvs))) (map fst kvs))).
Proof. reflexivity. Qed.

Lemma update_fields path data :
  let frame := JObj ([ ("type", JStr "UPDATE"); ("path", JStr path) ]
                     ++ match data with
                        | Some v => [ ("data", v) ]
                        | None => []
                        end) in
  field "type" frame = Some (JStr "UPDATE")
  /\ field "path" frame = Some (JStr path)
  /\ field "data" frame = data.
Proof. destruct data; repeat split; reflexivity. Qed.

(** Calling the function the relay branch of [syncData] returned: on any
    later state it filters the callback out of that path's list and
    leaves the list of every other path alone. *)
Lemma remove_listener_at c path onData p :
  listeners_at (Cloud.run_unsubscribe (Cloud.RemoveListener path onData) c) p
  = if decide (p = path)
    then filter (fun cb => cb <> onData) (listeners_at c p)
    else listeners_at c p.
Proof.
  unfold listeners_at. simpl.
  destruct (Cloud.listeners c !! path) as [cbs|] eqn:Hl; simpl.
  - destruct (decide (p = path)) as [->|Hne].
    + rewrite lookup_insert_eq, Hl. reflexivity.
    + rewrite lookup_insert_ne by congruence. reflexivity.
  - destruct (decide (p = path)) as [->|Hne]; [rewrite Hl|]; reflexivity.
Qed.

Lemma remove_listener_keeps_others c path onData p cb :
  cb <> onData ->
  In cb (listeners_at c p) ->
  In cb (listeners_at (Cloud.run_unsubscribe (Cloud.RemoveListener path onData) c) p).
Proof.
  intros Hne Hin. rewrite remove_listener_at.
  destruct (decide (p = path)); [|exact Hin].
  apply list_elem_of_In, list_elem_of_filter. split; [exact Hne|].
  apply list_elem_of_In. exact Hin.
Qed.

Lemma remove_listener_gone c path onData :
  ~ In onData (listeners_at (Cloud.run_unsubscribe (Cloud.RemoveListener path onData) c) path).
Proof.
  rewrite remove_listener_at. destruct (decide (path = path)); [|congruence].
  intros Hin. apply list_elem_of_In, list_elem_of_filter in Hin.
  destruct Hin as [Hne _]. congruence.
Qed.

Lemma syncData_listeners c path onData p :
  prototype_member path = false ->
  listeners_at (fst (Cloud.syncData path onData c)) p
  = if decide (p = path) then listeners_at c p ++ [onData] else listeners_at c p.
Proof.
  intros Hpm. unfold listeners_at, Cloud.syncData. rewrite Hpm.
  destruct (Cloud.db c) eqn:Hdb; simpl; rewrite ?Hdb; simpl.
  - destruct (decide (p = path)) as [->|Hne].
    + rewrite lookup_insert_eq. reflexivity.
    + rewrite lookup_insert_ne by congruence. reflexivity.
  - assert (Cloud.listeners
              (Cloud.initSocket
                 (Cloud.with_listeners
                    (<[path := default [] (Cloud.listeners c !! path) ++ [onData]]>
                       (Cloud.listeners c)) c))
            = <[path := default [] (Cloud.listeners c !! path) ++ [onData]]>
                (Cloud.listeners c)) as ->.
    { unfold Cloud.initSocket. simpl. destruct (Cloud.socket c); reflexivity. }
    destruct (decide (p = path)) as [->|Hne].
    + rewrite lookup_insert_eq. reflexivity.
    + rewrite lookup_insert_ne by congruence. reflexivity.
Qed.

Lemma syncData_token c path onData :
  prototype_member path = false ->
  snd (Cloud.syncData path onData c)
  = Some (if Cloud.db c then Cloud.DbUnsubscribe (Cloud.handles c)
          else Cloud.RemoveListener path onData).
Proof.
  intros Hpm. unfold Cloud.syncData. rewrite Hpm. simpl.
  destruct (Cloud.db c); reflexivity.
Qed.

(** A path that names a member of [Object.prototype] cannot be subscribed
    to: [syncData] throws, having registered nothing. *)
Lemma syncData_prototype_path c path onData :
  prototype_member path = true -> Cloud.syncData path onData c = (c, None).
Proof. intros Hpm. unfold Cloud.syncData. rewrite Hpm. reflexivity. Qed.

(** On the relay backend the returned function takes the callback out of
    the list of its path, and nothing else. *)
Lemma relay_unsubscribe_unlists c path onData :
  Cloud.db c = false -> prototype_member path = false ->
  ~ In onData (listeners_at (unsubscribed (Cloud.syncData path onData c)) path)
  /\ (forall p cb, cb <> onData ->
        In cb (listeners_at (fst (Cloud.syncData path onData c)) p) ->
        In cb (listeners_at (unsubscribed (Cloud.syncData path onData c)) p)).
Proof.
  intros Hdb Hpm. unfold unsubscribed.
  rewrite (syncData_token c path onData Hpm), Hdb.
  split; [apply remove_listener_gone|].
  intros p cb Hne Hin. apply remove_listener_keeps_others; assumption.
Qed.

Lemma handles_fresh_initial : handles_fresh Cloud.initial.
Proof. constructor. Qed.

Lemma handles_fresh_syncData c path onData :
  handles_fresh c -> handles_fresh (fst (Cloud.syncData path onData c)).
Proof.
  unfold handles_fresh, Cloud.syncData. intros Hc.
  destruct (prototype_member path); [exact Hc|].
  destruct (Cloud.db c) eqn:Hdb; simpl; rewrite ?Hdb; simpl.
  - apply Forall_app. split.
    + eapply Forall_impl; [exact Hc|]. simpl. intros s Hs. lia.
    + constructor; [simpl; lia | constructor].
  - unfold Cloud.initSocket. simpl. destruct (Cloud.socket c); exact Hc.
Qed.

Lemma handles_fresh_unsubscribe u c :
  handles_fresh c -> handles_fresh (Cloud.run_unsubscribe u c).
Proof.
  unfold handles_fresh. intros Hc. destruct u as [h | path onData]; simpl.
  - apply Forall_forall. intros s Hs.
    apply list_elem_of_filter in Hs. destruct Hs as [_ Hs].
    rewrite Forall_forall in Hc. apply Hc. exact Hs.
  - destruct (Cloud.listeners c !! path); exact Hc.
Qed.

(** With fresh handles, subscribing and unsubscribing at once gives the
    datastore subscriptions back as they were. *)
Lemma datastore_unsubscribe_exact c path onData :
  Cloud.db c = true -> prototype_member path = false -> handles_fresh c ->
  Cloud.subscriptions (unsubscribed (Cloud.syncData path onData c))
  = Cloud.subscriptions c.
Proof.
  intros Hdb Hpm Hc. unfold unsubscribed, Cloud.syncData. rewrite Hpm. simpl.
  rewrite Hdb. simpl.
  rewrite filter_app, filter_cons. simpl.
  destruct (decide (Cloud.handles c <> Cloud.handles c)) as [Hne|_]; [congruence|].
  rewrite filter_nil, app_nil_r.
  unfold handles_fresh in Hc.
  induction Hc as [|s l Hs _ IH]; [reflexivity|].
  rewrite filter_cons, decide_True by lia. rewrite IH. reflexivity.
Qed.

(** C8 (unsubscribe isolation), on the datastore backend.  With [db] set,
    [syncData(path, onData)] appends [onData] to the listener list of
    [path] and returns the function the datastore handed out for the value
    subscription.  Calling that function leaves every listener list as it
    was: [onData] is still in the list of [path], as many times as before
    the call, and a frame for [path] that arrives on a relay socket still
    runs it. *)
Theorem datastore_unsubscribe_keeps_listener c path onData :
  Cloud.db c = true ->
  prototype_member path = false ->
  snd (Cloud.syncData path onData c) = Some (Cloud.DbUnsubscribe (Cloud.handles c))
  /\ listeners_at (fst (Cloud.syncData path onData c)) path
     = listeners_at c path ++ [onData]
  /\ Cloud.listeners (unsubscribed (Cloud.syncData path onData c))
     = Cloud.listeners (fst (Cloud.syncData path onData c))
  /\ listeners_at (unsubscribed (Cloud.syncData path onData c)) path
     = listeners_at c path ++ [onData]
  /\ In onData (listeners_at (unsubscribed (Cloud.syncData path onData c)) path)
  /\ (forall data,
        In (Cloud.Invoke onData data)
           (snd (Cloud.onmessage (unsubscribed (Cloud.syncData path onData c))
                   (Text (JObj ([ ("type", JStr "UPDATE"); ("path", JStr path) ]
                                ++ match data with
                                   | Some v => [ ("data", v) ]
                                   | None => []
                                   end)))))).
Proof.
  intros Hdb Hpm.
  pose proof (syncData_token c path onData Hpm) as Htok. rewrite Hdb in Htok.
  pose proof (syncData_listeners c path onData path Hpm) as Hl.
  rewrite decide_True in Hl by reflexivity.
  assert (Cloud.listeners (unsubscribed (Cloud.syncData path onData c))
          = Cloud.listeners (fst (Cloud.syncData path onData c))) as Hsame.
  { unfold unsubscribed. rewrite Htok. reflexivity. }
  assert (listeners_at (unsubscribed (Cloud.syncData path onData c)) path
          = listeners_at c path ++ [onData]) as Hl'.
  { unfold listeners_at in *. rewrite Hsame. exact Hl. }
  split; [exact Htok|]. split; [exact Hl|]. split; [exact Hsame|].
  split; [exact Hl'|].
  split; [rewrite Hl'; apply in_or_app; right; left; reflexivity|].
  intros data.
  assert (Cloud.onmessage (unsubscribed (Cloud.syncData path onData c))
            (Text (JObj ([ ("type", JStr "UPDATE"); ("path", JStr path) ]
                         ++ match data with
                            | Some v => [ ("data", v) ]
                            | None => []
                            end)))
          = (unsubscribed (Cloud.syncData path onData c),
             map (fun cb => Cloud.Invoke cb data)
                 (listeners_at (unsubscribed (Cloud.syncData path onData c)) path))) as ->.
  { destruct (update_fields path data) as (Hty & Hpath & Hdata).
    rewrite (onmessage_update _ _ path Hty) by (rewrite Hpath; reflexivity).
    rewrite Hdata, notify_listeners_at, Hpm. reflexivity. }
  cbn [snd]. rewrite Hl'. apply in_map_iff. exists onData.
  split; [reflexivity|]. apply in_or_app. right. left. reflexivity.
Qed.

Lemma datastore_unsubscribe_keeps_listener_witness :
  snd (Cloud.syncData "users" 7%nat datastore_client)
  = Some (Cloud.DbUnsubscribe (Cloud.handles datastore_client))
  /\ listeners_at (fst (Cloud.syncData "users" 7%nat datastore_client)) "users"
     = listeners_at datastore_client "users" ++ [7%nat]
  /\ Cloud.listeners (unsubscribed (Cloud.syncData "users" 7%nat datastore_client))
     = Cloud.listeners (fst (Cloud.syncData "users" 7%nat datastore_client))
  /\ listeners_at (unsubscribed (Cloud.syncData "users" 7%nat datastore_client)) "users"
     = listeners_at datastore_client "users" ++ [7%nat]
  /\ In 7%nat (listeners_at (unsubscribed (Cloud.syncData "users" 7%nat datastore_client))
                 "users")
  /\ (forall data,
        In (Cloud.Invoke 7%nat data)
           (snd (Cloud.onmessage (unsubscribed (Cloud.syncData "users" 7%nat datastore_client))
                   (Text (JObj ([ ("type", JStr "UPDATE"); ("path", JStr "users") ]
                                ++ match data with
                                   | Some v => [ ("data", v) ]
                                   | None => []
                                   end)))))).
Proof.
  apply (datastore_unsubscribe_keeps_listener datastore_client "users" 7%nat); reflexivity.
Defined.

(** The root application after its listener effect ran and was cleaned up
    (the four returned functions called): the four callbacks are all still
    listed. *)
Lemma application_cleanup_keeps_listeners :
  four_subscriptions application_client
  /\ four_subscriptions
       (fold_left (fun c u => match u with
                              | Some f => Cloud.run_unsubscribe f c
                              | None => c
                              end)
                  (snd (App.subscribe_all true datastore_client)) application_client).
Proof. split; vm_compute; reflexivity. Qed.

(** Two subscribers of one path on the relay backend: the first one
    leaves, the second one is still the one an update reaches. *)
Lemma two_subscribers_example :
  Cloud.notify
    (Cloud.run_unsubscribe (Cloud.RemoveListener "liveMatch" 1%nat)
       (fst (Cloud.syncData "liveMatch" 2%nat
               (fst (Cloud.syncData "liveMatch" 1%nat Cloud.initial)))))
    "liveMatch" (Some JNull)
  = Some [ Cloud.Invoke 2%nat (Some JNull) ].
Proof. vm_compute. reflexivity. Qed.

(** The relay branch filters by identity: a function subscribed twice to
    a path is taken out twice by either of the two returned functions. *)
Lemma relay_unsubscribe_removes_every_registration :
  listeners_at
    (unsubscribed
       (Cloud.syncData "liveMatch" 1%nat
          (fst (Cloud.syncData "liveMatch" 1%nat Cloud.initial))))
    "liveMatch"
  = [].
Proof. vm_compute. reflexivity. Qed.

(* ------------------------------------------------------------------ *)
(** *** Publishing                                                     *)
(* ------------------------------------------------------------------ *)

(** On the datastore backend [pushData] never rejects, and a value that
    does not serialise is logged and not written. *)
Lemma datastore_publish_swallows write_ok path data c :
  Cloud.db c = true ->
  fst (Cloud.pushData write_ok path data c) = Cloud.Fulfilled
  /\ ((forall j, stringify data <> SJson j) ->
      snd (Cloud.pushData write_ok path data c) = [ Cloud.LogError "Sync Error:" ]).
Proof.
  intros Hdb. unfold Cloud.pushData. rewrite Hdb.
  destruct (stringify data) eqn:Hs; simpl.
  - auto.
  - auto.
  - destruct write_ok; simpl; split; try reflexivity; intros H; destruct (H j eq_refl).
Qed.

(** A function value is dropped from the document that is written. *)
Lemma datastore_publish_drops_functions :
  Cloud.pushData true "liveMatch" plain_match datastore_client
  = (Cloud.Fulfilled,
     [ Cloud.DbSet "liveMatch"
         (JObj [ ("matchId", JStr "m1"); ("scoreA", JNum 1); ("scoreB", JNum 0) ]) ]).
Proof. reflexivity. Qed.

Lemma update_message_throws path data :
  stringify data = SThrows -> stringify (Cloud.update_message path data) = SThrows.
Proof. intros H. unfold Cloud.update_message. simpl. rewrite H. reflexivity. Qed.

(** C5 (publish serialisation), on the relay backend.  With the relay
    socket open, publishing a document that [JSON.stringify] refuses (one
    that holds a [BigInt], say) neither logs nor sends anything: the [throw]
    leaves [pushData], and the promise it returned is rejected. *)
Theorem relay_publish_rejects write_ok c path data :
  Cloud.db c = false ->
  Cloud.socket c = Some OPEN ->
  stringify data = SThrows ->
  Cloud.pushData write_ok path data c = (Cloud.Rejected, []).
Proof.
  intros Hdb Hopen Hthrows. unfold Cloud.pushData.
  rewrite Hdb, Hopen, (update_message_throws path data Hthrows). reflexivity.
Qed.

Lemma relay_publish_rejects_witness :
  Cloud.pushData true "liveMatch" bigint_match connected_client = (Cloud.Rejected, []).
Proof.
  apply (relay_publish_rejects true connected_client "liveMatch" bigint_match); reflexivity.
Defined.

(** The retry of such a document, once the socket is open, throws inside
    the timer. *)
Lemma relay_retry_throws :
  snd (Cloud.run_task (Cloud.RetryUpdate "liveMatch" bigint_match) connected_client)
  = [ Cloud.UncaughtError ].
Proof. reflexivity. Qed.

(** The same document on the datastore backend: caught and logged. *)
Lemma datastore_publish_logs :
  Cloud.pushData true "liveMatch" bigint_match datastore_client
  = (Cloud.Fulfilled, [ Cloud.LogError "Sync Error:" ]).
Proof. reflexivity. Qed.

(** C6 (relay-backend publish retry).  On the relay backend, for a document
    that serialises, [pushData] sends the UPDATE frame at once exactly when
    the socket is open.  With a socket that is not open (still connecting,
    in particular) it sends nothing and arms one timer of 1000 ms; when that
    timer fires the frame is sent if the socket is open by then, and
    otherwise nothing happens: the state is unchanged and no further timer
    is armed.  Without a socket nothing is sent or armed.  In every case the
    promise is fulfilled, with no word on delivery. *)
Theorem relay_publish_retry write_ok c path data frame :
  Cloud.db c = false ->
  stringify (Cloud.update_message path data) = SJson frame ->
  relay_publish write_ok c path data frame.
Proof.
  intros Hdb Hframe. unfold relay_publish, Cloud.pushData, Cloud.run_task.
  rewrite Hdb, Hframe.
  split; [|split; [|split; [|split]]].
  - destruct (Cloud.socket c) as [[| | |]|]; simpl; split;
      try (intros [H|[]]; discriminate H); try discriminate; auto.
    intros []. 
  - intros ->. reflexivity.
  - intros s -> Hs. destruct s; try reflexivity. congruence.
  - intros ->. reflexivity.
  - intros c'. destruct (Cloud.socket c') as [[| | |]|]; split; reflexivity.
Qed.

Lemma relay_publish_retry_witness :
  relay_publish true connecting_client "liveMatch" plain_match
    (JObj [ ("type", JStr "UPDATE"); ("path", JStr "liveMatch");
            ("data", JObj [ ("matchId", JStr "m1"); ("scoreA", JNum 1); ("scoreB", JNum 0) ]) ]).
Proof.
  apply (relay_publish_retry true connecting_client "liveMatch" plain_match); reflexivity.
Defined.

(* ================================================================== *)
(** ** Properties of the match handlers                               *)
(* ================================================================== *)

Import LiveMatchState.

Section Arrays.
Context {A : Type}.
Implicit Types (l : list (slot A)) (i j : Z) (a : A).

Lemma spread_items l : Forall is_item l -> spread l = l.
Proof.
  induction 1 as [|s l Hs _ IH]; [reflexivity|].
  simpl. rewrite IH. destruct s; simpl in Hs; try contradiction; reflexivity.
Qed.

Lemma length_spread l : length (spread l) = length l.
Proof. apply length_map. Qed.

Lemma at_index_spread l i : at_index (spread l) i = at_index l i.
Proof.
  unfold at_index, spread. destruct (i <? 0); [reflexivity|].
  rewrite list_lookup_fmap. destruct (l !! Z.to_nat i) as [[| |a]|]; reflexivity.
Qed.

Lemma store_index_in_range l i a :
  0 <= i < Z.of_nat (length l) ->
  store_index l i a = <[Z.to_nat i := Item a]> l.
Proof.
  intros Hi. unfold store_index.
  destruct (Z.ltb_spec i 0); [lia|].
  destruct (Nat.ltb_spec (Z.to_nat i) (length l)); [reflexivity | lia].
Qed.

Lemma store_index_at_end l a :
  store_index l (Z.of_nat (length l)) a = l ++ [Item a].
Proof.
  unfold store_index.
  destruct (Z.ltb_spec (Z.of_nat (length l)) 0); [lia|].
  rewrite Nat2Z.id.
  destruct (Nat.ltb_spec (length l) (length l)); [lia|].
  rewrite Nat.sub_diag. reflexivity.
Qed.

Lemma at_index_store_eq l i a : 0 <= i -> at_index (store_index l i a) i = Some a.
Proof.
  intros Hi. unfold at_index, store_index.
  destruct (Z.ltb_spec i 0); [lia|].
  destruct (Nat.ltb_spec (Z.to_nat i) (length l)).
  - rewrite list_lookup_insert_eq by lia. reflexivity.
  - rewrite lookup_app_r by lia.
    rewrite lookup_app_r by (rewrite repeat_length; lia).
    rewrite repeat_length.
    replace (Z.to_nat i - length l - (Z.to_nat i - length l))%nat with 0%nat by lia.
    reflexivity.
Qed.

Lemma at_index_store_ne l i j a :
  j <> i -> at_index (store_index l i a) j = at_index l j.
Proof.
  intros Hne. unfold at_index, store_index.
  destruct (Z.ltb_spec j 0); [reflexivity|].
  destruct (Z.ltb_spec i 0); [reflexivity|].
  destruct (Nat.ltb_spec (Z.to_nat i) (length l)).
  - rewrite list_lookup_insert_ne by lia. reflexivity.
  - destruct (Nat.ltb_spec (Z.to_nat j) (length l)).
    + rewrite lookup_app_l by lia. reflexivity.
    + rewrite lookup_app_r by lia.
      rewrite (lookup_ge_None_2 l) by lia.
      destruct (Nat.ltb_spec (Z.to_nat j - length l) (Z.to_nat i - length l)).
      * rewrite lookup_app_l by (rewrite repeat_length; lia).
        destruct (repeat Hole (Z.to_nat i - length l) !! (Z.to_nat j - length l)%nat) eqn:Hr;
          [|reflexivity].
        apply list_elem_of_lookup_2, list_elem_of_In, repeat_spec in Hr. subst. reflexivity.
      * rewrite lookup_app_r by (rewrite repeat_length; lia).
        rewrite repeat_length.
        rewrite lookup_ge_None_2; [reflexivity|]. simpl. lia.
Qed.

Lemma store_index_items l i a :
  0 <= i < Z.of_nat (length l) -> Forall is_item l -> Forall is_item (store_index l i a).
Proof.
  intros Hi Hl. rewrite store_index_in_range by exact Hi.
  apply Forall_insert; [exact Hl | exact I].
Qed.

End Arrays.


Lemma point_for_A_board a m :
  sets (App.point_for_A a m) = sets m /\ currentSet (App.point_for_A a m) = currentSet m.
Proof. unfold App.point_for_A. case_bool_decide; split; reflexivity. Qed.

Lemma point_for_B_board b m :
  sets (App.point_for_B b m) = sets m /\ currentSet (App.point_for_B b m) = currentSet m.
Proof. unfold App.point_for_B. case_bool_decide; split; reflexivity. Qed.

Ltac board_case :=
  match goal with
  | H : Updates _ = Updates _ |- _ => injection H as <-
  | H : Returns = Updates _ |- _ => discriminate H
  | H : Throws = Updates _ |- _ => discriminate H
  | H : context [match ?x with _ => _ end] |- _ => destruct x eqn:?
  | H : context [if ?x then _ else _] |- _ => destruct x eqn:?
  end.

Lemma root_handlePoint_shape tournament m teamId type playerId m' :
  App.handlePoint tournament (Some m) teamId type playerId = Updates m' ->
  m' = m \/ rewrites_current m m'.
Proof.
  unfold App.handlePoint. intros H.
  destruct tournament as [tournament|]; [|discriminate H].
  destruct (App.find_fixture _ _) as [fixture|]; [|discriminate H].
  cbv zeta in H.
  match type of H with
  | context [App.setFinished m (scoreA ?s) (scoreB ?s)] => set (scored := s) in *
  end.
  assert (sets scored = sets m /\ currentSet scored = currentSet m) as [Hsets Hcur].
  { subst scored. destruct type; try case_bool_decide;
      first [apply point_for_A_board | apply point_for_B_board | split; reflexivity]. }
  clearbody scored.
  destruct (status m) eqn:Hst;
    try (injection H as <-; left; reflexivity);
    right; repeat board_case;
    (eexists; cbn; rewrite ?Hcur; split; [reflexivity|]; split; [reflexivity|];
     split; reflexivity).
Qed.

Lemma root_handleSubtractPoint_shape tournament isAdmin m teamId m' :
  App.handleSubtractPoint tournament isAdmin (Some m) teamId = Updates m' ->
  m' = m \/ rewrites_current m m'.
Proof.
  unfold App.handleSubtractPoint. intros H.
  destruct tournament as [tournament|]; [|discriminate H].
  destruct isAdmin; [|discriminate H].
  destruct (App.find_fixture _ _) as [fixture|]; [|discriminate H].
  cbv zeta in H.
  repeat board_case; try (left; reflexivity);
    right; (eexists; cbn; split; [reflexivity|]; split; [reflexivity|]; split; reflexivity).
Qed.

Lemma src_handlePoint_shape teams m teamId type playerId m' :
  SrcApp.handlePoint teams (Some m) teamId type playerId = Updates m' ->
  rewrites_current m m'.
Proof.
  unfold SrcApp.handlePoint. intros H. cbv zeta in H.
  destruct (status m); try discriminate H;
    match type of H with
    | context [let '(a, b) := ?p in _] => destruct p as [nextScoreA nextScoreB]
    end;
    (destruct (at_index _ _) as [current|]; [|discriminate H]);
    injection H as <-;
    (eexists; cbn; split; [reflexivity|]; split; [reflexivity|]; split; reflexivity).
Qed.

Lemma src_handleNextSet_shape m m' :
  SrcApp.handleNextSet (Some m) = Updates m' ->
  same_board m m' \/ opens_next m m'.
Proof.
  unfold SrcApp.handleNextSet. intros H. cbv zeta in H.
  repeat board_case; [left | right]; repeat split; reflexivity.
Qed.

Lemma pad_sets_full l i :
  i < Z.of_nat (length l) -> App.pad_sets l i = l.
Proof.
  intros Hi. unfold App.pad_sets.
  replace (Z.to_nat (i + 1 - Z.of_nat (length l))) with 0%nat by lia.
  simpl. apply app_nil_r.
Qed.

Lemma root_finish_shape tournament m setIndex m' :
  Z.of_nat (length (sets m)) = currentSet m ->
  setIndex < currentSet m ->
  App.handleSetOperation tournament (Some m) App.FINISH setIndex = Updates m' ->
  copies_board m m' \/ opens_next m m'.
Proof.
  intros Hlen Hidx. unfold App.handleSetOperation. intros H.
  destruct tournament as [tournament|]; [|discriminate H].
  rewrite pad_sets_full in H by (rewrite length_spread; lia).
  cbv zeta in H.
  destruct (winsA _) as [wA|]; [|discriminate H].
  destruct (winsB _) as [wB|]; [|discriminate H].
  destruct (_ || _).
  - injection H as <-. left. repeat split; reflexivity.
  - destruct (Z.eqb_spec (currentSet m) (setIndex + 1)) as [Hcur|Hcur].
    + replace (Z.of_nat (length (spread (sets m))) <? currentSet m + 1) with true in H
        by (rewrite length_spread; lia).
      injection H as <-. right. repeat split; reflexivity.
    + injection H as <-. left. repeat split; reflexivity.
Qed.

Lemma root_handleStartNextSet_shape tournament m m' :
  Z.of_nat (length (sets m)) = currentSet m ->
  App.handleStartNextSet tournament (Some m) = Updates m' ->
  copies_board m m' \/ opens_next m m'.
Proof.
  intros Hlen. unfold App.handleStartNextSet. apply root_finish_shape; [exact Hlen | lia].
Qed.

Lemma other_handlers_shape m m' :
  (App.handleStartGame (Some m) = Updates m'
   \/ (exists teamId, App.handleSetServe (Some m) teamId = Updates m')
   \/ (exists tournament modal outNum inNum,
         App.handleConfirmSub tournament (Some m) modal outNum inNum = Updates m')
   \/ (exists tournament modal rotationInput,
         App.handleUpdateRotation tournament (Some m) modal rotationInput = Updates m')
   \/ SrcApp.handleTimeout (Some m) = Updates m'
   \/ (exists tournament isAdmin now teamId,
         App.handleRequestTimeout tournament isAdmin now (Some m) teamId = Updates m')
   \/ (exists tournament modal matchConfig,
         App.handleSaveConfig true tournament modal matchConfig (Some m) = Updates m')) ->
  same_board m m'.
Proof.
  intros [H | [(teamId & H) | [(t & modal & o & i & H) | [(t & modal & r & H)
         | [H | [(t & a & now & teamId & H) | (t & modal & cfg & H)]]]]]].
  - injection H as <-. repeat split; reflexivity.
  - injection H as <-. repeat split; reflexivity.
  - unfold App.handleConfirmSub in H. cbv zeta in H.
    repeat board_case; repeat split; reflexivity.
  - unfold App.handleUpdateRotation in H. cbv zeta in H.
    repeat board_case; repeat split; reflexivity.
  - injection H as <-. repeat split; reflexivity.
  - unfold App.handleRequestTimeout in H. cbv zeta in H.
    destruct a; injection H as <-; repeat split; reflexivity.
  - injection H as <-. repeat split; reflexivity.
Qed.

(** Each shape keeps the invariant and grows [sets] by appending only. *)
Lemma same_board_keeps m m' :
  scoreboard_inv m -> same_board m m' -> scoreboard_inv m' /\ grows_by_append m m'.
Proof.
  intros [(Hone & Hlen & Hitems) (s & Hs & Ha & Hb)] (Hsets & Hcur & HA & HB).
  split.
  - split; [repeat split; rewrite ?Hsets, ?Hcur; assumption|].
    exists s. rewrite Hsets, Hcur, HA, HB. auto.
  - left. rewrite Hsets, Hcur. auto.
Qed.

Lemma copies_board_same m m' :
  scoreboard_inv m -> copies_board m m' -> same_board m m'.
Proof.
  intros [(_ & _ & Hitems) _] (Hsets & Hrest).
  rewrite (spread_items _ Hitems) in Hsets. split; assumption.
Qed.

Lemma rewrites_current_keeps m m' :
  scoreboard_inv m -> rewrites_current m m' -> scoreboard_inv m' /\ grows_by_append m m'.
Proof.
  intros [(Hone & Hlen & Hitems) _] (s & Hsets & Hcur & HA & HB).
  rewrite (spread_items _ Hitems) in Hsets.
  assert (0 <= currentSet m - 1 < Z.of_nat (length (sets m))) as Hrange by lia.
  split; [split|].
  - repeat split; rewrite ?Hcur, ?Hsets; try assumption.
    + rewrite store_index_in_range, length_insert by exact Hrange. exact Hlen.
    + apply store_index_items; assumption.
  - exists s. rewrite Hsets, Hcur, at_index_store_eq by lia. auto.
  - left. rewrite Hsets, Hcur.
    rewrite store_index_in_range, length_insert by exact Hrange.
    repeat split. intros i Hi.
    rewrite <- (store_index_in_range _ _ _ Hrange). apply at_index_store_ne. exact Hi.
Qed.

Lemma opens_next_keeps m m' :
  scoreboard_inv m -> opens_next m m' -> scoreboard_inv m' /\ grows_by_append m m'.
Proof.
  intros [(Hone & Hlen & Hitems) _] (Hsets & Hcur & HA & HB).
  rewrite (spread_items _ Hitems) in Hsets.
  split; [split|].
  - repeat split; rewrite ?Hcur, ?Hsets.
    + lia.
    + rewrite length_app. simpl. lia.
    + apply Forall_app. split; [exact Hitems|]. constructor; [exact I | constructor].
  - exists emptySet. rewrite Hsets, Hcur, HA, HB.
    replace (currentSet m + 1 - 1) with (Z.of_nat (length (sets m))) by lia.
    rewrite <- store_index_at_end, at_index_store_eq by lia. auto.
  - right. exists emptySet. rewrite Hsets, Hcur. split; [reflexivity | lia].
Qed.

Lemma started_inv m : started m -> scoreboard_inv m.
Proof.
  intros [teams fixture m0 H | tournament modal matchConfig m0 H].
  - unfold SrcApp.startMatch in H. repeat board_case.
    split; [repeat split; cbn; try lia; repeat constructor|].
    exists emptySet. cbn. auto.
  - unfold App.confirmStartMatch in H. cbv zeta in H. repeat board_case.
    split; [repeat split; cbn; try lia; repeat constructor|].
    exists emptySet. cbn. auto.
Qed.

Lemma mutation_keeps m m' :
  scoreboard_inv m -> mutation m m' -> scoreboard_inv m' /\ grows_by_append m m'.
Proof.
  intros Hinv Hstep.
  assert (scoreboard_inv m /\ grows_by_append m m) as Hrefl.
  { apply same_board_keeps; [exact Hinv | repeat split; reflexivity]. }
  destruct Hstep as [t teamId type playerId m' H | teams teamId type playerId m' H
                    | t isAdmin teamId m' H | t m' H | t setIndex m' Hidx H
                    | m' H | m' H | teamId m' H
                    | t modal o i m' H | t modal r m' H | m' H
                    | t a now teamId m' H | t modal cfg m' H].
  - apply root_handlePoint_shape in H. destruct H as [-> | H];
      [exact Hrefl | apply rewrites_current_keeps; assumption].
  - apply src_handlePoint_shape in H. apply rewrites_current_keeps; assumption.
  - apply root_handleSubtractPoint_shape in H. destruct H as [-> | H];
      [exact Hrefl | apply rewrites_current_keeps; assumption].
  - apply root_handleStartNextSet_shape in H; [|apply Hinv].
    destruct H as [H | H];
      [apply same_board_keeps, copies_board_same | apply opens_next_keeps]; assumption.
  - apply root_finish_shape in H; [|apply Hinv|exact Hidx].
    destruct H as [H | H];
      [apply same_board_keeps, copies_board_same | apply opens_next_keeps]; assumption.
  - apply src_handleNextSet_shape in H.
    destruct H as [H | H]; [apply same_board_keeps | apply opens_next_keeps]; assumption.
  - apply same_board_keeps; [exact Hinv|]. apply other_handlers_shape. auto.
  - apply same_board_keeps; [exact Hinv|]. apply other_handlers_shape. eauto.
  - apply same_board_keeps; [exact Hinv|]. apply other_handlers_shape. eauto 10.
  - apply same_board_keeps; [exact Hinv|]. apply other_handlers_shape. eauto 10.
  - apply same_board_keeps; [exact Hinv|]. apply other_handlers_shape. auto 10.
  - apply same_board_keeps; [exact Hinv|]. apply other_handlers_shape.
    do 5 right. left. eauto 10.
  - apply same_board_keeps; [exact Hinv|]. apply other_handlers_shape.
    do 6 right. eauto 10.
Qed.

Lemma produced_inv m : produced m -> scoreboard_inv m.
Proof.
  induction 1 as [m Hs | m m' _ IH Hstep]; [apply started_inv; exact Hs|].
  apply (mutation_keeps m m' IH Hstep).
Qed.

(** C3 (scoreboard-sets invariant).  In every live-match state the
    handlers produce (from a started match, through points awarded, points
    subtracted and next sets started, in either application shell, and
    through the handlers that leave the scoreboard alone) the entry
    [sets[currentSet - 1]] exists and its [scoreA] and [scoreB] are those of
    the match state; it is the last entry of [sets].  A further handler call
    keeps this, and changes [sets] only by rewriting the entry at
    [currentSet - 1] or by appending one entry, at the index that is then
    [currentSet - 1]. *)
Theorem scoreboard_sets_invariant m :
  produced m ->
  scoreboard_matches m
  /\ current_is_last m
  /\ (forall m', mutation m m' -> scoreboard_matches m' /\ grows_by_append m m').
Proof.
  intros Hm. pose proof (produced_inv m Hm) as Hinv.
  split; [apply Hinv|]. split; [apply Hinv|].
  intros m' Hstep. destruct (mutation_keeps m m' Hinv Hstep) as [Hinv' Happ].
  split; [apply Hinv' | exact Happ].
Qed.

Lemma scoreboard_sets_invariant_witness :
  scoreboard_matches first_point
  /\ current_is_last first_point
  /\ (forall m', mutation first_point m' ->
        scoreboard_matches m' /\ grows_by_append first_point m').
Proof.
  apply (scoreboard_sets_invariant first_point).
  apply (produced_step opening_match first_point).
  - apply produced_start.
    apply (started_src [team_a; team_b] fixture_ab opening_match). reflexivity.
  - apply (point_src opening_match [team_a; team_b] "team-a" attack (Some "a4") first_point).
    reflexivity.
Defined.

(* ------------------------------------------------------------------ *)
(** *** Rotations and benches                                          *)
(* ------------------------------------------------------------------ *)

Lemma rotateTeam_length players : length (App.rotateTeam players) = length players.
Proof.
  destruct players as [|p r]; [reflexivity|].
  simpl. rewrite length_app. simpl. lia.
Qed.

Lemma rotate_back_length rotation :
  length (SrcApp.rotate_back rotation) = length rotation.
Proof.
  unfold SrcApp.rotate_back.
  destruct (last rotation) as [p|] eqn:Hl; [|reflexivity].
  destruct rotation as [|q r] using rev_ind; [discriminate Hl|].
  rewrite removelast_last. simpl. rewrite length_app. simpl. lia.
Qed.

Lemma findIndex_number_lookup num players i :
  App.findIndex_number num players = Some i ->
  exists p, players !! i = Some p /\ Player.number p = num.
Proof.
  revert i. induction players as [|q r IH]; intros i; simpl; [discriminate|].
  destruct (Z.eqb_spec (Player.number q) num) as [Heq|Hne].
  - intros [= <-]. exists q. auto.
  - destruct (App.findIndex_number num r) as [k|]; [|discriminate].
    intros [= <-]. destruct (IH k eq_refl) as (p & Hp & Hn). exists p. auto.
Qed.

Lemma swap_permutation (rotation bench : list Player.t) i j pOut pIn :
  rotation !! i = Some pOut -> bench !! j = Some pIn ->
  Permutation (<[i := pIn]> rotation ++ <[j := pOut]> bench) (rotation ++ bench).
Proof.
  intros Hi Hj.
  rewrite (insert_take_drop rotation) by (eapply lookup_lt_Some; exact Hi).
  rewrite (insert_take_drop bench) by (eapply lookup_lt_Some; exact Hj).
  pose proof (take_drop_middle rotation i pOut Hi) as Er.
  pose proof (take_drop_middle bench j pIn Hj) as Eb.
  set (R1 := take i rotation) in *. set (R2 := drop (S i) rotation) in *.
  set (B1 := take j bench) in *. set (B2 := drop (S j) bench) in *.
  rewrite <- Er, <- Eb. clearbody R1 R2 B1 B2.
  rewrite <- !Permutation_middle. simpl. apply perm_swap.
Qed.

(** A confirmed substitution swaps one player of the rotation with one of
    the bench: both lists keep their lengths, and together they hold the
    same players as before. *)
Lemma handleConfirmSub_swaps tournament m modal outNum inNum m' :
  App.handleConfirmSub tournament (Some m) modal outNum inNum = Updates m' ->
  length (rotationA m') = length (rotationA m)
  /\ length (rotationB m') = length (rotationB m)
  /\ Permutation (rotationA m' ++ benchA m') (rotationA m ++ benchA m)
  /\ Permutation (rotationB m' ++ benchB m') (rotationB m ++ benchB m).
Proof.
  unfold App.handleConfirmSub. intros H. cbv zeta in H.
  destruct modal as [teamId|]; [|discriminate H].
  destruct tournament as [tournament|]; [|discriminate H].
  destruct outNum as [outNum|]; [|discriminate H].
  destruct inNum as [inNum|]; [|discriminate H].
  match type of H with
  | context [if ?b then rotationA m else rotationB m] => destruct b
  end;
    (destruct (App.findIndex_number outNum _) as [i|];
       [|injection H as <-; repeat split; reflexivity]);
    (destruct (App.findIndex_number inNum _) as [j|];
       [|injection H as <-; repeat split; reflexivity]);
    (destruct (_ !! i) as [pOut|] eqn:Hi; [|injection H as <-; repeat split; reflexivity]);
    (destruct (_ !! j) as [pIn|] eqn:Hj; [|injection H as <-; repeat split; reflexivity]);
    injection H as <-; cbn; rewrite ?length_insert;
    repeat split; try reflexivity; apply swap_permutation; assumption.
Qed.

Lemma collect_rotation_from_team players rotationInput p :
  In p (App.collect_rotation players rotationInput) -> In p players.
Proof.
  induction rotationInput as [|[n|] r IH]; simpl; [contradiction| |exact IH].
  destruct (List.find _ players) as [q|] eqn:Hf; [|exact IH].
  intros [<- | Hin]; [|exact (IH Hin)].
  apply find_some in Hf. apply Hf.
Qed.

(** A rotation edit that goes through puts six entries, all players of the
    team, in the rotation, and on the bench exactly the team players whose
    [id] is not in the rotation. *)
Lemma handleUpdateRotation_partitions tournament m teamId rotationInput m' team :
  App.find_team (Tournament.teams tournament) teamId = Some team ->
  App.handleUpdateRotation (Some tournament) (Some m) (Some teamId) rotationInput
  = Updates m' ->
  let edited_A :=
    match App.find_fixture (Tournament.fixtures tournament) (matchId m) with
    | Some fixture => bool_decide (teamId = MatchFixture.teamAId fixture)
    | None => false
    end in
  let rotation := if edited_A then rotationA m' else rotationB m' in
  let bench := if edited_A then benchA m' else benchB m' in
  length rotation = 6%nat
  /\ (forall p, In p rotation -> In p (Team.players team))
  /\ (forall p, In p bench <-> In p (Team.players team) /\ App.in_rotation rotation p = false)
  /\ (if edited_A then rotationB m' = rotationB m /\ benchB m' = benchB m
      else rotationA m' = rotationA m /\ benchA m' = benchA m).
Proof.
  intros Hteam. unfold App.handleUpdateRotation. rewrite Hteam. cbv zeta.
  destruct (Z.eqb_spec (Z.of_nat (length (App.collect_rotation (Team.players team)
                                             rotationInput))) 6) as [Hlen|Hlen];
    simpl; [|discriminate].
  destruct (match App.find_fixture _ _ with Some _ => _ | None => false end);
    intros [= <-]; cbn; (split; [lia|]);
    (split; [intros p; apply collect_rotation_from_team|]);
    (split; [|split; reflexivity]);
    intros p; rewrite filter_In, negb_true_iff; reflexivity.
Qed.

(* ------------------------------------------------------------------ *)
(** *** Starting a match                                               *)
(* ------------------------------------------------------------------ *)

(** [getRotation] takes the first six players and adds none: a shorter
    roster gives a shorter rotation. *)
Lemma getRotation_length team :
  length (SrcApp.getRotation team) = Nat.min 6 (length (Team.players team)).
Proof. unfold SrcApp.getRotation. apply length_take. Qed.

(** C4 (rotation invariant), at the start of a match.  [startMatch] for a
    fixture whose team A has fewer than six players yields a live match
    whose [rotationA] holds just those players, fewer than six, and whose
    [benchA] is empty, although the code announces "Ensure 6 players for
    rotation". *)
Theorem short_roster_rotation teams fixture teamA teamB :
  SrcApp.find_team teams (MatchFixture.teamAId fixture) = Some teamA ->
  SrcApp.find_team teams (MatchFixture.teamBId fixture) = Some teamB ->
  (length (Team.players teamA) < 6)%nat ->
  exists m,
    SrcApp.startMatch teams fixture = Updates m
    /\ rotationA m = Team.players teamA
    /\ (length (rotationA m) < 6)%nat
    /\ benchA m = [].
Proof.
  intros HA HB Hshort. unfold SrcApp.startMatch. rewrite HA, HB.
  eexists. split; [reflexivity|]. cbn. unfold SrcApp.getRotation.
  rewrite take_ge, drop_ge by lia. auto.
Qed.

Lemma short_roster_rotation_witness :
  exists m,
    SrcApp.startMatch [team_short; team_b] fixture_sb = Updates m
    /\ rotationA m = Team.players team_short
    /\ (length (rotationA m) < 6)%nat
    /\ benchA m = [].
Proof.
  apply (short_roster_rotation [team_short; team_b] fixture_sb team_short team_b);
    [reflexivity | reflexivity | simpl; lia].
Defined.

(** A rotation edit checks that six numbers name team players, not that
    they name six different ones. *)
Lemma repeated_number_rotation :
  map Player.number
      (rotationA (settle (App.handleUpdateRotation (Some tournament_ab) (Some first_point)
                            (Some "team-a")
                            [Some 1; Some 1; Some 2; Some 3; Some 4; Some 5])
                         first_point))
  = [1; 1; 2; 3; 4; 5].
Proof. reflexivity. Qed.

(* ------------------------------------------------------------------ *)
(** *** Subtracting a point                                            *)
(* ------------------------------------------------------------------ *)

(** C10 (point subtraction).  For every live-match state of a known
    fixture, [handleSubtractPoint(teamId)] called by an administrator hands
    back the very same state when the selected team's score is 0 (or
    below); otherwise it takes exactly one off that team's score and leaves
    the other score alone, drops the last entry of the current set's
    history ([history || []], nothing to drop when it is empty), stores the
    two new scores in the current set, and touches no other set.  A score
    it lowers stays at 0 or above, so scores that were not negative are not
    negative afterwards. *)
Theorem subtract_point_bounded tournament fixture prev teamId :
  App.find_fixture (Tournament.fixtures tournament) (matchId prev) = Some fixture ->
  subtract_point_step fixture prev teamId
    (App.handleSubtractPoint (Some tournament) true (Some prev) teamId).
Proof.
  intros Hfix. unfold subtract_point_step, App.handleSubtractPoint.
  rewrite Hfix. cbv zeta.
  destruct (bool_decide (teamId = MatchFixture.teamAId fixture)); simpl.
  - destruct (Z.ltb_spec 0 (scoreA prev)) as [Hpos|Hzero].
    + split; [lia|]. split.
      * intros _. eexists. split; [reflexivity|]. cbn. rewrite at_index_spread.
        repeat split; try lia.
        -- apply at_index_store_eq. lia.
        -- intros i Hi. rewrite at_index_store_ne, at_index_spread by exact Hi. reflexivity.
      * intros HA HB next [= <-]. cbn. lia.
    + split; [reflexivity|]. split; [lia|].
      intros HA HB next [= <-]. lia.
  - destruct (Z.ltb_spec 0 (scoreB prev)) as [Hpos|Hzero].
    + split; [lia|]. split.
      * intros _. eexists. split; [reflexivity|]. cbn. rewrite at_index_spread.
        repeat split; try lia.
        -- apply at_index_store_eq. lia.
        -- intros i Hi. rewrite at_index_store_ne, at_index_spread by exact Hi. reflexivity.
      * intros HA HB next [= <-]. cbn. lia.
    + split; [reflexivity|]. split; [lia|].
      intros HA HB next [= <-]. lia.
Qed.

Lemma subtract_point_bounded_witness :
  subtract_point_step fixture_ab first_point "team-a"
    (App.handleSubtractPoint (Some tournament_ab) true (Some first_point) "team-a").
Proof.
  apply (subtract_point_bounded tournament_ab fixture_ab first_point "team-a").
  reflexivity.
Defined.

(** Outside these conditions the handler does nothing: it returns before
    any update for a caller who is not an administrator, or without a live
    match or an active tournament. *)
Lemma subtract_point_guards tournament prev teamId :
  App.handleSubtractPoint tournament false prev teamId = Returns
  /\ App.handleSubtractPoint tournament true None teamId = Returns
  /\ App.handleSubtractPoint None true prev teamId = Returns.
Proof.
  repeat split; unfold App.handleSubtractPoint;
    destruct prev, tournament; reflexivity.
Qed.

(* ================================================================== *)
(** * Further properties of the code                                  *)
(* ================================================================== *)

(* ================================================================== *)
(** ** Further properties of the relay                                *)
(* ================================================================== *)

Lemma assign_assign path data1 data2 st :
  path <> "__proto__" ->
  Relay.assign path data2 (Relay.assign path data1 st) = Relay.assign path data2 st.
Proof.
  intros Hne.
  rewrite (assign_ordinary path data1 st (not_proto_ordinary path st Hne)).
  rewrite !(assign_ordinary path data2 _ (not_proto_ordinary path _ Hne)).
  simpl. rewrite put_put. reflexivity.
Qed.

(** Last write wins at the relay, per path.  Of two UPDATE frames for the
    same path, other than [__proto__], received one after the other from
    any connections, only the second shows in the relay's state: the state
    is what the second frame alone would have left, and holds the second
    frame's data under the path.  In particular a frame received twice
    leaves the state it left the first time. *)
Theorem relay_last_write_wins srv ws1 ws2 first second :
  field "type" first = Some (JStr "UPDATE") ->
  field "type" second = Some (JStr "UPDATE") ->
  to_property_key (field "path" first) = to_property_key (field "path" second) ->
  to_property_key (field "path" second) <> Some "__proto__" ->
  Relay.state (fst (Relay.on_message (fst (Relay.on_message srv ws1 (Text first)))
                      ws2 (Text second)))
  = Relay.state (fst (Relay.on_message srv ws2 (Text second)))
  /\ (forall key, to_property_key (field "path" second) = Some key ->
        Relay.read
          (Relay.state (fst (Relay.on_message (fst (Relay.on_message srv ws1 (Text first)))
                               ws2 (Text second))))
          key
        = Some (field "data" second)).
Proof.
  intros H1 H2 Hkey Hproto.
  destruct (to_property_key (field "path" second)) as [key|] eqn:Hk2.
  - rewrite (on_message_update srv ws1 first key H1 Hkey).
    rewrite (on_message_update _ ws2 second key H2 Hk2).
    rewrite (on_message_update srv ws2 second key H2 Hk2).
    cbn [fst Relay.state].
    assert (key <> "__proto__") as Hne by congruence.
    split; [apply assign_assign; exact Hne|].
    intros key' [= <-]. apply read_assign_eq, not_proto_ordinary, Hne.
  - rewrite (on_message_update_throws srv ws1 first H1 Hkey).
    split; [reflexivity | intros key' Hk'; discriminate Hk'].
Qed.

Lemma relay_last_write_wins_witness :
  Relay.state (fst (Relay.on_message (fst (Relay.on_message three_clients 1 (Text score_frame)))
                      2 (Text score_frame_2)))
  = Relay.state (fst (Relay.on_message three_clients 2 (Text score_frame_2)))
  /\ (forall key, to_property_key (field "path" score_frame_2) = Some key ->
        Relay.read
          (Relay.state
             (fst (Relay.on_message (fst (Relay.on_message three_clients 1 (Text score_frame)))
                     2 (Text score_frame_2))))
          key
        = Some (field "data" score_frame_2)).
Proof.
  apply (relay_last_write_wins three_clients 1 2 score_frame score_frame_2);
    [reflexivity | reflexivity | reflexivity | discriminate].
Defined.

(** Under [__proto__] the first of two writes can show: once [null] has
    been written there, the setter is out of reach, and the second write
    creates a property that it would not have created alone. *)
Lemma proto_first_write_shows :
  remote_value
    (Relay.state (fst (Relay.on_message (fst (Relay.on_message three_clients 1 (Text cut_frame)))
                         2 (Text proto_frame))))
    "__proto__"
  = Some (JNum 5)
  /\ remote_value (Relay.state (fst (Relay.on_message three_clients 2 (Text proto_frame))))
       "__proto__"
     = None.
Proof. split; reflexivity. Qed.

Lemma on_message_cases srv ws m :
  (exists parsed key,
      m = Text parsed
      /\ field "type" parsed = Some (JStr "UPDATE")
      /\ to_property_key (field "path" parsed) = Some key)
  \/ (exists parsed, m = Text parsed /\ field "type" parsed = Some (JStr "SYNC_REQUEST"))
  \/ Relay.on_message srv ws m = (srv, [])
  \/ Relay.on_message srv ws m = (srv, [ Relay.LogError "Error processing message" ]).
Proof.
  destruct m as [parsed|raw]; [|right; right; right; reflexivity].
  destruct (field "type" parsed) as [[| b | n | ty | items | fs]|] eqn:Hty.
  1-3, 5-7:
    destruct parsed as [| b' | n' | s' | items' | fs'];
      [right; right; right; reflexivity
      | right; right; left; apply on_message_other; congruence ..].
  destruct (decide (ty = "UPDATE")) as [->|Hu].
  - destruct (to_property_key (field "path" parsed)) as [key|] eqn:Hkey.
    + left. exists parsed, key. auto.
    + right. right. right. apply (on_message_update_throws srv ws parsed Hty Hkey).
  - destruct (decide (ty = "SYNC_REQUEST")) as [->|Hs].
    + right. left. exists parsed. auto.
    + right. right. left. apply on_message_other; try congruence.
      intros ->. discriminate Hty.
Qed.

(** The footprint of a message on the relay.  Whatever message arrives,
    the relay keeps its set of connections, and there is one path at most
    whose value in later snapshots, or whose stored value, differs from
    before; a message that is not a frame of type UPDATE leaves the relay
    as it was.  When anything goes back to the sender, it is the INIT
    snapshot of the state, and nothing else is sent. *)
Theorem relay_message_footprint srv ws m :
  Relay.clients (fst (Relay.on_message srv ws m)) = Relay.clients srv
  /\ (exists key, forall path, path <> key ->
        remote_value (Relay.state (fst (Relay.on_message srv ws m))) path
        = remote_value (Relay.state srv) path
        /\ Relay.read (Relay.state (fst (Relay.on_message srv ws m))) path
           = Relay.read (Relay.state srv) path)
  /\ ((forall parsed, m = Text parsed -> field "type" parsed <> Some (JStr "UPDATE")) ->
      fst (Relay.on_message srv ws m) = srv)
  /\ (forall reply, In (Relay.Send ws reply) (snd (Relay.on_message srv ws m)) ->
        sends_snapshot (Relay.state srv) ws (snd (Relay.on_message srv ws m))).
Proof.
  destruct (on_message_cases srv ws m)
    as [(parsed & key & -> & Hty & Hkey) | [(parsed & -> & Hty) | [Hm | Hm]]].
  - rewrite (on_message_update srv ws parsed key Hty Hkey).
    cbn [fst snd Relay.state Relay.clients].
    split; [reflexivity|]. split; [|split].
    + exists key. intros path Hne.
      split; [apply remote_value_assign_ne | apply read_assign_ne]; exact Hne.
    + intros Hno. destruct (Hno parsed eq_refl Hty).
    + intros reply Hin. rewrite broadcast_filter in Hin.
      apply in_map_iff in Hin. destruct Hin as (c & Heq & Hc).
      apply filter_In in Hc. destruct Hc as [_ Hc].
      apply andb_prop in Hc. destruct Hc as [Hc _].
      apply bool_decide_eq_true in Hc. injection Heq as Hconn _. contradiction.
  - destruct (on_message_sync srv ws parsed Hty) as [Hsrv Hsent].
    rewrite Hsrv.
    split; [reflexivity|]. split; [exists ""; auto|]. split; [reflexivity|].
    intros reply _. exact Hsent.
  - rewrite Hm. cbn [fst snd].
    split; [reflexivity|]. split; [exists ""; auto|]. split; [reflexivity|].
    intros reply [].
  - rewrite Hm. cbn [fst snd].
    split; [reflexivity|]. split; [exists ""; auto|]. split; [reflexivity|].
    intros reply [H|[]]. discriminate H.
Qed.

(** A path can leave the snapshot: an UPDATE frame without [data] stores
    [undefined], which [JSON.stringify] leaves out of every later INIT
    frame. *)
Lemma update_without_data_drops_path :
  Relay.read (Relay.state (fst (Relay.on_message three_clients 1 (Text clear_users_frame))))
    "users" = Some None
  /\ remote_value (Relay.state (fst (Relay.on_message three_clients 1 (Text clear_users_frame))))
       "users" = None
  /\ snd (Relay.on_connection
            (fst (Relay.on_message three_clients 1 (Text clear_users_frame))) 4)
     = [ Relay.Send 4
           (Text (JObj [ ("type", JStr "INIT");
                         ("data", JObj [ ("teams", JArr []); ("tournaments", JArr []);
                                         ("liveMatch", JNull) ]) ])) ].
Proof. repeat split; reflexivity. Qed.

Lemma assoc_In {A} k (v : A) l : assoc k l = Some v -> In (k, v) l.
Proof.
  induction l as [|[k' v'] l IH]; simpl; [discriminate|].
  destruct (decide (k' = k)) as [->|Hne].
  - intros [= ->]. left. reflexivity.
  - intros H. right. apply IH, H.
Qed.

(** A client that connects after an update gets that update.  Once the
    relay has handled an UPDATE frame that carries a value for a path
    other than [__proto__], the next new connection is sent one frame, of
    type INIT, whose data holds that value under that path, and under every
    other path what the state held before the update. *)
Theorem late_joiner_gets_last_update srv ws newcomer parsed path v :
  field "type" parsed = Some (JStr "UPDATE") ->
  field "path" parsed = Some (JStr path) ->
  path <> "__proto__" ->
  field "data" parsed = Some v ->
  exists kvs,
    snd (Relay.on_connection (fst (Relay.on_message srv ws (Text parsed))) newcomer)
    = [ Relay.Send newcomer (Text (JObj [ ("type", JStr "INIT"); ("data", JObj kvs) ])) ]
    /\ assoc path kvs = Some v
    /\ In (path, v) kvs
    /\ (forall other, other <> path -> assoc other kvs = remote_value (Relay.state srv) other).
Proof.
  intros Hty Hpath Hproto Hdata.
  destruct (snapshot_sent (Relay.state (fst (Relay.on_message srv ws (Text parsed)))) newcomer)
    as (kvs & Hsent & _ & Hval).
  exists kvs. split; [exact Hsent|].
  assert (forall p, assoc p kvs
                    = remote_value (Relay.assign path (Some v) (Relay.state srv)) p) as Hval'.
  { intros p. rewrite Hval.
    rewrite (on_message_update srv ws parsed path Hty) by (rewrite Hpath; reflexivity).
    cbn [fst Relay.state]. rewrite Hdata. reflexivity. }
  assert (assoc path kvs = Some v) as Hv
    by (rewrite Hval'; apply remote_value_assign; exact Hproto).
  split; [exact Hv|]. split; [apply assoc_In; exact Hv|].
  intros other Hne. rewrite Hval'. apply remote_value_assign_ne. exact Hne.
Qed.

Lemma late_joiner_gets_last_update_witness :
  exists kvs,
    snd (Relay.on_connection (fst (Relay.on_message three_clients 1 (Text score_frame_2))) 4)
    = [ Relay.Send 4 (Text (JObj [ ("type", JStr "INIT"); ("data", JObj kvs) ])) ]
    /\ assoc "liveMatch" kvs
       = Some (JObj [ ("matchId", JStr "m1"); ("scoreA", JNum 2); ("scoreB", JNum 0) ])
    /\ In ("liveMatch", JObj [ ("matchId", JStr "m1"); ("scoreA", JNum 2); ("scoreB", JNum 0) ])
          kvs
    /\ (forall other, other <> "liveMatch" ->
          assoc other kvs = remote_value (Relay.state three_clients) other).
Proof.
  apply (late_joiner_gets_last_update three_clients 1 4 score_frame_2 "liveMatch");
    [reflexivity | reflexivity | discriminate | reflexivity].
Defined.

(* ================================================================== *)
(** ** Further properties of the transport client                     *)
(* ================================================================== *)

Lemma stringify_array_cons x r :
  stringify (VArray (x :: r))
  = match stringify x, stringify (VArray r) with
    | SThrows, _ | _, SThrows => SThrows
    | SUndefined, SJson (JArr js) => SJson (JArr (JNull :: js))
    | SJson j, SJson (JArr js) => SJson (JArr (j :: js))
    | _, _ => SThrows
    end.
Proof. reflexivity. Qed.

Lemma stringify_object_cons k x r :
  stringify (VObject ((k, x) :: r))
  = match stringify x, stringify (VObject r) with
    | SThrows, _ | _, SThrows => SThrows
    | SUndefined, SJson (JObj js) => SJson (JObj js)
    | SJson j, SJson (JObj js) => SJson (JObj ((k, j) :: js))
    | _, _ => SThrows
    end.
Proof. reflexivity. Qed.

(** Serialising JSON data gives the same data back. *)
Lemma stringify_of_json : forall j, stringify (of_json j) = SJson j.
Proof.
  fix IH 1. intros j. destruct j as [| b | n | s | items | fields]; try reflexivity.
  - change (of_json (JArr items)) with (VArray (map of_json items)).
    induction items as [|x r IHr]; [reflexivity|].
    change (map of_json (x :: r)) with (of_json x :: map of_json r).
    rewrite stringify_array_cons, (IH x), IHr. reflexivity.
  - change (of_json (JObj fields))
      with (VObject (map (fun kv => (fst kv, of_json (snd kv))) fields)).
    induction fields as [|[k x] r IHr]; [reflexivity|].
    change (map (fun kv => (fst kv, of_json (snd kv))) ((k, x) :: r))
      with ((k, of_json x) :: map (fun kv => (fst kv, of_json (snd kv))) r).
    rewrite stringify_object_cons, (IH x), IHr. reflexivity.
Qed.

Lemma update_message_clean path data clean :
  stringify data = SJson clean ->
  stringify (Cloud.update_message path data)
  = SJson (JObj [ ("type", JStr "UPDATE"); ("path", JStr path); ("data", clean) ]).
Proof. intros H. unfold Cloud.update_message. simpl. rewrite H. reflexivity. Qed.

(** Publishing never alters a JSON document: what the clean copy
    [JSON.parse(JSON.stringify(data))] and the serialisation of the UPDATE
    frame take away is only what is not JSON.  For a document [j] that is
    JSON data, the datastore backend requests the write of [j] itself at the
    path (and logs once when the write is refused), and the relay backend
    with its socket open sends one UPDATE frame whose [data] is [j]. *)
Theorem publish_keeps_json_documents write_ok c path (j : json) :
  (Cloud.db c = true ->
   Cloud.pushData write_ok path (of_json j) c
   = (Cloud.Fulfilled,
      Cloud.DbSet path j :: (if write_ok then [] else [ Cloud.LogError "Sync Error:" ])))
  /\ (Cloud.db c = false -> Cloud.socket c = Some OPEN ->
      Cloud.pushData write_ok path (of_json j) c
      = (Cloud.Fulfilled,
         [ Cloud.SocketSend
             (Text (JObj [ ("type", JStr "UPDATE"); ("path", JStr path); ("data", j) ])) ])).
Proof.
  unfold Cloud.pushData. split.
  - intros ->. rewrite stringify_of_json. destruct write_ok; reflexivity.
  - intros -> ->. rewrite (update_message_clean path _ j (stringify_of_json j)). reflexivity.
Qed.

(** A publish reaches the other subscribers.  On the relay backend with the
    socket open, [pushData(path, data)] of a document that serialises, for
    a path that names no member of [Object.prototype], sends one UPDATE
    frame; the relay stores the cleaned document under [path] and forwards
    that very frame to every other open connection; a client that receives
    it runs the callbacks subscribed to [path], in subscription order, each
    with the cleaned document, and no other callback. *)
Theorem publish_reaches_other_subscribers write_ok sender receiver srv ws path data clean :
  Cloud.db sender = false ->
  Cloud.socket sender = Some OPEN ->
  stringify data = SJson clean ->
  prototype_member path = false ->
  let frame := JObj [ ("type", JStr "UPDATE"); ("path", JStr path); ("data", clean) ] in
  Cloud.pushData write_ok path data sender = (Cloud.Fulfilled, [ Cloud.SocketSend (Text frame) ])
  /\ Relay.read (Relay.state (fst (Relay.on_message srv ws (Text frame)))) path
     = Some (Some clean)
  /\ remote_value (Relay.state (fst (Relay.on_message srv ws (Text frame)))) path
     = Some clean
  /\ snd (Relay.on_message srv ws (Text frame))
     = map (fun c => Relay.Send (Relay.conn c) (Text frame))
           (List.filter (fun c => bool_decide (Relay.conn c <> ws)
                                  && bool_decide (Relay.readyState c = OPEN))
                        (Relay.clients srv))
  /\ Cloud.onmessage receiver (Text frame)
     = (receiver, map (fun cb => Cloud.Invoke cb (Some clean)) (listeners_at receiver path)).
Proof.
  intros Hdb Hopen Hclean Hpm. cbv zeta.
  assert (path <> "__proto__") as Hproto by (intros ->; discriminate Hpm).
  split; [|split; [|split; [|split]]].
  - unfold Cloud.pushData.
    rewrite Hdb, Hopen, (update_message_clean path data clean Hclean). reflexivity.
  - rewrite (on_message_update srv ws _ path) by reflexivity. cbn.
    apply read_assign_eq, not_proto_ordinary, Hproto.
  - rewrite (on_message_update srv ws _ path) by reflexivity. cbn [fst Relay.state].
    apply (remote_value_assign path clean _ Hproto).
  - rewrite (on_message_update srv ws _ path) by reflexivity. cbn [snd].
    rewrite broadcast_filter. reflexivity.
  - rewrite (onmessage_update receiver _ path) by reflexivity.
    cbn [field assoc]. rewrite notify_listeners_at, Hpm. reflexivity.
Qed.

Lemma publish_reaches_other_subscribers_witness :
  Cloud.pushData true "liveMatch" plain_match connected_client
  = (Cloud.Fulfilled, [ Cloud.SocketSend (Text score_frame) ])
  /\ Relay.read (Relay.state (fst (Relay.on_message three_clients 1 (Text score_frame))))
       "liveMatch"
     = Some (Some (JObj [ ("matchId", JStr "m1"); ("scoreA", JNum 1); ("scoreB", JNum 0) ]))
  /\ remote_value (Relay.state (fst (Relay.on_message three_clients 1 (Text score_frame))))
       "liveMatch"
     = Some (JObj [ ("matchId", JStr "m1"); ("scoreA", JNum 1); ("scoreB", JNum 0) ])
  /\ snd (Relay.on_message three_clients 1 (Text score_frame))
     = map (fun c => Relay.Send (Relay.conn c) (Text score_frame))
           (List.filter (fun c => bool_decide (Relay.conn c <> 1%nat)
                                  && bool_decide (Relay.readyState c = OPEN))
                        (Relay.clients three_clients))
  /\ Cloud.onmessage connected_client (Text score_frame)
     = (connected_client,
        map (fun cb => Cloud.Invoke cb
                         (Some (JObj [ ("matchId", JStr "m1"); ("scoreA", JNum 1);
                                       ("scoreB", JNum 0) ])))
            (listeners_at connected_client "liveMatch")).
Proof.
  apply (publish_reaches_other_subscribers true connected_client connected_client
           three_clients 1%nat "liveMatch" plain_match); reflexivity.
Defined.

(** A frame for a path that names a member of [Object.prototype] runs no
    callback on the client that receives it: reading [listeners] at that
    path gives the member, the call of its [forEach] throws, and the error
    is logged. *)
Lemma prototype_path_update_throws c path data :
  prototype_member path = true ->
  Cloud.onmessage c
    (Text (JObj [ ("type", JStr "UPDATE"); ("path", JStr path); ("data", data) ]))
  = (c, [ Cloud.LogError "Error parsing WebSocket message" ]).
Proof.
  intros Hpm. rewrite (onmessage_update c _ path) by reflexivity.
  rewrite notify_listeners_at, Hpm. reflexivity.
Qed.

(** With a datastore configured the relay socket is never touched:
    [syncData] opens none, and [pushData] neither sends on one nor arms a
    retry; its promise is fulfilled whatever the document. *)
Theorem datastore_backend_leaves_socket write_ok c path onData data :
  Cloud.db c = true ->
  Cloud.socket (fst (Cloud.syncData path onData c)) = Cloud.socket c
  /\ fst (Cloud.pushData write_ok path data c) = Cloud.Fulfilled
  /\ Forall (fun a => match a with
                      | Cloud.SocketSend _ | Cloud.SetTimeout _ _ => False
                      | _ => True
                      end)
            (snd (Cloud.pushData write_ok path data c)).
Proof.
  intros Hdb. split; [|split].
  - unfold Cloud.syncData. destruct (prototype_member path); [reflexivity|].
    simpl. rewrite Hdb. reflexivity.
  - unfold Cloud.pushData. rewrite Hdb.
    destruct (stringify data); [| |destruct write_ok]; reflexivity.
  - unfold Cloud.pushData. rewrite Hdb.
    destruct (stringify data); [| |destruct write_ok]; repeat constructor.
Qed.

Lemma datastore_backend_leaves_socket_witness :
  Cloud.socket (fst (Cloud.syncData "users" 7%nat datastore_client))
  = Cloud.socket datastore_client
  /\ fst (Cloud.pushData true "users" bigint_match datastore_client) = Cloud.Fulfilled
  /\ Forall (fun a => match a with
                      | Cloud.SocketSend _ | Cloud.SetTimeout _ _ => False
                      | _ => True
                      end)
            (snd (Cloud.pushData true "users" bigint_match datastore_client)).
Proof.
  apply (datastore_backend_leaves_socket true datastore_client "users" 7%nat bigint_match).
  reflexivity.
Defined.

(* ================================================================== *)
(** ** Further properties of the state slices                         *)
(* ================================================================== *)

Lemma run_actions_app l1 l2 s :
  fst (App.run_actions (l1 ++ l2) s) = fst (App.run_actions l2 (fst (App.run_actions l1 s))).
Proof.
  revert s. induction l1 as [|a l1 IH]; intros s; [reflexivity|].
  simpl. destruct (App.run_action a s) as [s1 p1].
  specialize (IH s1).
  destruct (App.run_actions (l1 ++ l2) s1) as [s2 p2].
  destruct (App.run_actions l1 s1) as [s3 p3]. simpl in *. exact IH.
Qed.

(** The listener list of each key on a client that holds the four
    subscriptions of the application. *)
Lemma four_subscriptions_at c k :
  four_subscriptions c ->
  listeners_at c k
  = if decide (k = "users") then [App.users_cb]
    else if decide (k = "teams") then [App.teams_cb]
    else if decide (k = "tournaments") then [App.tournaments_cb]
    else if decide (k = "liveMatch") then [App.liveMatch_cb]
    else [].
Proof.
  intros H. unfold listeners_at. rewrite H.
  repeat case_decide; subst; try reflexivity.
  rewrite !lookup_insert_ne by congruence. rewrite lookup_empty. reflexivity.
Qed.

(** The slices after such a client ran the callbacks of one key. *)
Lemma notify_key_slices c k x s :
  four_subscriptions c ->
  fst (App.run_actions (map (fun cb => Cloud.Invoke cb x) (listeners_at c k)) s)
  = apply_key k x s.
Proof.
  intros H. rewrite (four_subscriptions_at c k H). unfold apply_key.
  repeat case_decide; try reflexivity.
  simpl. destruct (App.on_users x s). reflexivity.
Qed.

Lemma notify_all_slices c g ks s :
  four_subscriptions c ->
  Forall (fun k => prototype_member k = false) ks ->
  fst (App.run_actions (Cloud.notify_all c (map (fun k => (k, g k)) ks)) s)
  = after_keys g ks s.
Proof.
  intros H Hks. revert s. induction Hks as [|k r Hk _ IH]; intros s; [reflexivity|].
  simpl map. simpl Cloud.notify_all.
  rewrite notify_listeners_at, Hk. rewrite run_actions_app, IH.
  rewrite (notify_key_slices c k _ s H). reflexivity.
Qed.

Lemma on_users_users val s :
  App.users (fst (App.on_users val s))
  = match App.normalizeArray val with
    | [] => [App.DEFAULT_ADMIN]
    | l => l
    end.
Proof. unfold App.on_users. destruct (App.normalizeArray val); reflexivity. Qed.

Lemma apply_key_liveMatch k x s :
  App.liveMatch (apply_key k x s) = if decide (k = "liveMatch") then x else App.liveMatch s.
Proof.
  unfold apply_key. repeat case_decide; subst; try congruence; try reflexivity.
  unfold App.on_users. destruct (0 <? _); reflexivity.
Qed.

Lemma apply_key_teams k x s :
  App.registeredTeams (apply_key k x s)
  = if decide (k = "teams") then App.normalizeArray x else App.registeredTeams s.
Proof.
  unfold apply_key. repeat case_decide; subst; try congruence; try reflexivity.
  unfold App.on_users. destruct (0 <? _); reflexivity.
Qed.

Lemma apply_key_tournaments k x s :
  App.tournaments (apply_key k x s)
  = if decide (k = "tournaments") then App.normalizeArray x else App.tournaments s.
Proof.
  unfold apply_key. repeat case_decide; subst; try congruence; try reflexivity.
  unfold App.on_users. destruct (0 <? _); reflexivity.
Qed.

Lemma apply_key_users k x s :
  App.users (apply_key k x s)
  = if decide (k = "users")
    then match App.normalizeArray x with
         | [] => [App.DEFAULT_ADMIN]
         | l => l
         end
    else App.users s.
Proof.
  unfold apply_key. repeat case_decide; subst; try congruence; try reflexivity.
  apply on_users_users.
Qed.

Section AfterKeys.

Context {B : Type} (proj : App.slices -> B) (name : string) (set : json -> B).
Hypothesis apply_key_proj : forall k x s,
  proj (apply_key k (Some x) s) = if decide (k = name) then set x else proj s.

Lemma after_keys_proj g ks s :
  proj (after_keys g ks s) = if bool_decide (name ∈ ks) then set (g name) else proj s.
Proof.
  revert s. induction ks as [|k r IH]; intros s; [reflexivity|].
  simpl after_keys. rewrite IH, apply_key_proj.
  destruct (decide (k = name)) as [->|Hk].
  - rewrite (bool_decide_eq_true_2 (name ∈ name :: r)) by left.
    destruct (bool_decide (name ∈ r)); reflexivity.
  - assert (bool_decide (name ∈ k :: r) = bool_decide (name ∈ r)) as ->.
    { apply bool_decide_ext. rewrite elem_of_cons. intuition congruence. }
    reflexivity.
Qed.

End AfterKeys.

Lemma assoc_in_keys {A} k (l : list (string * A)) :
  k ∈ map fst l <-> is_Some (assoc k l).
Proof.
  induction l as [|[k' v] l IH]; simpl.
  - split; [intros H; inversion H | intros [x Hx]; discriminate Hx].
  - rewrite elem_of_cons. destruct (decide (k' = k)) as [->|Hne].
    + split; eauto.
    + rewrite <- IH. intuition congruence.
Qed.

Lemma keyed_value {A B} (kvs : list (string * A)) (d : A) (name : string)
  (f : A -> B) (b : B) :
  (if bool_decide (name ∈ map fst kvs) then f (default d (assoc name kvs)) else b)
  = match assoc name kvs with
    | Some v => f v
    | None => b
    end.
Proof.
  destruct (assoc name kvs) as [v|] eqn:Hv.
  - rewrite bool_decide_eq_true_2 by (apply assoc_in_keys; rewrite Hv; eauto). reflexivity.
  - rewrite bool_decide_eq_false_2; [reflexivity|].
    rewrite assoc_in_keys, Hv. intros [x Hx]. discriminate Hx.
Qed.

(** Resynchronisation.  A client that holds the four subscriptions of the
    root application and receives an INIT frame none of whose keys names a
    member of [Object.prototype] ends, whatever its slices were, with the
    frame's value in [liveMatch], with the normalised value in the team and
    tournament lists, and with the normalised value in the user list, or
    the default admin when that is empty; a slice whose path the frame does
    not carry stays as it was. *)
Theorem init_resyncs_slices c kvs s :
  four_subscriptions c ->
  forallb (fun kv => negb (prototype_member (fst kv))) kvs = true ->
  let s' := App.receive c s (Text (JObj [ ("type", JStr "INIT"); ("data", JObj kvs) ])) in
  App.liveMatch s'
  = match assoc "liveMatch" kvs with
    | Some v => Some v
    | None => App.liveMatch s
    end
  /\ App.registeredTeams s'
     = match assoc "teams" kvs with
       | Some v => App.normalizeArray (Some v)
       | None => App.registeredTeams s
       end
  /\ App.tournaments s'
     = match assoc "tournaments" kvs with
       | Some v => App.normalizeArray (Some v)
       | None => App.tournaments s
       end
  /\ App.users s'
     = match assoc "users" kvs with
       | Some v => match App.normalizeArray (Some v) with
                   | [] => [App.DEFAULT_ADMIN]
                   | l => l
                   end
       | None => App.users s
       end.
Proof.
  intros H Hks. cbv zeta. unfold App.receive. rewrite onmessage_init. cbn [snd].
  assert (Forall (fun k => prototype_member k = false) (map fst kvs)) as Hks'.
  { apply Forall_forall. intros k Hk. apply list_elem_of_In, in_map_iff in Hk.
    destruct Hk as (kv & <- & Hkv).
    rewrite forallb_forall in Hks. specialize (Hks kv Hkv).
    destruct (prototype_member (fst kv)); [discriminate Hks | reflexivity]. }
  rewrite (notify_all_slices c (fun k => default JNull (assoc k kvs)) (map fst kvs) s H Hks').
  split; [|split; [|split]].
  - rewrite (after_keys_proj App.liveMatch "liveMatch" Some)
      by (intros k x s0; apply apply_key_liveMatch).
    apply (keyed_value kvs JNull "liveMatch" Some).
  - rewrite (after_keys_proj App.registeredTeams "teams" (fun v => App.normalizeArray (Some v)))
      by (intros k x s0; apply apply_key_teams).
    apply (keyed_value kvs JNull "teams" (fun v => App.normalizeArray (Some v))).
  - rewrite (after_keys_proj App.tournaments "tournaments"
               (fun v => App.normalizeArray (Some v)))
      by (intros k x s0; apply apply_key_tournaments).
    apply (keyed_value kvs JNull "tournaments" (fun v => App.normalizeArray (Some v))).
  - rewrite (after_keys_proj App.users "users"
               (fun v => match App.normalizeArray (Some v) with
                         | [] => [App.DEFAULT_ADMIN]
                         | l => l
                         end))
      by (intros k x s0; apply apply_key_users).
    apply (keyed_value kvs JNull "users"
             (fun v => match App.normalizeArray (Some v) with
                       | [] => [App.DEFAULT_ADMIN]
                       | l => l
                       end)).
Qed.

Lemma init_resyncs_slices_witness :
  let s' := App.receive application_client App.initial_slices
              (Text (JObj [ ("type", JStr "INIT"); ("data", JObj match_snapshot) ])) in
  App.liveMatch s'
  = match assoc "liveMatch" match_snapshot with
    | Some v => Some v
    | None => App.liveMatch App.initial_slices
    end
  /\ App.registeredTeams s'
     = match assoc "teams" match_snapshot with
       | Some v => App.normalizeArray (Some v)
       | None => App.registeredTeams App.initial_slices
       end
  /\ App.tournaments s'
     = match assoc "tournaments" match_snapshot with
       | Some v => App.normalizeArray (Some v)
       | None => App.tournaments App.initial_slices
       end
  /\ App.users s'
     = match assoc "users" match_snapshot with
       | Some v => match App.normalizeArray (Some v) with
                   | [] => [App.DEFAULT_ADMIN]
                   | l => l
                   end
       | None => App.users App.initial_slices
       end.
Proof.
  apply (init_resyncs_slices application_client match_snapshot App.initial_slices);
    vm_compute; reflexivity.
Defined.

(** A key that names a member of [Object.prototype] ends the dispatch:
    the callbacks of the keys before it have run, those of the keys after
    it do not, and the error is logged. *)
Lemma init_stops_at_prototype_key :
  snd (Cloud.onmessage connected_client
         (Text (JObj [ ("type", JStr "INIT");
                       ("data", JObj [ ("teams", JArr []); ("toString", JNum 1);
                                       ("liveMatch", JNull) ]) ])))
  = [ Cloud.Invoke App.teams_cb (Some (JArr []));
      Cloud.LogError "Error parsing WebSocket message" ].
Proof. vm_compute. reflexivity. Qed.

(** The [users] slice is never emptied by the transport: whatever message
    arrives and whatever callbacks are subscribed, a client whose [users]
    slice is not empty still has a non-empty one afterwards. *)
Theorem users_slice_never_emptied c s m :
  App.users s <> [] -> App.users (App.receive c s m) <> [].
Proof. intros Hs. unfold App.receive. apply run_actions_users. exact Hs. Qed.

Lemma users_slice_never_emptied_witness :
  App.users (App.receive connected_client App.initial_slices
               (Text (JObj [ ("type", JStr "UPDATE"); ("path", JStr "users");
                             ("data", JArr [] ) ]))) <> [].
Proof.
  apply (users_slice_never_emptied connected_client App.initial_slices). discriminate.
Defined.

(** An UPDATE frame for a path touches the slice of that path only.  On a
    client that holds the four subscriptions of the root application, each
    of the four slices is left as it was by an update whose path is not its
    own, and the slice whose path it is takes the frame's value: as it is
    for [liveMatch], normalised for the team and tournament lists, and
    normalised, or the default admin when that is empty, for the user
    list. *)
Theorem update_touches_one_slice c parsed key s :
  four_subscriptions c ->
  field "type" parsed = Some (JStr "UPDATE") ->
  to_property_key (field "path" parsed) = Some key ->
  let s' := App.receive c s (Text parsed) in
  (key <> "users" -> App.users s' = App.users s)
  /\ (key <> "teams" -> App.registeredTeams s' = App.registeredTeams s)
  /\ (key <> "tournaments" -> App.tournaments s' = App.tournaments s)
  /\ (key <> "liveMatch" -> App.liveMatch s' = App.liveMatch s)
  /\ (key = "liveMatch" -> App.liveMatch s' = field "data" parsed)
  /\ (key = "teams" -> App.registeredTeams s' = App.normalizeArray (field "data" parsed))
  /\ (key = "tournaments" -> App.tournaments s' = App.normalizeArray (field "data" parsed))
  /\ (key = "users" ->
      App.users s' = match App.normalizeArray (field "data" parsed) with
                     | [] => [App.DEFAULT_ADMIN]
                     | l => l
                     end).
Proof.
  intros H Hty Hkey. cbv zeta. unfold App.receive.
  rewrite (onmessage_update c parsed key Hty Hkey). cbn [snd].
  rewrite notify_listeners_at.
  destruct (prototype_member key) eqn:Hpm.
  - simpl. repeat split; intros Hk; try reflexivity; subst key; discriminate Hpm.
  - rewrite (notify_key_slices c key _ s H).
    rewrite apply_key_users, apply_key_teams, apply_key_tournaments, apply_key_liveMatch.
    repeat split; intros Hk; repeat case_decide; try congruence; reflexivity.
Qed.

Lemma update_touches_one_slice_witness :
  let s' := App.receive application_client App.initial_slices (Text score_frame) in
  ("liveMatch" <> "users" -> App.users s' = App.users App.initial_slices)
  /\ ("liveMatch" <> "teams" ->
      App.registeredTeams s' = App.registeredTeams App.initial_slices)
  /\ ("liveMatch" <> "tournaments" -> App.tournaments s' = App.tournaments App.initial_slices)
  /\ ("liveMatch" <> "liveMatch" -> App.liveMatch s' = App.liveMatch App.initial_slices)
  /\ ("liveMatch" = "liveMatch" -> App.liveMatch s' = field "data" score_frame)
  /\ ("liveMatch" = "teams" ->
      App.registeredTeams s' = App.normalizeArray (field "data" score_frame))
  /\ ("liveMatch" = "tournaments" ->
      App.tournaments s' = App.normalizeArray (field "data" score_frame))
  /\ ("liveMatch" = "users" ->
      App.users s' = match App.normalizeArray (field "data" score_frame) with
                     | [] => [App.DEFAULT_ADMIN]
                     | l => l
                     end).
Proof.
  apply (update_touches_one_slice application_client score_frame "liveMatch"
           App.initial_slices); vm_compute; reflexivity.
Defined.

(* ================================================================== *)
(** ** Further properties of the match handlers                       *)
(* ================================================================== *)

Lemma findIndex_number_none num players :
  App.findIndex_number num players = None ->
  forall p, In p players -> Player.number p <> num.
Proof.
  induction players as [|q r IH]; simpl; intros H p Hp; [destruct Hp|].
  destruct (Z.eqb_spec (Player.number q) num) as [Heq|Hne]; [discriminate H|].
  destruct (App.findIndex_number num r) as [k|]; [discriminate H|].
  destruct Hp as [<-|Hp]; [exact Hne | apply (IH eq_refl p Hp)].
Qed.

Lemma findIndex_number_first num players i :
  App.findIndex_number num players = Some i ->
  forall k p, (k < i)%nat -> players !! k = Some p -> Player.number p <> num.
Proof.
  revert i. induction players as [|q r IH]; intros i; simpl; [discriminate|].
  destruct (Z.eqb_spec (Player.number q) num) as [Heq|Hne].
  - intros [= <-] k p Hk. lia.
  - destruct (App.findIndex_number num r) as [j|]; [|discriminate].
    intros [= <-] k p Hk Hp. destruct k as [|k].
    + injection Hp as <-. exact Hne.
    + apply (IH j eq_refl k p); [lia | exact Hp].
Qed.

(** A confirmed substitution, for the two numbers typed in.  When no
    player of the team's rotation has the first number, or no player of its
    bench the second, the match is left as it is.  Otherwise the first
    player of the rotation with the first number and the first player of
    the bench with the second change places: each takes the other's
    position, every other position of the two lists keeps its player, and
    the team's substitution count goes up by one; the rotation, the bench
    and the count of the other team, the score, the sets and the rest of
    the match stay as they were.  The team is team A when the modal's team
    is team A of the live fixture, and team B in every other case. *)
Theorem confirmed_sub_exchanges tournament m teamId outNum inNum m' :
  App.handleConfirmSub (Some tournament) (Some m) (Some teamId) (Some outNum) (Some inNum)
  = Updates m' ->
  let isTeamA :=
    match App.find_fixture (Tournament.fixtures tournament) (matchId m) with
    | Some fixture => bool_decide (teamId = MatchFixture.teamAId fixture)
    | None => false
    end in
  let rotation := if isTeamA then rotationA m else rotationB m in
  let bench := if isTeamA then benchA m else benchB m in
  (((forall p, In p rotation -> Player.number p <> outNum)
    \/ (forall p, In p bench -> Player.number p <> inNum))
   /\ m' = m)
  \/ exists i j pOut pIn,
       rotation !! i = Some pOut /\ Player.number pOut = outNum
       /\ (forall k p, (k < i)%nat -> rotation !! k = Some p -> Player.number p <> outNum)
       /\ bench !! j = Some pIn /\ Player.number pIn = inNum
       /\ (forall k p, (k < j)%nat -> bench !! k = Some p -> Player.number p <> inNum)
       /\ (if isTeamA
           then rotationA m' = <[i := pIn]> (rotationA m)
                /\ benchA m' = <[j := pOut]> (benchA m)
                /\ substitutionsA m' = substitutionsA m + 1
                /\ rotationB m' = rotationB m /\ benchB m' = benchB m
                /\ substitutionsB m' = substitutionsB m
           else rotationB m' = <[i := pIn]> (rotationB m)
                /\ benchB m' = <[j := pOut]> (benchB m)
                /\ substitutionsB m' = substitutionsB m + 1
                /\ rotationA m' = rotationA m /\ benchA m' = benchA m
                /\ substitutionsA m' = substitutionsA m)
       /\ matchId m' = matchId m /\ config m' = config m /\ status m' = status m
       /\ currentSet m' = currentSet m /\ sets m' = sets m
       /\ servingTeamId m' = servingTeamId m
       /\ scoreA m' = scoreA m /\ scoreB m' = scoreB m
       /\ timeoutsA m' = timeoutsA m /\ timeoutsB m' = timeoutsB m
       /\ requests m' = requests m.
Proof.
  unfold App.handleConfirmSub. cbv zeta.
  match goal with
  | |- context [if ?b then rotationA m else rotationB m] => destruct b
  end; intros H.
  - destruct (App.findIndex_number outNum (rotationA m)) as [i|] eqn:Hi;
      [|injection H as <-; left; split;
        [left; apply findIndex_number_none; exact Hi | reflexivity]].
    destruct (App.findIndex_number inNum (benchA m)) as [j|] eqn:Hj;
      [|injection H as <-; left; split;
        [right; apply findIndex_number_none; exact Hj | reflexivity]].
    destruct (findIndex_number_lookup _ _ _ Hi) as (pOut & HpOut & HnOut).
    destruct (findIndex_number_lookup _ _ _ Hj) as (pIn & HpIn & HnIn).
    rewrite HpOut, HpIn in H. injection H as <-.
    right. exists i, j, pOut, pIn.
    repeat apply conj; try reflexivity; try assumption.
    + apply findIndex_number_first; exact Hi.
    + apply findIndex_number_first; exact Hj.
  - destruct (App.findIndex_number outNum (rotationB m)) as [i|] eqn:Hi;
      [|injection H as <-; left; split;
        [left; apply findIndex_number_none; exact Hi | reflexivity]].
    destruct (App.findIndex_number inNum (benchB m)) as [j|] eqn:Hj;
      [|injection H as <-; left; split;
        [right; apply findIndex_number_none; exact Hj | reflexivity]].
    destruct (findIndex_number_lookup _ _ _ Hi) as (pOut & HpOut & HnOut).
    destruct (findIndex_number_lookup _ _ _ Hj) as (pIn & HpIn & HnIn).
    rewrite HpOut, HpIn in H. injection H as <-.
    right. exists i, j, pOut, pIn.
    repeat apply conj; try reflexivity; try assumption.
    + apply findIndex_number_first; exact Hi.
    + apply findIndex_number_first; exact Hj.
Qed.

Lemma confirmed_sub_exchanges_witness :
  let isTeamA :=
    match App.find_fixture (Tournament.fixtures tournament_ab) (matchId first_point) with
    | Some fixture => bool_decide ("team-a" = MatchFixture.teamAId fixture)
    | None => false
    end in
  let rotation := if isTeamA then rotationA first_point else rotationB first_point in
  let bench := if isTeamA then benchA first_point else benchB first_point in
  (((forall p, In p rotation -> Player.number p <> 2)
    \/ (forall p, In p bench -> Player.number p <> 7))
   /\ after_sub = first_point)
  \/ exists i j pOut pIn,
       rotation !! i = Some pOut /\ Player.number pOut = 2
       /\ (forall k p, (k < i)%nat -> rotation !! k = Some p -> Player.number p <> 2)
       /\ bench !! j = Some pIn /\ Player.number pIn = 7
       /\ (forall k p, (k < j)%nat -> bench !! k = Some p -> Player.number p <> 7)
       /\ (if isTeamA
           then rotationA after_sub = <[i := pIn]> (rotationA first_point)
                /\ benchA after_sub = <[j := pOut]> (benchA first_point)
                /\ substitutionsA after_sub = substitutionsA first_point + 1
                /\ rotationB after_sub = rotationB first_point
                /\ benchB after_sub = benchB first_point
                /\ substitutionsB after_sub = substitutionsB first_point
           else rotationB after_sub = <[i := pIn]> (rotationB first_point)
                /\ benchB after_sub = <[j := pOut]> (benchB first_point)
                /\ substitutionsB after_sub = substitutionsB first_point + 1
                /\ rotationA after_sub = rotationA first_point
                /\ benchA after_sub = benchA first_point
                /\ substitutionsA after_sub = substitutionsA first_point)
       /\ matchId after_sub = matchId first_point /\ config after_sub = config first_point
       /\ status after_sub = status first_point
       /\ currentSet after_sub = currentSet first_point /\ sets after_sub = sets first_point
       /\ servingTeamId after_sub = servingTeamId first_point
       /\ scoreA after_sub = scoreA first_point /\ scoreB after_sub = scoreB first_point
       /\ timeoutsA after_sub = timeoutsA first_point
       /\ timeoutsB after_sub = timeoutsB first_point
       /\ requests after_sub = requests first_point.
Proof.
  apply (confirmed_sub_exchanges tournament_ab first_point "team-a" 2 7 after_sub).
  reflexivity.
Defined.

Lemma handleConfirmSub_swaps_witness :
  let m' := settle (App.handleConfirmSub (Some tournament_ab) (Some first_point)
                      (Some "team-a") (Some 2) (Some 7)) first_point in
  length (rotationA m') = length (rotationA first_point)
  /\ length (rotationB m') = length (rotationB first_point)
  /\ Permutation (rotationA m' ++ benchA m') (rotationA first_point ++ benchA first_point)
  /\ Permutation (rotationB m' ++ benchB m') (rotationB first_point ++ benchB first_point).
Proof.
  apply (handleConfirmSub_swaps (Some tournament_ab) first_point (Some "team-a")
           (Some 2) (Some 7)).
  reflexivity.
Defined.

Lemma handleUpdateRotation_partitions_witness :
  let m' := settle (App.handleUpdateRotation (Some tournament_ab) (Some first_point)
                      (Some "team-a") [Some 8; Some 2; Some 3; Some 4; Some 5; Some 6])
                   first_point in
  length (rotationA m') = 6%nat
  /\ (forall p, In p (rotationA m') -> In p (Team.players team_a))
  /\ (forall p, In p (benchA m')
                <-> In p (Team.players team_a) /\ App.in_rotation (rotationA m') p = false)
  /\ rotationB m' = rotationB first_point /\ benchB m' = benchB first_point.
Proof.
  apply (handleUpdateRotation_partitions tournament_ab first_point "team-a"
           [Some 8; Some 2; Some 3; Some 4; Some 5; Some 6] _ team_a); reflexivity.
Defined.

Lemma point_for_A_effect fixture m :
  point_effect fixture (Some SideA) m (App.point_for_A (MatchFixture.teamAId fixture) m).
Proof.
  unfold point_effect, App.point_for_A.
  destruct (decide (servingTeamId m = MatchFixture.teamAId fixture)) as [He|Hne].
  - rewrite (bool_decide_eq_false_2 (servingTeamId m <> _)) by tauto.
    rewrite bool_decide_eq_true_2 by exact He. cbn. auto 10.
  - rewrite (bool_decide_eq_true_2 (servingTeamId m <> _)) by exact Hne.
    rewrite bool_decide_eq_false_2 by exact Hne. cbn. auto 10.
Qed.

Lemma point_for_B_effect fixture m :
  point_effect fixture (Some SideB) m (App.point_for_B (MatchFixture.teamBId fixture) m).
Proof.
  unfold point_effect, App.point_for_B.
  destruct (decide (servingTeamId m = MatchFixture.teamBId fixture)) as [He|Hne].
  - rewrite (bool_decide_eq_false_2 (servingTeamId m <> _)) by tauto.
    rewrite bool_decide_eq_true_2 by exact He. cbn. auto 10.
  - rewrite (bool_decide_eq_true_2 (servingTeamId m <> _)) by exact Hne.
    rewrite bool_decide_eq_false_2 by exact Hne. cbn. auto 10.
Qed.

Lemma point_for_A_config a m :
  config (App.point_for_A a m) = config m /\ status (App.point_for_A a m) = status m.
Proof. unfold App.point_for_A. case_bool_decide; split; reflexivity. Qed.

Lemma point_for_B_config b m :
  config (App.point_for_B b m) = config m /\ status (App.point_for_B b m) = status m.
Proof. unfold App.point_for_B. case_bool_decide; split; reflexivity. Qed.

(** The root [handlePoint], for a known fixture and a match that is not
    over: what it does to the players, the serve and the scores, and the
    status it leaves. *)
Lemma root_handlePoint_fields tournament fixture m teamId type playerId m' :
  App.find_fixture (Tournament.fixtures tournament) (matchId m) = Some fixture ->
  status m <> finished ->
  App.handlePoint (Some tournament) (Some m) teamId type playerId = Updates m' ->
  point_effect fixture (point_side fixture teamId type) m m'
  /\ currentSet m' = currentSet m
  /\ (if App.setFinished m (scoreA m') (scoreB m')
         && match type with yellow_card => false | _ => true end
      then status m' = finished \/ status m' = finished_set
      else status m' = match status m with warmup | paused => playing | st => st end).
Proof.
  intros Hfix Hst. unfold App.handlePoint. rewrite Hfix. cbv zeta.
  match goal with
  | |- context [App.setFinished m (scoreA ?s) (scoreB ?s)] => set (scored := s)
  end.
  assert (point_effect fixture (point_side fixture teamId type) m scored
          /\ currentSet scored = currentSet m) as (Heff & Hcur).
  { subst scored. unfold point_side.
    destruct type; try case_bool_decide;
      first [ split; [apply point_for_A_effect | apply point_for_A_board]
            | split; [apply point_for_B_effect | apply point_for_B_board]
            | split; [unfold point_effect; auto 10 | auto] ]. }
  clearbody scored.
  assert (forall st l, point_effect fixture (point_side fixture teamId type) m
                         (with_sets l (with_status st scored))) as Heff'.
  { intros st l. unfold point_effect in *.
    destruct (point_side fixture teamId type) as [[|]|]; cbn; exact Heff. }
  destruct (status m) eqn:Hs; try congruence; intros H;
    (destruct (App.setFinished m (scoreA scored) (scoreB scored)
               && match type with yellow_card => false | _ => true end) eqn:Hfin;
     [ destruct (winsA _) as [wA|]; [|discriminate H];
       destruct (winsB _) as [wB|]; [|discriminate H];
       destruct (_ || _); injection H as <-
     | injection H as <- ];
     cbn; rewrite Hfin; (split; [apply Heff'|]); auto).
Qed.

(** A point in the root shell.  For a known fixture and a match that is
    not over, [handlePoint] gives no point for a yellow card, a point to the
    other side for a red card and a point to the scoring side otherwise
    (every [teamId] but team A's counts as side B).  The side that gets the
    point scores exactly one; if it was not serving it takes the serve and
    rotates by one position, else serve and rotation stay.  The other side's
    rotation and both benches are untouched, so each rotation keeps its
    players. *)
Theorem root_point_effect tournament fixture m teamId type playerId m' :
  App.find_fixture (Tournament.fixtures tournament) (matchId m) = Some fixture ->
  status m <> finished ->
  App.handlePoint (Some tournament) (Some m) teamId type playerId = Updates m' ->
  point_effect fixture (point_side fixture teamId type) m m'
  /\ Permutation (rotationA m') (rotationA m)
  /\ Permutation (rotationB m') (rotationB m).
Proof.
  intros Hfix Hst H.
  destruct (root_handlePoint_fields _ _ _ _ _ _ _ Hfix Hst H) as (Heff & _).
  split; [exact Heff|].
  assert (forall l, Permutation (App.rotateTeam l) l) as Hrot.
  { intros [|p r]; [reflexivity|]. simpl. symmetry. apply Permutation_cons_append. }
  unfold point_effect in Heff. destruct Heff as (_ & _ & Heff).
  destruct (point_side fixture teamId type) as [[|]|].
  - destruct Heff as (_ & _ & HB & HA). rewrite HB.
    destruct (bool_decide _); destruct HA as [_ ->]; auto.
  - destruct Heff as (_ & _ & HA & HB). rewrite HA.
    destruct (bool_decide _); destruct HB as [_ ->]; auto.
  - destruct Heff as (_ & _ & _ & -> & ->). auto.
Qed.

Lemma root_point_effect_witness :
  let m' := settle (App.handlePoint (Some tournament_ab) (Some first_point) "team-b" ace None)
                   first_point in
  point_effect fixture_ab (point_side fixture_ab "team-b" ace) first_point m'
  /\ Permutation (rotationA m') (rotationA first_point)
  /\ Permutation (rotationB m') (rotationB first_point).
Proof.
  apply (root_point_effect tournament_ab fixture_ab first_point "team-b" ace None);
    [reflexivity | discriminate | reflexivity].
Defined.

Lemma setFinished_decided m a b :
  App.setFinished m a b = true <-> set_decided m a b.
Proof.
  unfold App.setFinished, set_decided.
  rewrite andb_true_iff, orb_true_iff, !Z.leb_le. reflexivity.
Qed.

(** When a set ends in the root shell.  After a point in a match that is
    not over, the status is [finished_set] or [finished] exactly when the
    point was awarded (no yellow card) and a side then has the points to win
    the set, the tie-break points in the deciding set, with a lead of two;
    otherwise a warm-up or a pause turns into play and any other status is
    kept. *)
Theorem root_set_finish_rule tournament fixture m teamId type playerId m' :
  App.find_fixture (Tournament.fixtures tournament) (matchId m) = Some fixture ->
  status m <> finished ->
  App.handlePoint (Some tournament) (Some m) teamId type playerId = Updates m' ->
  (type <> yellow_card /\ set_decided m (scoreA m') (scoreB m') ->
   status m' = finished \/ status m' = finished_set)
  /\ (type = yellow_card \/ ~ set_decided m (scoreA m') (scoreB m') ->
      status m' = match status m with warmup | paused => playing | st => st end).
Proof.
  intros Hfix Hst H.
  destruct (root_handlePoint_fields _ _ _ _ _ _ _ Hfix Hst H) as (_ & _ & Hstatus).
  destruct (App.setFinished m (scoreA m') (scoreB m')) eqn:Hfin.
  - apply setFinished_decided in Hfin. split.
    + intros [Hty _]. destruct type; try congruence; exact Hstatus.
    + intros [-> | Hno]; [exact Hstatus | contradiction].
  - assert (~ set_decided m (scoreA m') (scoreB m')) as Hno.
    { rewrite <- setFinished_decided. congruence. }
    simpl in Hstatus. split; [intros [_ Hyes]; contradiction | intros _; exact Hstatus].
Qed.

Lemma root_set_finish_rule_witness :
  let m' := settle (App.handlePoint (Some tournament_ab) (Some set_point) "team-a" block None)
                   set_point in
  (block <> yellow_card /\ set_decided set_point (scoreA m') (scoreB m') ->
   status m' = finished \/ status m' = finished_set)
  /\ (block = yellow_card \/ ~ set_decided set_point (scoreA m') (scoreB m') ->
      status m' = match status set_point with warmup | paused => playing | st => st end).
Proof.
  apply (root_set_finish_rule tournament_ab fixture_ab set_point "team-a" block None);
    [reflexivity | discriminate | reflexivity].
Defined.

(** Taking a point back.  In the root shell, a point awarded for an attack,
    a block, an ace or an opponent error and then subtracted from the same
    team leaves both scores and every entry of [sets], the history of the
    current set included, as they were before the point; the status is
    [playing].  (Serve and rotation are not part of what is taken back.) *)
Theorem point_then_subtract_restores tournament fixture m teamId type playerId m1 s h :
  App.find_fixture (Tournament.fixtures tournament) (matchId m) = Some fixture ->
  status m <> finished ->
  type <> yellow_card -> type <> red_card ->
  0 <= scoreA m -> 0 <= scoreB m ->
  1 <= currentSet m ->
  at_index (sets m) (currentSet m - 1) = Some s ->
  MatchSet.scoreA s = scoreA m -> MatchSet.scoreB s = scoreB m ->
  MatchSet.history s = Some h ->
  App.handlePoint (Some tournament) (Some m) teamId type playerId = Updates m1 ->
  exists m2,
    App.handleSubtractPoint (Some tournament) true (Some m1) teamId = Updates m2
    /\ scoreA m2 = scoreA m
    /\ scoreB m2 = scoreB m
    /\ status m2 = playing
    /\ forall i, at_index (sets m2) i = at_index (sets m) i.
Proof.
  intros Hfix Hst Hy Hr HA HB Hcur Hs HsA HsB Hh H.
  assert (matchId m1 = matchId m /\ currentSet m1 = currentSet m
          /\ (if bool_decide (teamId = MatchFixture.teamAId fixture)
              then scoreA m1 = scoreA m + 1 /\ scoreB m1 = scoreB m
              else scoreA m1 = scoreA m /\ scoreB m1 = scoreB m + 1)
          /\ sets m1
             = store_index (spread (sets m)) (currentSet m - 1)
                 {| MatchSet.scoreA := scoreA m1;
                    MatchSet.scoreB := scoreB m1;
                    MatchSet.history :=
                      Some (h ++ [ PointLog.mk teamId playerId type
                                     (scoreSnapshot (scoreA m1) (scoreB m1)) ]);
                    MatchSet.durationMinutes := MatchSet.durationMinutes s |})
    as (Hid & Hcur1 & Hscore & Hsets).
  { revert H. unfold App.handlePoint. rewrite Hfix. cbv zeta.
    rewrite at_index_spread, Hs. simpl default. rewrite Hh. simpl default.
    match goal with
    | |- context [App.setFinished m (scoreA ?x) (scoreB ?x)] => set (scored := x)
    end.
    assert (matchId scored = matchId m /\ currentSet scored = currentSet m
            /\ (if bool_decide (teamId = MatchFixture.teamAId fixture)
                then scoreA scored = scoreA m + 1 /\ scoreB scored = scoreB m
                else scoreA scored = scoreA m /\ scoreB scored = scoreB m + 1))
      as (Hid & Hc & Hsc).
    { subst scored. unfold App.point_for_A, App.point_for_B.
      destruct type; try congruence;
        destruct (bool_decide (teamId = MatchFixture.teamAId fixture));
        case_bool_decide; cbn; auto. }
    clearbody scored.
    destruct (status m) eqn:Hstatus; try congruence; intros H;
      repeat board_case; cbn; rewrite ?Hc; auto. }
  unfold App.handleSubtractPoint. rewrite Hid, Hfix. cbv zeta.
  rewrite Hcur1, Hsets, at_index_spread, at_index_store_eq by lia. simpl default.
  rewrite removelast_last.
  destruct (bool_decide (teamId = MatchFixture.teamAId fixture)); simpl;
    destruct Hscore as [HA1 HB1].
  - replace (0 <? scoreA m1) with true by lia.
    eexists. split; [reflexivity|]. cbn.
    repeat split; try lia. intros i.
    destruct (decide (i = currentSet m - 1)) as [->|Hne].
    + rewrite at_index_store_eq by lia. rewrite Hs. f_equal.
      destruct s; simpl in *. subst. f_equal; lia.
    + rewrite at_index_store_ne, at_index_spread, at_index_store_ne, at_index_spread
        by exact Hne. reflexivity.
  - replace (0 <? scoreB m1) with true by lia.
    eexists. split; [reflexivity|]. cbn.
    repeat split; try lia. intros i.
    destruct (decide (i = currentSet m - 1)) as [->|Hne].
    + rewrite at_index_store_eq by lia. rewrite Hs. f_equal.
      destruct s; simpl in *. subst. f_equal; lia.
    + rewrite at_index_store_ne, at_index_spread, at_index_store_ne, at_index_spread
        by exact Hne. reflexivity.
Qed.

Lemma point_then_subtract_restores_witness :
  exists m2,
    App.handleSubtractPoint (Some tournament_ab) true
      (Some (settle (App.handlePoint (Some tournament_ab) (Some first_point) "team-b" ace None)
                    first_point)) "team-b"
    = Updates m2
    /\ scoreA m2 = scoreA first_point
    /\ scoreB m2 = scoreB first_point
    /\ status m2 = playing
    /\ forall i, at_index (sets m2) i = at_index (sets first_point) i.
Proof.
  eapply (point_then_subtract_restores tournament_ab fixture_ab first_point "team-b" ace None);
    try reflexivity; try discriminate; simpl; lia.
Defined.

(* ------------------------------------------------------------------ *)
(** *** Rotations                                                      *)
(* ------------------------------------------------------------------ *)

Lemma rotateTeam_iter (l : list Player.t) (n : nat) :
  (n <= length l)%nat -> Nat.iter n App.rotateTeam l = drop n l ++ take n l.
Proof.
  induction n as [|n IH]; intros Hn.
  - simpl. rewrite drop_0, app_nil_r. reflexivity.
  - simpl Nat.iter. rewrite IH by lia.
    destruct (lookup_lt_is_Some_2 l n) as [x Hx]; [lia|].
    rewrite (drop_S _ _ _ Hx), (take_S_r _ _ _ Hx). simpl.
    rewrite <- app_assoc. reflexivity.
Qed.

Lemma rotate_back_rotateTeam (l : list Player.t) :
  SrcApp.rotate_back (App.rotateTeam l) = l.
Proof.
  destruct l as [|p r]; [reflexivity|].
  unfold SrcApp.rotate_back. simpl. rewrite last_snoc, removelast_last. reflexivity.
Qed.

Lemma rotateTeam_rotate_back (l : list Player.t) :
  App.rotateTeam (SrcApp.rotate_back l) = l.
Proof.
  unfold SrcApp.rotate_back.
  destruct l as [|q r] using rev_ind; [reflexivity|].
  rewrite last_snoc, removelast_last. reflexivity.
Qed.

Lemma rotate_back_permutation (l : list Player.t) :
  Permutation (SrcApp.rotate_back l) l.
Proof.
  unfold SrcApp.rotate_back.
  destruct l as [|q r] using rev_ind; [reflexivity|].
  rewrite last_snoc, removelast_last.
  apply Permutation_cons_append.
Qed.

(** The rotation of the root shell, [rotateTeam], moves the first player
    to the end; after as many rotations as there are players on court the
    line-up is the one it started from (six side-outs for six players), and
    after [n] of them it is the line-up cut at position [n] with the two
    parts exchanged. *)
Theorem rotation_full_cycle (l : list Player.t) :
  Nat.iter (length l) App.rotateTeam l = l
  /\ forall n, (n <= length l)%nat ->
       Nat.iter n App.rotateTeam l = drop n l ++ take n l.
Proof.
  split; [|intros n; apply rotateTeam_iter].
  rewrite rotateTeam_iter by lia.
  rewrite drop_all, firstn_all. reflexivity.
Qed.

(** The two shells rotate in opposite directions: [rotateTeam] of the root
    [App.tsx] sends the first player to the end, the [pop]/[unshift] of
    [src/App.tsx] brings the last player to the front, so that each undoes the
    other. *)
Theorem shells_rotate_opposite_ways (l : list Player.t) :
  SrcApp.rotate_back (App.rotateTeam l) = l
  /\ App.rotateTeam (SrcApp.rotate_back l) = l.
Proof. split; [apply rotate_back_rotateTeam | apply rotateTeam_rotate_back]. Qed.

(* ------------------------------------------------------------------ *)
(** *** A point in the shell under [src/]                              *)
(* ------------------------------------------------------------------ *)

(** A point in [src/App.tsx]: the two scores together go up by at most
    one, and not at all on a yellow card; the benches are untouched; each
    rotation holds the same players as before, and at most one of the two
    is turned. *)
Theorem src_point_effect teams m teamId type playerId m' :
  SrcApp.handlePoint teams (Some m) teamId type playerId = Updates m' ->
  ((scoreA m' = scoreA m /\ scoreB m' = scoreB m)
   \/ (scoreA m' = scoreA m + 1 /\ scoreB m' = scoreB m)
   \/ (scoreA m' = scoreA m /\ scoreB m' = scoreB m + 1))
  /\ (type = yellow_card -> scoreA m' = scoreA m /\ scoreB m' = scoreB m
                            /\ rotationA m' = rotationA m /\ rotationB m' = rotationB m
                            /\ servingTeamId m' = servingTeamId m)
  /\ benchA m' = benchA m /\ benchB m' = benchB m
  /\ Permutation (rotationA m') (rotationA m)
  /\ Permutation (rotationB m') (rotationB m)
  /\ (rotationA m' = rotationA m \/ rotationB m' = rotationB m).
Proof.
  unfold SrcApp.handlePoint. intros H. cbv zeta in H.
  destruct (status m); try discriminate H.
  all: match type of H with
       | context [let '(a, b) := ?p in _] =>
           remember p as scores eqn:Hscores; destruct scores as [nextScoreA nextScoreB]
       end.
  all: destruct (at_index _ _) as [current|]; [|discriminate H].
  all: injection H as <-; cbn.
  all: assert ((nextScoreA = scoreA m /\ nextScoreB = scoreB m)
               \/ (nextScoreA = scoreA m + 1 /\ nextScoreB = scoreB m)
               \/ (nextScoreA = scoreA m /\ nextScoreB = scoreB m + 1)) as Hs
         by (revert Hscores;
             repeat match goal with
                    | |- context [if ?b then _ else _] => destruct b
                    end; intros [= -> ->]; auto).
  all: split; [exact Hs|].
  all: split;
         [ intros ->; simpl in Hscores; injection Hscores as -> ->; simpl; auto |].
  all: split; [reflexivity|]; split; [reflexivity|].
  all: match goal with
       | |- context [if ?s && negb ?w then SrcApp.rotate_back (rotationB _) else _] =>
           generalize s as sideOut; generalize w as pointWinnerIsA
       end.
  all: intros [|] [|]; simpl; auto using rotate_back_permutation.
Qed.

Lemma src_point_effect_witness :
  ((scoreA first_point = scoreA opening_match /\ scoreB first_point = scoreB opening_match)
   \/ (scoreA first_point = scoreA opening_match + 1
       /\ scoreB first_point = scoreB opening_match)
   \/ (scoreA first_point = scoreA opening_match
       /\ scoreB first_point = scoreB opening_match + 1))
  /\ (attack = yellow_card ->
      scoreA first_point = scoreA opening_match /\ scoreB first_point = scoreB opening_match
      /\ rotationA first_point = rotationA opening_match
      /\ rotationB first_point = rotationB opening_match
      /\ servingTeamId first_point = servingTeamId opening_match)
  /\ benchA first_point = benchA opening_match /\ benchB first_point = benchB opening_match
  /\ Permutation (rotationA first_point) (rotationA opening_match)
  /\ Permutation (rotationB first_point) (rotationB opening_match)
  /\ (rotationA first_point = rotationA opening_match
      \/ rotationB first_point = rotationB opening_match).
Proof.
  apply (src_point_effect [team_a; team_b] opening_match "team-a" attack (Some "a4")).
  reflexivity.
Defined.

(* ------------------------------------------------------------------ *)
(** *** Starting a match                                               *)
(* ------------------------------------------------------------------ *)

(** [startMatch] of [src/App.tsx] cuts each roster after its sixth player:
    the rotation is the first six players of the roster, or all of them
    when there are fewer, and the bench is the rest; rotation followed by
    bench is the roster, in the roster's order, and the bench is empty
    unless the rotation is full.  The match starts at set 1, 0-0, in
    warm-up, with team A serving. *)
Theorem src_start_splits_roster teams fixture m :
  SrcApp.startMatch teams fixture = Updates m ->
  exists teamA teamB,
    SrcApp.find_team teams (MatchFixture.teamAId fixture) = Some teamA
    /\ SrcApp.find_team teams (MatchFixture.teamBId fixture) = Some teamB
    /\ rotationA m = take 6 (Team.players teamA)
    /\ rotationB m = take 6 (Team.players teamB)
    /\ benchA m = drop 6 (Team.players teamA)
    /\ benchB m = drop 6 (Team.players teamB)
    /\ length (rotationA m) = Nat.min 6 (length (Team.players teamA))
    /\ length (rotationB m) = Nat.min 6 (length (Team.players teamB))
    /\ rotationA m ++ benchA m = Team.players teamA
    /\ rotationB m ++ benchB m = Team.players teamB
    /\ (benchA m <> [] -> length (rotationA m) = 6%nat)
    /\ (benchB m <> [] -> length (rotationB m) = 6%nat)
    /\ status m = warmup /\ currentSet m = 1 /\ scoreA m = 0 /\ scoreB m = 0
    /\ servingTeamId m = Team.id teamA.
Proof.
  unfold SrcApp.startMatch. intros H.
  destruct (SrcApp.find_team teams (MatchFixture.teamAId fixture)) as [teamA|];
    [|discriminate H].
  destruct (SrcApp.find_team teams (MatchFixture.teamBId fixture)) as [teamB|];
    [|discriminate H].
  injection H as <-. exists teamA, teamB. cbn -[Nat.min]. unfold SrcApp.getRotation.
  repeat split; try apply take_drop; try apply length_take.
  - intros Hb. rewrite length_take. apply Nat.min_l.
    destruct (Nat.le_gt_cases 6 (length (Team.players teamA))) as [Hl|Hl]; [exact Hl|].
    exfalso. apply Hb. apply drop_ge. lia.
  - intros Hb. rewrite length_take. apply Nat.min_l.
    destruct (Nat.le_gt_cases 6 (length (Team.players teamB))) as [Hl|Hl]; [exact Hl|].
    exfalso. apply Hb. apply drop_ge. lia.
Qed.

Lemma src_start_splits_roster_witness :
  exists teamA teamB,
    SrcApp.find_team [team_a; team_b] (MatchFixture.teamAId fixture_ab) = Some teamA
    /\ SrcApp.find_team [team_a; team_b] (MatchFixture.teamBId fixture_ab) = Some teamB
    /\ rotationA opening_match = take 6 (Team.players teamA)
    /\ rotationB opening_match = take 6 (Team.players teamB)
    /\ benchA opening_match = drop 6 (Team.players teamA)
    /\ benchB opening_match = drop 6 (Team.players teamB)
    /\ length (rotationA opening_match) = Nat.min 6 (length (Team.players teamA))
    /\ length (rotationB opening_match) = Nat.min 6 (length (Team.players teamB))
    /\ rotationA opening_match ++ benchA opening_match = Team.players teamA
    /\ rotationB opening_match ++ benchB opening_match = Team.players teamB
    /\ (benchA opening_match <> [] -> length (rotationA opening_match) = 6%nat)
    /\ (benchB opening_match <> [] -> length (rotationB opening_match) = 6%nat)
    /\ status opening_match = warmup /\ currentSet opening_match = 1
    /\ scoreA opening_match = 0 /\ scoreB opening_match = 0
    /\ servingTeamId opening_match = Team.id teamA.
Proof.
  apply (src_start_splits_roster [team_a; team_b] fixture_ab opening_match).
  reflexivity.
Defined.

Lemma filter_none {A} (f : A -> bool) (l : list A) :
  (forall x, In x l -> f x = false) -> List.filter f l = [].
Proof.
  induction l as [|x l IH]; intros H; [reflexivity|].
  simpl. rewrite (H x) by (left; reflexivity). apply IH.
  intros y Hy. apply H. right. exact Hy.
Qed.

Lemma filter_every {A} (f : A -> bool) (l : list A) :
  (forall x, In x l -> f x = true) -> List.filter f l = l.
Proof.
  induction l as [|x l IH]; intros H; [reflexivity|].
  simpl. rewrite (H x) by (left; reflexivity). f_equal. apply IH.
  intros y Hy. apply H. right. exact Hy.
Qed.

(** Filtering a roster by "not in the rotation" leaves the players after
    the rotation when no identifier occurs twice. *)
Lemma bench_of_prefix (front back : list Player.t) :
  NoDup (map Player.id (front ++ back)) ->
  List.filter (fun p => negb (App.in_rotation front p)) (front ++ back) = back.
Proof.
  intros Hnd. rewrite List.filter_app, filter_none, filter_every; [reflexivity| |].
  - intros p Hp. unfold App.in_rotation.
    destruct (existsb _ front) eqn:He; [|reflexivity].
    apply existsb_exists in He. destruct He as (r & Hr & Heq).
    apply bool_decide_eq_true in Heq.
    rewrite map_app in Hnd. apply NoDup_app in Hnd. destruct Hnd as (_ & Hdisj & _).
    exfalso. apply (Hdisj (Player.id r)).
    + apply list_elem_of_In, in_map, Hr.
    + rewrite Heq. apply list_elem_of_In, in_map, Hp.
  - intros p Hp. unfold App.in_rotation. apply negb_false_iff, existsb_exists.
    exists p. split; [exact Hp | apply bool_decide_eq_true; reflexivity].
Qed.

(** Being on court, for the bench filter: some player of the rotation has
    the identifier. *)
Lemma not_in_rotation rotation p :
  App.in_rotation rotation p = false
  <-> forall r, In r rotation -> Player.id r <> Player.id p.
Proof.
  unfold App.in_rotation. split.
  - intros He r Hr Heq.
    assert (existsb (fun r0 => bool_decide (Player.id r0 = Player.id p)) rotation = true) as Ht.
    { apply existsb_exists. exists r. split; [exact Hr | apply bool_decide_eq_true, Heq]. }
    rewrite He in Ht. discriminate Ht.
  - intros Hall. destruct (existsb _ rotation) eqn:He; [|reflexivity].
    apply existsb_exists in He. destruct He as (r & Hr & Heq).
    apply bool_decide_eq_true in Heq. destruct (Hall r Hr Heq).
Qed.

(** [confirmStartMatch] of the root [App.tsx] takes the first six players
    of each roster as the rotation, or all of them when there are fewer,
    and, as the bench, exactly the roster players whose identifier no
    player of the rotation has.  When no identifier occurs twice in a
    roster, rotation followed by bench is that roster; and the scoreboard
    starts at set 1, 0-0, warm-up, team A serving, with the rules that were
    chosen. *)
Theorem root_start_splits_roster tournament fixtureId matchConfig m :
  App.confirmStartMatch (Some tournament) (Some fixtureId) matchConfig = Updates m ->
  exists fixture teamA teamB,
    App.find_fixture (Tournament.fixtures tournament) fixtureId = Some fixture
    /\ App.find_team (Tournament.teams tournament) (MatchFixture.teamAId fixture) = Some teamA
    /\ App.find_team (Tournament.teams tournament) (MatchFixture.teamBId fixture) = Some teamB
    /\ rotationA m = take 6 (Team.players teamA)
    /\ rotationB m = take 6 (Team.players teamB)
    /\ length (rotationA m) = Nat.min 6 (length (Team.players teamA))
    /\ length (rotationB m) = Nat.min 6 (length (Team.players teamB))
    /\ (NoDup (map Player.id (Team.players teamA)) ->
        rotationA m ++ benchA m = Team.players teamA)
    /\ (NoDup (map Player.id (Team.players teamB)) ->
        rotationB m ++ benchB m = Team.players teamB)
    /\ (forall p, In p (benchA m)
                  <-> In p (Team.players teamA)
                      /\ forall r, In r (rotationA m) -> Player.id r <> Player.id p)
    /\ (forall p, In p (benchB m)
                  <-> In p (Team.players teamB)
                      /\ forall r, In r (rotationB m) -> Player.id r <> Player.id p)
    /\ config m = matchConfig /\ matchId m = fixtureId
    /\ status m = warmup /\ currentSet m = 1 /\ scoreA m = 0 /\ scoreB m = 0
    /\ servingTeamId m = Team.id teamA.
Proof.
  unfold App.confirmStartMatch. intros H.
  destruct (_ || _); [discriminate H|].
  destruct (App.find_fixture _ _) as [fixture|]; [|discriminate H].
  destruct (App.find_team _ (MatchFixture.teamAId fixture)) as [teamA|] eqn:HA;
    [|discriminate H].
  destruct (App.find_team _ (MatchFixture.teamBId fixture)) as [teamB|] eqn:HB;
    [|discriminate H].
  cbv zeta in H. injection H as <-. exists fixture, teamA, teamB. cbn -[Nat.min].
  repeat apply conj; try reflexivity; try assumption; try apply length_take.
  - intros Hnd. rewrite <- (take_drop 6 (Team.players teamA)) at 2 3.
    rewrite bench_of_prefix by (rewrite take_drop; exact Hnd). reflexivity.
  - intros Hnd. rewrite <- (take_drop 6 (Team.players teamB)) at 2 3.
    rewrite bench_of_prefix by (rewrite take_drop; exact Hnd). reflexivity.
  - intros p. rewrite filter_In, negb_true_iff, not_in_rotation. reflexivity.
  - intros p. rewrite filter_In, negb_true_iff, not_in_rotation. reflexivity.
Qed.

Lemma root_start_splits_roster_witness :
  exists fixture teamA teamB,
    App.find_fixture (Tournament.fixtures tournament_ab) "m1" = Some fixture
    /\ App.find_team (Tournament.teams tournament_ab) (MatchFixture.teamAId fixture)
       = Some teamA
    /\ App.find_team (Tournament.teams tournament_ab) (MatchFixture.teamBId fixture)
       = Some teamB
    /\ rotationA opening_match = take 6 (Team.players teamA)
    /\ rotationB opening_match = take 6 (Team.players teamB)
    /\ length (rotationA opening_match) = Nat.min 6 (length (Team.players teamA))
    /\ length (rotationB opening_match) = Nat.min 6 (length (Team.players teamB))
    /\ (NoDup (map Player.id (Team.players teamA)) ->
        rotationA opening_match ++ benchA opening_match = Team.players teamA)
    /\ (NoDup (map Player.id (Team.players teamB)) ->
        rotationB opening_match ++ benchB opening_match = Team.players teamB)
    /\ (forall p, In p (benchA opening_match)
                  <-> In p (Team.players teamA)
                      /\ forall r, In r (rotationA opening_match) ->
                                   Player.id r <> Player.id p)
    /\ (forall p, In p (benchB opening_match)
                  <-> In p (Team.players teamB)
                      /\ forall r, In r (rotationB opening_match) ->
                                   Player.id r <> Player.id p)
    /\ config opening_match = MatchConfig.mk 5 25 15 /\ matchId opening_match = "m1"
    /\ status opening_match = warmup /\ currentSet opening_match = 1
    /\ scoreA opening_match = 0 /\ scoreB opening_match = 0
    /\ servingTeamId opening_match = Team.id teamA.
Proof.
  apply (root_start_splits_roster tournament_ab "m1" (MatchConfig.mk 5 25 15) opening_match).
  reflexivity.
Defined.

(* ------------------------------------------------------------------ *)
(** *** From one set to the next                                       *)
(* ------------------------------------------------------------------ *)

(** [handleStartNextSet] of the root shell, on a scoreboard whose current
    set is the last entry of [sets]: when a side has won the sets the match
    needs, the match is finished and the scoreboard stays as it is; otherwise
    one empty set is added and becomes the current one at 0-0, time-outs and
    substitutions are counted from zero again, team A serves the odd sets and
    team B the even ones, and line-ups and benches are kept. *)
Theorem next_set_opens_or_finishes tournament fixture m m' :
  App.find_fixture (Tournament.fixtures tournament) (matchId m) = Some fixture ->
  current_is_last m ->
  App.handleStartNextSet (Some tournament) (Some m) = Updates m' ->
  exists wA wB,
    winsA (sets m) = Some wA /\ winsB (sets m) = Some wB
    /\ rotationA m' = rotationA m /\ rotationB m' = rotationB m
    /\ benchA m' = benchA m /\ benchB m' = benchB m
    /\ if (requiredWins (config m) <=? wA) || (requiredWins (config m) <=? wB)
       then status m' = finished /\ sets m' = sets m /\ currentSet m' = currentSet m
            /\ scoreA m' = scoreA m /\ scoreB m' = scoreB m
       else status m' = playing /\ sets m' = sets m ++ [Item emptySet]
            /\ currentSet m' = currentSet m + 1
            /\ scoreA m' = 0 /\ scoreB m' = 0
            /\ timeoutsA m' = 0 /\ timeoutsB m' = 0
            /\ substitutionsA m' = 0 /\ substitutionsB m' = 0
            /\ servingTeamId m'
               = (if Z.odd (currentSet m + 1) then MatchFixture.teamAId fixture
                  else MatchFixture.teamBId fixture).
Proof.
  intros Hfix (Hcur & Hlen & Hitems).
  unfold App.handleStartNextSet, App.handleSetOperation.
  rewrite Hfix, (spread_items _ Hitems), pad_sets_full by lia.
  cbv zeta. intros H.
  destruct (winsA (sets m)) as [wA|]; [|discriminate H].
  destruct (winsB (sets m)) as [wB|]; [|discriminate H].
  exists wA, wB. split; [reflexivity|]. split; [reflexivity|].
  destruct (_ || _).
  - injection H as <-. cbn. repeat split; reflexivity.
  - replace (currentSet m =? currentSet m - 1 + 1) with true in H by lia.
    replace (Z.of_nat (length (sets m)) <? currentSet m + 1) with true in H by lia.
    injection H as <-. cbn. repeat split; reflexivity.
Qed.

Lemma next_set_opens_or_finishes_witness :
  exists wA wB,
    winsA (sets set_won) = Some wA /\ winsB (sets set_won) = Some wB
    /\ rotationA (settle (App.handleStartNextSet (Some tournament_ab) (Some set_won)) set_won)
       = rotationA set_won
    /\ rotationB (settle (App.handleStartNextSet (Some tournament_ab) (Some set_won)) set_won)
       = rotationB set_won
    /\ benchA (settle (App.handleStartNextSet (Some tournament_ab) (Some set_won)) set_won)
       = benchA set_won
    /\ benchB (settle (App.handleStartNextSet (Some tournament_ab) (Some set_won)) set_won)
       = benchB set_won
    /\ if (requiredWins (config set_won) <=? wA) || (requiredWins (config set_won) <=? wB)
       then status (settle (App.handleStartNextSet (Some tournament_ab) (Some set_won)) set_won)
            = finished
            /\ sets (settle (App.handleStartNextSet (Some tournament_ab) (Some set_won)) set_won)
               = sets set_won
            /\ currentSet
                 (settle (App.handleStartNextSet (Some tournament_ab) (Some set_won)) set_won)
               = currentSet set_won
            /\ scoreA (settle (App.handleStartNextSet (Some tournament_ab) (Some set_won)) set_won)
               = scoreA set_won
            /\ scoreB (settle (App.handleStartNextSet (Some tournament_ab) (Some set_won)) set_won)
               = scoreB set_won
       else status (settle (App.handleStartNextSet (Some tournament_ab) (Some set_won)) set_won)
            = playing
            /\ sets (settle (App.handleStartNextSet (Some tournament_ab) (Some set_won)) set_won)
               = sets set_won ++ [Item emptySet]
            /\ currentSet
                 (settle (App.handleStartNextSet (Some tournament_ab) (Some set_won)) set_won)
               = currentSet set_won + 1
            /\ scoreA (settle (App.handleStartNextSet (Some tournament_ab) (Some set_won)) set_won)
               = 0
            /\ scoreB (settle (App.handleStartNextSet (Some tournament_ab) (Some set_won)) set_won)
               = 0
            /\ timeoutsA
                 (settle (App.handleStartNextSet (Some tournament_ab) (Some set_won)) set_won) = 0
            /\ timeoutsB
                 (settle (App.handleStartNextSet (Some tournament_ab) (Some set_won)) set_won) = 0
            /\ substitutionsA
                 (settle (App.handleStartNextSet (Some tournament_ab) (Some set_won)) set_won) = 0
            /\ substitutionsB
                 (settle (App.handleStartNextSet (Some tournament_ab) (Some set_won)) set_won) = 0
            /\ servingTeamId
                 (settle (App.handleStartNextSet (Some tournament_ab) (Some set_won)) set_won)
               = (if Z.odd (currentSet set_won + 1) then MatchFixture.teamAId fixture_ab
                  else MatchFixture.teamBId fixture_ab).
Proof.
  apply (next_set_opens_or_finishes tournament_ab fixture_ab set_won).
  - reflexivity.
  - repeat split; [simpl; lia | repeat constructor].
  - reflexivity.
Defined.

(* ------------------------------------------------------------------ *)
(** *** The basic fixture                                              *)
(* ------------------------------------------------------------------ *)

Section BasicFixture.
Import GeminiService.

Lemma pairings_length (g : list Team.t) :
  (2 * length (pairings g) = length g * (length g - 1))%nat.
Proof.
  induction g as [|t l IH]; [reflexivity|].
  simpl pairings. rewrite length_app, length_map. simpl length.
  destruct (length l) as [|n]; simpl in *; [lia|].
  rewrite Nat.sub_0_r in *. nia.
Qed.

Lemma pairings_lookup (g : list Team.t) (ti tj : Team.t) :
  (ti, tj) ∈ pairings g
  <-> exists i j, (i < j)%nat /\ g !! i = Some ti /\ g !! j = Some tj.
Proof.
  induction g as [|t l IH]; simpl.
  - split; [intros H; inversion H | intros (i & j & _ & H & _); discriminate H].
  - rewrite elem_of_app, list_elem_of_fmap, IH. split.
    + intros [(tj' & [= -> ->] & Hin) | (i & j & Hij & Hi & Hj)].
      * apply list_elem_of_lookup in Hin. destruct Hin as [k Hk].
        exists 0%nat, (S k). repeat split; [lia | exact Hk].
      * exists (S i), (S j). repeat split; [lia | exact Hi | exact Hj].
    + intros (i & j & Hij & Hi & Hj).
      destruct j as [|j]; [lia|]. destruct i as [|i].
      * left. injection Hi as ->. exists tj. split; [reflexivity|].
        apply list_elem_of_lookup. exists j. exact Hj.
      * right. exists i, j. repeat split; [lia | exact Hi | exact Hj].
Qed.

Lemma generated_fixture_pair dates g name f :
  f ∈ generateGroupFixtures dates g name ->
  group f = name
  /\ (exists k, date f = dates !! (k mod length dates)%nat)
  /\ exists ti tj, (ti, tj) ∈ pairings g /\ teamAId f = Team.id ti /\ teamBId f = Team.id tj.
Proof.
  unfold generateGroupFixtures. intros H.
  apply elem_of_lookup_imap in H. destruct H as (k & [ti tj] & -> & Hk).
  simpl. split; [reflexivity|]. split; [exists k; reflexivity|].
  exists ti, tj. split; [|split; reflexivity].
  apply list_elem_of_lookup. exists k. exact Hk.
Qed.

(** [generateGroupFixtures] is a single round robin: a group of [n] teams
    gets [n (n - 1) / 2] fixtures, all labelled with the group's name; each
    fixture is between a team and a team later in the list, and every two
    positions of the list meet in some fixture, the earlier one as team A. *)
Theorem group_round_robin dates groupTeams groupName :
  (2 * length (generateGroupFixtures dates groupTeams groupName)
   = length groupTeams * (length groupTeams - 1))%nat
  /\ Forall (fun f =>
       group f = groupName
       /\ exists i j ti tj,
            (i < j)%nat /\ groupTeams !! i = Some ti /\ groupTeams !! j = Some tj
            /\ teamAId f = Team.id ti /\ teamBId f = Team.id tj)
       (generateGroupFixtures dates groupTeams groupName)
  /\ forall i j ti tj,
       (i < j)%nat -> groupTeams !! i = Some ti -> groupTeams !! j = Some tj ->
       exists f, f ∈ generateGroupFixtures dates groupTeams groupName
                 /\ teamAId f = Team.id ti /\ teamBId f = Team.id tj.
Proof.
  split; [|split].
  - unfold generateGroupFixtures. rewrite length_imap. apply pairings_length.
  - apply Forall_forall. intros f Hf.
    apply generated_fixture_pair in Hf.
    destruct Hf as (Hg & _ & ti & tj & Hp & HA & HB).
    split; [exact Hg|]. apply pairings_lookup in Hp.
    destruct Hp as (i & j & Hij & Hi & Hj). exists i, j, ti, tj. auto.
  - intros i j ti tj Hij Hi Hj.
    assert ((ti, tj) ∈ pairings groupTeams) as Hp
      by (apply pairings_lookup; exists i, j; auto).
    apply list_elem_of_lookup in Hp. destruct Hp as [k Hk].
    eexists. split.
    + unfold generateGroupFixtures.
      apply (elem_of_lookup_imap_2 _ _ _ _ Hk).
    + split; reflexivity.
Qed.

Lemma lookup_id_inj (g : list Team.t) i j ti tj :
  NoDup (map Team.id g) ->
  g !! i = Some ti -> g !! j = Some tj -> Team.id ti = Team.id tj -> i = j.
Proof.
  intros Hnd Hi Hj Heq.
  apply (NoDup_lookup _ i j (Team.id ti) Hnd).
  - change (map Team.id g) with (Team.id <$> g). rewrite list_lookup_fmap, Hi. reflexivity.
  - change (map Team.id g) with (Team.id <$> g). rewrite list_lookup_fmap, Hj, Heq.
    reflexivity.
Qed.

Lemma pairings_keys_nodup (g : list Team.t) :
  NoDup (map Team.id g) ->
  NoDup (map (fun p : Team.t * Team.t => (Team.id (fst p), Team.id (snd p))) (pairings g)).
Proof.
  induction g as [|t l IH]; intros Hnd; [constructor|].
  simpl in Hnd. apply NoDup_cons in Hnd. destruct Hnd as [Hfresh Hnd].
  simpl pairings. rewrite map_app, map_map. simpl.
  apply NoDup_app. split; [|split].
  - rewrite <- (map_map Team.id (fun x => (Team.id t, x))).
    apply (NoDup_fmap_2 (fun x => (Team.id t, x)));
      first [exact Hnd | intros x y [= ->]; reflexivity].
  - intros key H1 H2.
    apply list_elem_of_In, in_map_iff in H1. destruct H1 as (tj & <- & _).
    apply list_elem_of_In, in_map_iff in H2. destruct H2 as ([a b] & [= Ha _] & Hin).
    apply Hfresh. rewrite <- Ha.
    apply list_elem_of_In, pairings_lookup in Hin.
    destruct Hin as (i & _ & _ & Hi & _).
    apply list_elem_of_In, in_map. apply list_elem_of_In.
    apply list_elem_of_lookup. exists i. exact Hi.
  - apply IH, Hnd.
Qed.

(** With team identifiers that are all different, the round robin has no
    rematch: no two fixtures of a group are between the same two teams, in
    either order, and no team is drawn against itself. *)
Theorem group_no_rematch dates groupTeams groupName :
  NoDup (map Team.id groupTeams) ->
  NoDup (map (fun f => (teamAId f, teamBId f))
             (generateGroupFixtures dates groupTeams groupName))
  /\ Forall (fun f =>
       teamAId f <> teamBId f
       /\ Forall (fun f' => ~ (teamAId f' = teamBId f /\ teamBId f' = teamAId f))
                 (generateGroupFixtures dates groupTeams groupName))
       (generateGroupFixtures dates groupTeams groupName).
Proof.
  intros Hnd. split.
  - unfold generateGroupFixtures.
    change (map ?f (imap ?g ?l)) with (f <$> imap g l).
    rewrite fmap_imap. unfold compose. simpl.
    rewrite (imap_const (fun p : Team.t * Team.t => (Team.id (fst p), Team.id (snd p)))).
    apply pairings_keys_nodup, Hnd.
  - apply Forall_forall. intros f Hf.
    apply generated_fixture_pair in Hf.
    destruct Hf as (_ & _ & ti & tj & Hp & HA & HB).
    apply pairings_lookup in Hp. destruct Hp as (i & j & Hij & Hi & Hj).
    split.
    + rewrite HA, HB. intros Heq.
      pose proof (lookup_id_inj _ _ _ _ _ Hnd Hi Hj Heq). lia.
    + apply Forall_forall. intros f' Hf'.
      apply generated_fixture_pair in Hf'.
      destruct Hf' as (_ & _ & ti' & tj' & Hp' & HA' & HB').
      apply pairings_lookup in Hp'. destruct Hp' as (i' & j' & Hij' & Hi' & Hj').
      rewrite HA, HB, HA', HB'. intros [H1 H2].
      pose proof (lookup_id_inj _ _ _ _ _ Hnd Hi' Hj H1).
      pose proof (lookup_id_inj _ _ _ _ _ Hnd Hj' Hi H2). lia.
Qed.

Lemma group_no_rematch_witness :
  NoDup (map (fun f => (teamAId f, teamBId f))
             (generateGroupFixtures ["2024-05-04"; "2024-05-05"]
                [team_a; team_b; team_short] "Grupo A"))
  /\ Forall (fun f =>
       teamAId f <> teamBId f
       /\ Forall (fun f' => ~ (teamAId f' = teamBId f /\ teamBId f' = teamAId f))
                 (generateGroupFixtures ["2024-05-04"; "2024-05-05"]
                    [team_a; team_b; team_short] "Grupo A"))
       (generateGroupFixtures ["2024-05-04"; "2024-05-05"]
          [team_a; team_b; team_short] "Grupo A").
Proof.
  apply (group_no_rematch ["2024-05-04"; "2024-05-05"] [team_a; team_b; team_short] "Grupo A").
  apply (bool_decide_unpack _). vm_compute. exact I.
Defined.

Lemma generated_dates dates g name :
  dates <> [] ->
  Forall (fun f => exists d, date f = Some d /\ d ∈ dates) (generateGroupFixtures dates g name).
Proof.
  intros Hne. apply Forall_forall. intros f Hf.
  apply generated_fixture_pair in Hf. destruct Hf as (_ & (k & Hk) & _).
  destruct (lookup_lt_is_Some_2 dates (k mod length dates)%nat) as [d Hd].
  { apply Nat.mod_upper_bound. destruct dates; [congruence | simpl; lia]. }
  exists d. split; [congruence|]. apply list_elem_of_lookup. eauto.
Qed.

(** No fixture of [generateBasicFixture] is left without a date: each one
    is on one of the days the calendar loop found, or on [startDate] when the
    loop found none. *)
Theorem basic_fixture_dated loop_dates teams startDate :
  Forall (fun f =>
    exists d, date f = Some d
              /\ (d ∈ loop_dates \/ (loop_dates = [] /\ d = startDate)))
    (snd (generateBasicFixture loop_dates teams startDate)).
Proof.
  unfold generateBasicFixture. cbv zeta.
  set (dates := if (length loop_dates =? 0)%nat then _ else _).
  assert (dates <> [] /\ forall d, d ∈ dates ->
            d ∈ loop_dates \/ (loop_dates = [] /\ d = startDate)) as [Hne Hin].
  { subst dates. destruct loop_dates as [|d0 r]; simpl.
    - split; [discriminate|]. intros d Hd. right. split; [reflexivity|].
      apply list_elem_of_singleton in Hd. exact Hd.
    - split; [discriminate|]. auto. }
  assert (forall g name,
            Forall (fun f => exists d, date f = Some d
                      /\ (d ∈ loop_dates \/ (loop_dates = [] /\ d = startDate)))
                   (generateGroupFixtures dates g name)) as Hall.
  { intros g name. eapply Forall_impl; [apply generated_dates, Hne|].
    intros f (d & Hd & Hm). exists d. auto. }
  destruct (8 <? length teams)%nat; simpl; [apply Forall_app; split|]; apply Hall.
Qed.

(** The groups of [generateBasicFixture].  More than eight teams are cut
    into "Grupo A", the first half (the larger one for an odd number), and
    "Grupo B", the rest, and every fixture is between two teams of one group
    and carries that group's name; up to eight teams form one group, in which
    everybody meets everybody. *)
Theorem basic_fixture_groups loop_dates teams startDate :
  ((8 < length teams)%nat ->
   exists idsA idsB,
     fst (generateBasicFixture loop_dates teams startDate)
     = [ ("Grupo A", idsA); ("Grupo B", idsB) ]
     /\ idsA ++ idsB = map Team.id teams
     /\ (length idsA = length idsB \/ length idsA = S (length idsB))
     /\ Forall (fun f =>
          (group f = "Grupo A" /\ teamAId f ∈ idsA /\ teamBId f ∈ idsA)
          \/ (group f = "Grupo B" /\ teamAId f ∈ idsB /\ teamBId f ∈ idsB))
          (snd (generateBasicFixture loop_dates teams startDate)))
  /\ ((length teams <= 8)%nat ->
      fst (generateBasicFixture loop_dates teams startDate)
      = [ ("Grupo Único", map Team.id teams) ]
      /\ (2 * length (snd (generateBasicFixture loop_dates teams startDate))
          = length teams * (length teams - 1))%nat
      /\ Forall (fun f => group f = "Grupo Único")
           (snd (generateBasicFixture loop_dates teams startDate))).
Proof.
  assert (forall dates g name,
            Forall (fun f => group f = name /\ teamAId f ∈ map Team.id g
                             /\ teamBId f ∈ map Team.id g)
                   (generateGroupFixtures dates g name)) as Hin.
  { intros dates g name. apply Forall_forall. intros f Hf.
    apply generated_fixture_pair in Hf.
    destruct Hf as (Hg & _ & ti & tj & Hp & -> & ->).
    apply pairings_lookup in Hp. destruct Hp as (i & j & _ & Hi & Hj).
    split; [exact Hg|].
    split; apply list_elem_of_In, in_map, list_elem_of_In, list_elem_of_lookup; eauto. }
  unfold generateBasicFixture. cbv zeta.
  set (dates := if (length loop_dates =? 0)%nat then _ else _). clearbody dates.
  split; intros Hn.
  - replace (8 <? length teams)%nat with true by (symmetry; apply Nat.ltb_lt; exact Hn).
    cbn [fst snd]. eexists _, _. split; [reflexivity|].
    split; [rewrite <- map_app, take_drop; reflexivity|].
    split.
    + rewrite !length_map, length_take, length_drop.
      pose proof (Nat.div_mod_eq (length teams + 1) 2) as Hd.
      pose proof (Nat.mod_upper_bound (length teams + 1) 2). lia.
    + apply Forall_app. split.
      * eapply Forall_impl; [apply Hin|]. simpl. intros f H. left. exact H.
      * eapply Forall_impl; [apply Hin|]. simpl. intros f H. right. exact H.
  - replace (8 <? length teams)%nat with false by (symmetry; apply Nat.ltb_ge; exact Hn).
    cbn [fst snd]. split; [reflexivity|]. split.
    + unfold generateGroupFixtures. rewrite length_imap. apply pairings_length.
    + eapply Forall_impl; [apply Hin|]. simpl. intros f H. apply H.
Qed.

End BasicFixture.

(* ------------------------------------------------------------------ *)
(** *** Users and match days                                           *)
(* ------------------------------------------------------------------ *)

(** Adding a user whose identifier is not in use and deleting that
    identifier again gives back the list of users as it was; what is
    deleted is every user with the identifier, and nobody else.  Each of the
    two steps pushes the list it sets to ["users"] when the cloud is
    connected, and pushes nothing otherwise. *)
Theorem user_add_then_delete connected (users : list User.t) (user : User.t) :
  Forall (fun u => User.id u <> User.id user) users ->
  fst (App.handleDeleteUser connected (fst (App.handleAddUser connected users user))
         (User.id user)) = users
  /\ snd (App.handleAddUser connected users user)
     = (if connected then [("users", users ++ [user])] else [])
  /\ snd (App.handleDeleteUser connected (fst (App.handleAddUser connected users user))
            (User.id user))
     = (if connected then [("users", users)] else []).
Proof.
  intros Hfresh.
  unfold App.handleAddUser, App.handleDeleteUser, App.updateUsers. simpl.
  assert (List.filter (fun u => negb (bool_decide (User.id u = User.id user)))
            (users ++ [user]) = users) as ->.
  { rewrite List.filter_app. simpl.
    rewrite bool_decide_eq_true_2 by reflexivity. simpl. rewrite app_nil_r.
    induction Hfresh as [|u l Hu _ IH]; [reflexivity|].
    simpl. rewrite bool_decide_eq_false_2 by exact Hu. simpl. f_equal. exact IH. }
  auto.
Qed.

Lemma user_add_then_delete_witness :
  fst (App.handleDeleteUser true (fst (App.handleAddUser true [first_admin] referee_user))
         (User.id referee_user)) = [first_admin]
  /\ snd (App.handleAddUser true [first_admin] referee_user)
     = [("users", [first_admin] ++ [referee_user])]
  /\ snd (App.handleDeleteUser true (fst (App.handleAddUser true [first_admin] referee_user))
            (User.id referee_user))
     = [("users", [first_admin])].
Proof.
  apply (user_add_then_delete true [first_admin] referee_user).
  repeat constructor. discriminate.
Defined.

(** [handleUpdateUser] edits in place: the list keeps its length and its
    identifiers, position by position; every entry with the identifier of
    the updated user becomes the updated user, every other entry stays; and
    for an identifier nobody has, the list is unchanged (no user is added). *)
Theorem user_update_in_place connected (users : list User.t) (updatedUser : User.t) :
  map User.id (fst (App.handleUpdateUser connected users updatedUser)) = map User.id users
  /\ (forall i u, users !! i = Some u ->
        fst (App.handleUpdateUser connected users updatedUser) !! i
        = Some (if bool_decide (User.id u = User.id updatedUser) then updatedUser else u))
  /\ (Forall (fun u => User.id u <> User.id updatedUser) users <->
      ~ updatedUser ∈ fst (App.handleUpdateUser connected users updatedUser)
      /\ fst (App.handleUpdateUser connected users updatedUser) = users).
Proof.
  unfold App.handleUpdateUser, App.updateUsers. simpl.
  split; [|split].
  - rewrite map_map. apply map_ext. intros u.
    case_bool_decide; [symmetry; assumption | reflexivity].
  - intros i u Hi.
    change (map ?f users) with (f <$> users). rewrite list_lookup_fmap, Hi. reflexivity.
  - split.
    + intros Hfresh.
      assert (map (fun u => if bool_decide (User.id u = User.id updatedUser)
                            then updatedUser else u) users = users) as ->.
      { induction Hfresh as [|u l Hu _ IH]; [reflexivity|].
        simpl. rewrite bool_decide_eq_false_2 by exact Hu. f_equal. exact IH. }
      split; [|reflexivity]. intros Hin.
      rewrite Forall_forall in Hfresh. exact (Hfresh _ Hin eq_refl).
    + intros [Hnot _]. apply Forall_forall. intros u Hu Heq. apply Hnot.
      apply list_elem_of_In, in_map_iff. exists u.
      rewrite bool_decide_eq_true_2 by exact Heq.
      split; [reflexivity | apply list_elem_of_In; exact Hu].
Qed.

(** [toggleDaySelection] flips one day: afterwards the day is selected
    exactly when it was not before, every other day is selected exactly when
    it was, the other fields of the form are untouched, and a selection
    without repetition stays without repetition.  Selecting a day that was
    not selected and toggling it again restores the selection. *)
Theorem toggle_day_flips day (prev : NewTourneyData.t) :
  (forall d, d ∈ NewTourneyData.matchDays (App.toggleDaySelection day prev)
             <-> (d <> day /\ d ∈ NewTourneyData.matchDays prev)
                 \/ (d = day /\ ~ day ∈ NewTourneyData.matchDays prev))
  /\ NewTourneyData.name (App.toggleDaySelection day prev) = NewTourneyData.name prev
  /\ NewTourneyData.startDate (App.toggleDaySelection day prev)
     = NewTourneyData.startDate prev
  /\ NewTourneyData.endDate (App.toggleDaySelection day prev) = NewTourneyData.endDate prev
  /\ (NoDup (NewTourneyData.matchDays prev) ->
      NoDup (NewTourneyData.matchDays (App.toggleDaySelection day prev)))
  /\ (~ day ∈ NewTourneyData.matchDays prev ->
      App.toggleDaySelection day (App.toggleDaySelection day prev) = prev).
Proof.
  destruct prev as [name startDate endDate logoUrl days].
  unfold App.toggleDaySelection. simpl.
  assert (forall d l, d ∈ List.filter (fun d' => negb (bool_decide (d' = day))) l
                      <-> d <> day /\ d ∈ l) as Hf.
  { intros d l. rewrite !list_elem_of_In, filter_In, negb_true_iff, bool_decide_eq_false.
    tauto. }
  split; [|split; [reflexivity|split; [reflexivity|split; [reflexivity|split]]]].
  - intros d. case_bool_decide as Hin.
    + rewrite Hf. split; [tauto|]. intros [H|[_ H]]; [exact H | contradiction].
    + rewrite elem_of_app, list_elem_of_singleton. split.
      * intros [H | ->]; [left; split; [congruence | exact H] | right; auto].
      * intros [[_ H] | [-> _]]; auto.
  - intros Hnd. case_bool_decide as Hin.
    + apply NoDup_ListNoDup, List.NoDup_filter, NoDup_ListNoDup, Hnd.
    + apply NoDup_app. split; [exact Hnd|]. split; [|apply NoDup_singleton].
      intros d Hd Hs. apply list_elem_of_singleton in Hs. subst d. contradiction.
  - intros Hnot. rewrite (bool_decide_eq_false_2 _ Hnot).
    rewrite bool_decide_eq_true_2 by (apply elem_of_app; right; apply list_elem_of_singleton;
                                      reflexivity).
    f_equal. rewrite List.filter_app. simpl.
    rewrite bool_decide_eq_true_2 by reflexivity. simpl. rewrite app_nil_r.
    clear -Hnot. induction days as [|d l IH]; [reflexivity|].
    simpl. rewrite bool_decide_eq_false_2.
    + simpl. f_equal. apply IH. intros H. apply Hnot. right. exact H.
    + intros ->. apply Hnot. left.
Qed.

(* ------------------------------------------------------------------ *)
(** *** The point log and the statistics of the overlay                *)
(* ------------------------------------------------------------------ *)

Lemma tally_cons p e h : tally p (e :: h) = (if p e then 1 else 0) + tally p h.
Proof. unfold tally. simpl. destruct (p e); simpl length; lia. Qed.

Lemma tally_app p h1 h2 : tally p (h1 ++ h2) = tally p h1 + tally p h2.
Proof. unfold tally. rewrite List.filter_app, length_app. lia. Qed.

(** What the root [handlePoint] stores in [sets]. *)
Lemma root_handlePoint_sets tournament fixture m teamId type playerId m' :
  App.find_fixture (Tournament.fixtures tournament) (matchId m) = Some fixture ->
  status m <> finished ->
  App.handlePoint (Some tournament) (Some m) teamId type playerId = Updates m' ->
  sets m'
  = store_index (spread (sets m)) (currentSet m - 1)
      {| MatchSet.scoreA := scoreA m';
         MatchSet.scoreB := scoreB m';
         MatchSet.history :=
           Some (default [] (MatchSet.history
                               (default emptySet
                                  (at_index (spread (sets m)) (currentSet m - 1))))
                 ++ [ PointLog.mk teamId playerId type
                        (scoreSnapshot (scoreA m') (scoreB m')) ]);
         MatchSet.durationMinutes :=
           MatchSet.durationMinutes
             (default emptySet (at_index (spread (sets m)) (currentSet m - 1))) |}.
Proof.
  intros Hfix Hst. unfold App.handlePoint. rewrite Hfix. cbv zeta.
  match goal with
  | |- context [App.setFinished m (scoreA ?x) (scoreB ?x)] => generalize x as scored
  end.
  intros scored.
  destruct (status m) eqn:Hstatus; try congruence; intros H;
    repeat board_case; reflexivity.
Qed.

Lemma credits_point fixture sd teamId type playerId snapshot :
  credits fixture sd (PointLog.mk teamId playerId type snapshot)
  = match point_side fixture teamId type, sd with
    | Some SideA, SideA | Some SideB, SideB => true
    | _, _ => false
    end.
Proof. reflexivity. Qed.

Lemma at_index_elem {A} (l : list (slot A)) i (a : A) :
  at_index l i = Some a -> Item a ∈ l.
Proof.
  unfold at_index. destruct (i <? 0); [discriminate|].
  destruct (l !! Z.to_nat i) as [[| |b]|] eqn:Hl; try discriminate.
  intros [= ->]. apply list_elem_of_lookup. eauto.
Qed.

Lemma ledger_point tournament fixture m teamId type playerId m' :
  App.find_fixture (Tournament.fixtures tournament) (matchId m) = Some fixture ->
  teamId = MatchFixture.teamAId fixture \/ teamId = MatchFixture.teamBId fixture ->
  App.handlePoint (Some tournament) (Some m) teamId type playerId = Updates m' ->
  ledger_inv fixture m -> ledger_inv fixture m'.
Proof.
  intros Hfix Hid H [Hinv Hall].
  split; [eapply mutation_keeps; [exact Hinv | eapply point_root; exact H]|].
  assert (status m = finished \/ status m <> finished) as [Hfin|Hst]
    by (destruct (status m); auto; right; discriminate).
  { unfold App.handlePoint in H. rewrite Hfix, Hfin in H. injection H as <-. exact Hall. }
  pose proof (root_handlePoint_fields _ _ _ _ _ _ _ Hfix Hst H) as (Heff & _ & _).
  pose proof (root_handlePoint_sets _ _ _ _ _ _ _ Hfix Hst H) as Hsets.
  destruct Hinv as [(Hone & Hlen & Hitems) (s & Hs & HsA & HsB)].
  rewrite (spread_items _ Hitems), Hs in Hsets. simpl default in Hsets.
  rewrite store_index_in_range in Hsets by lia.
  rewrite Hsets. apply Forall_insert; [exact Hall|].
  eexists. split; [reflexivity|].
  assert (set_accounted fixture s) as (h & Hh & Hids & HA & HB).
  { rewrite Forall_forall in Hall.
    destruct (Hall _ (at_index_elem _ _ _ Hs)) as (s' & [= <-] & Hacc). exact Hacc. }
  exists (h ++ [PointLog.mk teamId playerId type (scoreSnapshot (scoreA m') (scoreB m'))]).
  rewrite Hh. simpl.
  split; [reflexivity|].
  split; [apply Forall_app; split; [exact Hids | constructor; [exact Hid | constructor]]|].
  rewrite !tally_app, <- HA, <- HB, HsA, HsB.
  unfold tally. simpl. rewrite !credits_point.
  unfold point_effect in Heff. destruct Heff as (_ & _ & Heff).
  destruct (point_side fixture teamId type) as [[|]|]; simpl;
    destruct Heff as (-> & -> & _); split; lia.
Qed.

Lemma ledger_same_sets fixture m m' :
  same_board m m' -> ledger_inv fixture m -> ledger_inv fixture m'.
Proof.
  intros Hsame [Hinv Hall]. split; [apply (same_board_keeps m); assumption|].
  destruct Hsame as (-> & _). exact Hall.
Qed.

Lemma accounted_emptySet fixture : set_accounted fixture emptySet.
Proof. exists []. repeat split; constructor. Qed.

(** In a match where points are scored with the root [handlePoint] for
    one of the two teams of the fixture and never taken back, the point log
    is a ledger of the score: [sets] has no gap, its last entry is the
    current set and shows the score of the board, and in every set each side
    has exactly as many points as the set's log has entries that gave that
    side a point. *)
Theorem ledger_invariant tournament fixture m :
  scored_play tournament fixture m -> ledger_inv fixture m.
Proof.
  induction 1 as [modal cfg m H | m teamId type playerId m' _ IH Hfix Hid H
                 | m m' _ IH H | m m' _ IH H].
  - split; [apply started_inv; eapply started_root; exact H|].
    unfold App.confirmStartMatch in H. cbv zeta in H. repeat board_case.
    cbn. repeat constructor. exists emptySet. split; [reflexivity|].
    apply accounted_emptySet.
  - exact (ledger_point _ _ _ _ _ _ _ Hfix Hid H IH).
  - destruct IH as [Hinv Hall].
    pose proof Hinv as [(_ & Hlen & Hitems) _].
    apply root_handleStartNextSet_shape in H; [|exact Hlen].
    destruct H as [Hc | Ho].
    + apply (ledger_same_sets fixture m); [|split; assumption].
      apply copies_board_same; assumption.
    + split; [apply (opens_next_keeps m); assumption|].
      destruct Ho as (-> & _). rewrite (spread_items _ Hitems).
      apply Forall_app. split; [exact Hall|].
      repeat constructor. exists emptySet. split; [reflexivity|].
      apply accounted_emptySet.
  - apply (ledger_same_sets fixture m); [|exact IH].
    apply other_handlers_shape.
    destruct H as [H | [H | [(modal & o & i & H) | [(modal & r & H)
                  | [(a & now & teamId & H) | (modal & cfg & H)]]]]]; eauto 12.
Qed.

Lemma ledger_invariant_witness : ledger_inv fixture_ab two_rallies.
Proof.
  apply (ledger_invariant tournament_ab fixture_ab two_rallies).
  apply (play_point tournament_ab fixture_ab one_rally "team-a" red_card (Some "a3"));
    [ | reflexivity | left; reflexivity | reflexivity ].
  apply (play_point tournament_ab fixture_ab opening_match "team-a" ace (Some "a1"));
    [ | reflexivity | left; reflexivity | reflexivity ].
  apply (play_start tournament_ab fixture_ab (Some "m1") (MatchConfig.mk 5 25 15)).
  reflexivity.
Defined.

Lemma forEach_total_items p l total :
  Forall (fun sl : slot MatchSet.t => exists s, sl = Item s) l ->
  TVOverlay.forEach_total p l total
  = Some (total + fold_right (fun sl acc =>
                     match sl with
                     | Item s => tally p (default [] (MatchSet.history s)) + acc
                     | _ => acc
                     end) 0 l).
Proof.
  intros Hl. revert total. induction Hl as [|sl l (s & ->) _ IH]; intros total.
  - simpl. f_equal. lia.
  - simpl. rewrite IH. unfold tally. f_equal. lia.
Qed.

(** One log entry, for a fixture of two different teams, counts in the
    score of a side exactly when it counts in one of the five figures: an
    attack, a block or an ace of that side, an error the other side's entry
    list does not claim, or a red card of the other side. *)
Lemma credits_split fixture sd e :
  MatchFixture.teamAId fixture <> MatchFixture.teamBId fixture ->
  PointLog.teamId e = MatchFixture.teamAId fixture
  \/ PointLog.teamId e = MatchFixture.teamBId fixture ->
  let own := team_of_side fixture sd in
  let other := team_of_side fixture (other_side sd) in
  let by_own type :=
    bool_decide (PointLog.teamId e = own) && TVOverlay.same_type (PointLog.type e) type in
  (if credits fixture sd e then 1 else 0)
  = (if by_own attack then 1 else 0) + (if by_own block then 1 else 0)
    + (if by_own ace then 1 else 0)
    + (if negb (bool_decide (PointLog.teamId e = other))
          && TVOverlay.same_type (PointLog.type e) opponent_error then 1 else 0)
    + (if bool_decide (PointLog.teamId e = other)
          && TVOverlay.same_type (PointLog.type e) red_card then 1 else 0).
Proof.
  intros Hne Hid. destruct e as [teamId playerId type snapshot]. simpl in *.
  unfold credits, point_side. simpl.
  destruct Hid as [-> | ->]; destruct sd; destruct type; simpl;
    repeat case_bool_decide; simpl; congruence || lia.
Qed.

Lemma tally_split fixture sd h :
  MatchFixture.teamAId fixture <> MatchFixture.teamBId fixture ->
  Forall (fun e => PointLog.teamId e = MatchFixture.teamAId fixture
                   \/ PointLog.teamId e = MatchFixture.teamBId fixture) h ->
  tally (credits fixture sd) h
  = tally (fun e => bool_decide (PointLog.teamId e = team_of_side fixture sd)
                    && TVOverlay.same_type (PointLog.type e) attack) h
    + tally (fun e => bool_decide (PointLog.teamId e = team_of_side fixture sd)
                      && TVOverlay.same_type (PointLog.type e) block) h
    + tally (fun e => bool_decide (PointLog.teamId e = team_of_side fixture sd)
                      && TVOverlay.same_type (PointLog.type e) ace) h
    + tally (fun e => negb (bool_decide
                              (PointLog.teamId e = team_of_side fixture (other_side sd)))
                      && TVOverlay.same_type (PointLog.type e) opponent_error) h
    + tally (fun e => bool_decide (PointLog.teamId e = team_of_side fixture (other_side sd))
                      && TVOverlay.same_type (PointLog.type e) red_card) h.
Proof.
  intros Hne Hids. induction Hids as [|e h He _ IH]; [reflexivity|].
  rewrite !tally_cons, IH.
  pose proof (credits_split fixture sd e Hne He) as Hc. cbv zeta in Hc.
  rewrite Hc. lia.
Qed.

(** The figures of the overlay add up to the score.  For a fixture of two
    different teams and a match whose log is a ledger of the score, the
    attacks, blocks and aces the overlay shows for a side, plus the errors
    it shows for the other side, plus the red cards of the other side, are
    the points of that side over the sets the overlay counts (all sets, or
    the set [statsSetIndex] names); for the current set this is the score on
    the board. *)
Theorem overlay_totals_account fixture m statsSetIndex sd :
  MatchFixture.teamAId fixture <> MatchFixture.teamBId fixture ->
  ledger_inv fixture m ->
  exists attacks blocks aces errors reds,
    TVOverlay.calculateTeamTotal (sets m) statsSetIndex (team_of_side fixture sd) attack
    = Some attacks
    /\ TVOverlay.calculateTeamTotal (sets m) statsSetIndex (team_of_side fixture sd) block
       = Some blocks
    /\ TVOverlay.calculateTeamTotal (sets m) statsSetIndex (team_of_side fixture sd) ace
       = Some aces
    /\ TVOverlay.calculateTeamErrors (sets m) statsSetIndex
         (team_of_side fixture (other_side sd)) = Some errors
    /\ TVOverlay.calculateTeamTotal (sets m) statsSetIndex
         (team_of_side fixture (other_side sd)) red_card = Some reds
    /\ board_points sd (TVOverlay.setsToCount (sets m) statsSetIndex)
       = attacks + blocks + aces + errors + reds
    /\ (statsSetIndex = Some (currentSet m - 1) ->
        board_points sd (TVOverlay.setsToCount (sets m) statsSetIndex)
        = match sd with SideA => scoreA m | SideB => scoreB m end).
Proof.
  intros Hne [Hinv Hall].
  assert (Forall (fun sl => exists s, sl = Item s /\ set_accounted fixture s)
                 (TVOverlay.setsToCount (sets m) statsSetIndex)) as Hcount.
  { unfold TVOverlay.setsToCount. destruct statsSetIndex as [i|]; [|exact Hall].
    destruct (at_index (sets m) i) as [s|] eqn:Hs; [|exact Hall].
    repeat constructor. rewrite Forall_forall in Hall.
    exact (Hall _ (at_index_elem _ _ _ Hs)). }
  assert (Forall (fun sl : slot MatchSet.t => exists s, sl = Item s)
                 (TVOverlay.setsToCount (sets m) statsSetIndex)) as Hitems.
  { eapply Forall_impl; [exact Hcount|]. intros sl (s & -> & _). eauto. }
  unfold TVOverlay.calculateTeamTotal, TVOverlay.calculateTeamErrors.
  rewrite !(forEach_total_items _ _ _ Hitems).
  do 5 eexists. repeat (split; [reflexivity|]).
  split.
  - clear Hitems. induction Hcount as [|sl l (s & -> & h & Hh & Hids & HA & HB) _ IH];
      [reflexivity|].
    simpl. rewrite IH, Hh. simpl.
    assert (set_score sd s = tally (credits fixture sd) h) as ->
      by (destruct sd; assumption).
    rewrite (tally_split fixture sd h Hne Hids). lia.
  - intros ->. destruct Hinv as [_ (s & Hs & HA & HB)].
    unfold TVOverlay.setsToCount. rewrite Hs. simpl.
    destruct sd; simpl; lia.
Qed.

Lemma overlay_totals_account_witness :
  exists attacks blocks aces errors reds,
    TVOverlay.calculateTeamTotal (sets two_rallies) None (team_of_side fixture_ab SideB) attack
    = Some attacks
    /\ TVOverlay.calculateTeamTotal (sets two_rallies) None (team_of_side fixture_ab SideB)
         block = Some blocks
    /\ TVOverlay.calculateTeamTotal (sets two_rallies) None (team_of_side fixture_ab SideB) ace
       = Some aces
    /\ TVOverlay.calculateTeamErrors (sets two_rallies) None
         (team_of_side fixture_ab (other_side SideB)) = Some errors
    /\ TVOverlay.calculateTeamTotal (sets two_rallies) None
         (team_of_side fixture_ab (other_side SideB)) red_card = Some reds
    /\ board_points SideB (TVOverlay.setsToCount (sets two_rallies) None)
       = attacks + blocks + aces + errors + reds
    /\ (None = Some (currentSet two_rallies - 1) ->
        board_points SideB (TVOverlay.setsToCount (sets two_rallies) None)
        = match SideB with SideA => scoreA two_rallies | SideB => scoreB two_rallies end).
Proof.
  apply (overlay_totals_account fixture_ab two_rallies None SideB).
  - discriminate.
  - split.
    + split; [repeat split; [simpl; lia | repeat constructor]|].
      eexists. split; [reflexivity|]. split; reflexivity.
    + repeat constructor. eexists. split; [reflexivity|].
      eexists. split; [reflexivity|].
      split; [repeat constructor; left; reflexivity|]. split; reflexivity.
Defined.
